(** * chirc: message framing, parsing and registration

    A shallow embedding of [src/message.c] and of the connection handling
    part of [src/main.c] (functions [parse_message], [get_arg],
    [send_data], [send_welcome_message], [process_message],
    [process_buffered_messages] and [process_client_messages]).

    C [int]s are modelled as [Z]: every offset the program computes lies
    between [-1] and the length of the frame plus one, and frames come out
    of a buffer of 1024 bytes, so 32-bit arithmetic never wraps.  A
    [char *] that is used as a string is an [option (list ascii)]: [None]
    is [NULL], [Some bs] points at the bytes [bs] followed by a NUL.  A
    [char *] that is used as a cursor into an array ([buffer + n],
    [&message_str[n]]) is the suffix [drop n] of that array.  Memory
    errors (a read or a copy that leaves its array, a negative length
    handed to [memcpy]) are an explicit [Fault] outcome; [malloc] is
    assumed to succeed. *)

From Stdlib Require Import ZArith Ascii String Lia Bool.
From stdpp Require Import base list.

Local Open Scope Z_scope.

(** ** Bytes and C strings *)

Definition bytes (s : string) : list ascii := list_ascii_of_string s.

Definition NUL : ascii := Ascii.zero.
Definition CR : ascii := "013"%char.
Definition LF : ascii := "010"%char.
Definition SP : ascii := " "%char.
Definition COLON : ascii := ":"%char.

Definition len {A} (l : list A) : Z := Z.of_nat (length l).

(** [s[i]] for an index inside the array (the NUL default is never
    relied upon: every read below is guarded by a length test). *)
Definition char_at (s : list ascii) (i : Z) : ascii :=
  nth (Z.to_nat i) s NUL.

(** The string a [char *] denotes: the bytes before the first NUL. *)
Fixpoint cstr (bs : list ascii) : list ascii :=
  match bs with
  | [] => []
  | b :: bs' => if Ascii.eqb b NUL then [] else b :: cstr bs'
  end.

#[global] Instance ascii_eq_dec : EqDecision ascii := Ascii.ascii_dec.

(** [strcmp(a, b) == 0] *)
Definition strcmp_eq (a b : list ascii) : bool :=
  bool_decide (cstr a = cstr b).

(** ** Outcomes, events and the monad of the program *)

Inductive loglevel := QUIET | CRITICAL | ERROR | WARNING | INFO | DEBUG | TRACE.

Inductive logarg :=
| LInt (z : Z)
| LStr (s : list ascii)
| LNull.

Inductive event :=
| Chilog (lvl : loglevel) (fmt : string) (fargs : list logarg)
| SockWrite (fd : Z) (data : list ascii).

Inductive outcome (A : Type) :=
| Ok (a : A)
| Fault
| Exited (status : Z).
Arguments Ok {A} a.
Arguments Fault {A}.
Arguments Exited {A} status.

(** A computation emits events and then returns, faults or exits the
    process. *)
Definition M (A : Type) : Type := (list event * outcome A)%type.

Definition ret {A} (a : A) : M A := ([], Ok a).

Definition bind {A B} (m : M A) (k : A -> M B) : M B :=
  match m with
  | (t, Ok a) => let (t', r) := k a in (t ++ t', r)
  | (t, Fault) => (t, Fault)
  | (t, Exited s) => (t, Exited s)
  end.

Definition lift {A} (o : outcome A) : M A := ([], o).

Notation "x <- m ;; k" := (bind m (fun x => k))
  (at level 20, m at level 99, k at level 200, only parsing).
Notation "' p <- m ;; k" := (bind m (fun x => let 'p := x in k))
  (at level 20, p pattern, m at level 99, k at level 200, only parsing).
Notation "m ;; k" := (bind m (fun _ => k))
  (at level 100, k at level 200, right associativity, only parsing).

(** Modelled from the spec: [chilog] of [log.h] is not part of the
    sources; the spec describes it as a sink [log(severity, formatString,
    args...)].  A call is recorded as one event. *)
Definition chilog (lvl : loglevel) (fmt : string) (fargs : list logarg) : M unit :=
  ([Chilog lvl fmt fargs], Ok tt).

(** [exit(status)] *)
Definition exit {A} (status : Z) : M A := ([], Exited status).

Definition trace_of {A} (m : M A) : list event := fst m.
Definition result_of {A} (m : M A) : outcome A := snd m.

(** ** message.c *)

Record msg := Msg {
  command : option (list ascii);
  args : list (option (list ascii));
  numArgs : Z
}.

(** First pass of [parse_message]: the loop
    [for (offset = 0; offset < message_length; offset++)] from the given
    [offset] on, returning the final [m->numArgs]. *)
Fixpoint count_args (fuel : nat) (message_str : list ascii)
    (message_length offset numArgs : Z) : Z :=
  match fuel with
  | O => numArgs
  | S fuel' =>
    if offset <? message_length then
      if Ascii.eqb (char_at message_str offset) SP then
        count_args fuel' message_str message_length (offset + 1) (numArgs + 1)
      else if Ascii.eqb (char_at message_str offset) COLON then
        numArgs
      else
        count_args fuel' message_str message_length (offset + 1) numArgs
    else numArgs
  end.

(** The inner loop of the second pass,
    [for (; offset < message_length; offset++)]; returns
    [(start_offset, offset)] as they are when the loop is left. *)
Fixpoint scan_token (fuel : nat) (message_str : list ascii)
    (message_length start_offset offset : Z) : Z * Z :=
  match fuel with
  | O => (start_offset, offset)
  | S fuel' =>
    if offset <? message_length then
      if Ascii.eqb (char_at message_str offset) COLON then
        (start_offset + 1, message_length + 1)
      else if Ascii.eqb (char_at message_str offset) SP then
        (start_offset, offset + 1)
      else
        scan_token fuel' message_str message_length start_offset (offset + 1)
    else (start_offset, offset)
  end.

(** [memcpy(dst, src, n)] between two arrays given from their cursors on:
    the first [n] bytes of [dst] are replaced by the first [n] bytes of
    [src].  [n] is a [size_t] in C: a negative [int] becomes a huge
    length, which leaves both arrays. *)
Definition memcpy (dst src : list ascii) (n : Z) : outcome (list ascii) :=
  if (n <? 0) || (len src <? n) || (len dst <? n) then Fault
  else Ok (take (Z.to_nat n) src ++ drop (Z.to_nat n) dst).

(** [malloc(n)]: a fresh block of [n] bytes (its contents are
    indeterminate, here NUL). *)
Definition malloc (n : Z) : list ascii := replicate (Z.to_nat n) NUL.

(** [arg = malloc(arg_len); memcpy(arg, &message_str[start_offset],
    arg_len - 1); arg[arg_len - 1] = '\0';] The result is the string
    before the terminator that the program writes. *)
Definition copy_arg (message_str : list ascii) (start_offset arg_len : Z)
    : outcome (list ascii) :=
  match memcpy (malloc arg_len) (drop (Z.to_nat start_offset) message_str)
               (arg_len - 1) with
  | Ok blk => Ok (take (Z.to_nat (arg_len - 1)) blk)
  | Fault => Fault
  | Exited s => Exited s
  end.

Definition set_command (m : msg) (arg : list ascii) : msg :=
  {| command := Some arg; args := args m; numArgs := numArgs m |}.

Definition set_arg (m : msg) (arg_number : Z) (arg : option (list ascii)) : msg :=
  {| command := command m;
     args := <[Z.to_nat arg_number := arg]> (args m);
     numArgs := numArgs m |}.

(** Second pass: the loop
    [for (arg_number = -1; arg_number < m->numArgs; arg_number++)] from
    the given [arg_number] and [offset] on. *)
Fixpoint collect_args (fuel : nat) (message_str : list ascii)
    (message_length : Z) (m : msg) (arg_number offset : Z) : M msg :=
  match fuel with
  | O => ret m
  | S fuel' =>
    if arg_number <? numArgs m then
      let '(start_offset, offset) :=
        scan_token (Z.to_nat (message_length - offset)) message_str
                   message_length offset offset in
      let offset := if offset =? message_length then offset + 1 else offset in
      let arg_len := offset - start_offset in
      chilog DEBUG "%i - %i: %i" [LInt start_offset; LInt offset; LInt arg_len] ;;
      arg <- lift (copy_arg message_str start_offset arg_len) ;;
      chilog DEBUG "Arg: %s" [LStr (cstr arg)] ;;
      let m := if arg_number =? -1 then set_command m arg
               else set_arg m arg_number (Some arg) in
      collect_args fuel' message_str message_length m (arg_number + 1) offset
    else ret m
  end.

Definition parse_message (message_str : list ascii) (message_length : Z) : M msg :=
  let numArgs :=
    count_args (Z.to_nat message_length) message_str message_length 0 0 in
  let m := {| command := None;
              args := replicate (Z.to_nat numArgs) None;
              numArgs := numArgs |} in
  collect_args (Z.to_nat (numArgs + 1)) message_str message_length m (-1) 0.

(** [get_arg]: reads [m->args[arg_index]] and overwrites the slot with
    [NULL].  The array has [numArgs] slots; an index outside it is a
    memory error. *)
Definition get_arg (m : msg) (arg_index : Z)
    : outcome (option (list ascii) * msg) :=
  if arg_index <? 0 then Fault
  else match args m !! Z.to_nat arg_index with
       | Some arg => Ok (arg, set_arg m arg_index None)
       | None => Fault
       end.

(** [free_message] releases the strings still owned by the message and
    the message itself; the strings it frees are returned. *)
Definition free_message (m : msg) : list (list ascii) :=
  omap id (args m).

(** ** main.c *)

(** The [client] structure of [client.h], as [main.c] uses it. *)
Record client := Client {
  nick : option (list ascii);
  username : option (list ascii);
  fullName : option (list ascii);
  welcomeMessageSent : bool;
  sockfd : Z
}.

Definition set_nick (c : client) (v : option (list ascii)) : client :=
  {| nick := v; username := username c; fullName := fullName c;
     welcomeMessageSent := welcomeMessageSent c; sockfd := sockfd c |}.
Definition set_username (c : client) (v : option (list ascii)) : client :=
  {| nick := nick c; username := v; fullName := fullName c;
     welcomeMessageSent := welcomeMessageSent c; sockfd := sockfd c |}.
Definition set_fullName (c : client) (v : option (list ascii)) : client :=
  {| nick := nick c; username := username c; fullName := v;
     welcomeMessageSent := welcomeMessageSent c; sockfd := sockfd c |}.
Definition set_welcomeMessageSent (c : client) (v : bool) : client :=
  {| nick := nick c; username := username c; fullName := fullName c;
     welcomeMessageSent := v; sockfd := sockfd c |}.

(** The client [main] hands to a new thread. *)
Definition new_client (fd : Z) : client :=
  {| nick := None; username := None; fullName := None;
     welcomeMessageSent := false; sockfd := fd |}.

(** A [%s] argument of [chilog]. *)
Definition log_str (p : option (list ascii)) : logarg :=
  match p with
  | Some s => LStr (cstr s)
  | None => LNull
  end.

Definition is_null {A} (p : option A) : bool :=
  match p with Some _ => false | None => true end.

Definition buffer_size : Z := 1024.

Section Server.

(** The macro [RPL_WELCOME] of [reply.h], which is not part of the
    sources. *)
Variable RPL_WELCOME : list ascii.

(** [write(c->sockfd, data, strlen(data))] *)
Definition send_data (c : client) (data : option (list ascii)) : M unit :=
  match data with
  | Some d => ([SockWrite (sockfd c) (cstr d)], Ok tt)
  | None => lift Fault
  end.

Definition send_welcome_message (c : client) : M client :=
  send_data c (Some (bytes ":irc.alexbostock.co.uk ")) ;;
  send_data c (Some RPL_WELCOME) ;;
  send_data c (Some (bytes " ")) ;;
  send_data c (nick c) ;;
  send_data c (Some (bytes " :Welcome to the Internet Relay Network ")) ;;
  send_data c (nick c) ;;
  send_data c (Some (bytes "!")) ;;
  send_data c (username c) ;;
  send_data c (Some (bytes "@")) ;;
  send_data c (Some (bytes "foo.example.com" ++ [CR; LF])) ;;
  ret (set_welcomeMessageSent c true).

Definition process_message (message : list ascii) (message_length : Z)
    (c : client) : M client :=
  m <- parse_message message message_length ;;
  cmd <- lift (match command m with Some s => Ok s | None => Fault end) ;;
  '(m, c) <-
    (if strcmp_eq cmd (bytes "NICK") then
       chilog INFO "Processing NICK" [] ;;
       '(a, m) <- lift (get_arg m 0) ;;
       let c := set_nick c a in
       chilog INFO "Parsed nick: %s" [log_str (nick c)] ;;
       ret (m, c)
     else if strcmp_eq cmd (bytes "USER") then
       chilog INFO "Processing USER" [] ;;
       '(a, m) <- lift (get_arg m 0) ;;
       let c := set_username c a in
       '(a, m) <- lift (get_arg m 3) ;;
       let c := set_fullName c a in
       chilog INFO "Parsed username: %s" [log_str (username c)] ;;
       chilog INFO "Parsed fullName: %s" [log_str (fullName c)] ;;
       ret (m, c)
     else
       chilog ERROR "Unexpected command %s" [LStr (cstr cmd)] ;;
       ret (m, c)) ;;
  let _ := free_message m in
  if negb (is_null (nick c)) && negb (is_null (username c))
     && negb (welcomeMessageSent c)
  then send_welcome_message c
  else ret c.

End Server.

(** The frame splitter, for any handler of a frame: [main.c] calls
    [process_message]; a handler that only records its frame shows which
    frames are dispatched. *)
Section Splitter.

Context {St : Type}.
Variable handle : list ascii -> Z -> St -> M St.

(** The loop [for (i = ...; i < buffer_offset - 1; i++)] from the given
    [i] and [message_start_offset] on. *)
Fixpoint scan_buffer (fuel : nat) (buffer : list ascii)
    (buffer_offset i message_start_offset : Z) (c : St) : M (Z * St) :=
  match fuel with
  | O => ret (message_start_offset, c)
  | S fuel' =>
    if i <? buffer_offset - 1 then
      if Ascii.eqb (char_at buffer i) CR
         && Ascii.eqb (char_at buffer (i + 1)) LF then
        let message_length := i - message_start_offset in
        c <- handle (drop (Z.to_nat message_start_offset) buffer)
                    message_length c ;;
        scan_buffer fuel' buffer buffer_offset (i + 1) (i + 2) c
      else
        scan_buffer fuel' buffer buffer_offset (i + 1) message_start_offset c
    else ret (message_start_offset, c)
  end.

Definition process_buffered_messages_with (buffer : list ascii)
    (buffer_size buffer_offset : Z) (c : St) : M (Z * St) :=
  '(message_start_offset, c) <-
    scan_buffer (Z.to_nat (buffer_offset - 1 - 1)) buffer buffer_offset 1 0 c ;;
  if (message_start_offset =? 0) && (buffer_offset =? buffer_size) then
    chilog WARNING
      "Buffer full of an oversized / invalid message. Dropping buffered data" [] ;;
    ret (buffer_size, c)
  else ret (message_start_offset, c).

End Splitter.

Definition process_buffered_messages (RPL_WELCOME : list ascii) :=
  process_buffered_messages_with (process_message RPL_WELCOME).

(** The handler that records the frame it is given. *)
Definition record_frame (message : list ascii) (message_length : Z)
    (seen : list (list ascii)) : M (list (list ascii)) :=
  ret (seen ++ [take (Z.to_nat message_length) message]).

(** The frames [process_buffered_messages] dispatches, in order, and the
    offset it returns. *)
Definition dispatched (buffer : list ascii) (buffer_size buffer_offset : Z)
    : outcome (Z * list (list ascii)) :=
  result_of (process_buffered_messages_with record_frame buffer buffer_size
               buffer_offset []).

(** *** The socket *)

(** What a call of [read] finds: bytes that have arrived (none at all
    when the peer has closed the connection), or an error. *)
Inductive arrival :=
| Data (bs : list ascii)
| ReadError.

(** [read(fd, p, count)] on a socket with the given arrivals: the return
    value, the bytes stored at [p] and what is left for later reads.
    [None]: nothing has arrived, the call blocks. *)
Definition read (sock : list arrival) (count : Z)
    : option (Z * list ascii * list arrival) :=
  match sock with
  | [] => None
  | ReadError :: sock' => Some (-1, [], sock')
  | Data bs :: sock' =>
    if len bs <=? count then Some (len bs, bs, sock')
    else Some (count, take (Z.to_nat count) bs,
               Data (drop (Z.to_nat count) bs) :: sock')
  end.

Record connection := Connection {
  conn_buffer : list ascii;
  conn_buffer_offset : Z;
  conn_client : client;
  conn_socket : list arrival
}.

Section Loop.

Context {St : Type}.
Variable handle : list ascii -> Z -> St -> M St.

(** [while (true) { ... }] of [process_client_messages], run for at most
    [fuel] iterations and as long as [read] does not block.  [Ok] is the
    state in which the thread waits in (or is about to call) [read];
    [Exited] is [exit(1)]. *)
Fixpoint client_loop (fuel : nat) (buffer : list ascii) (buffer_offset : Z)
    (c : St) (sock : list arrival) : M (list ascii * Z * St * list arrival) :=
  match fuel with
  | O => ret (buffer, buffer_offset, c, sock)
  | S fuel' =>
    match read sock (buffer_size - buffer_offset) with
    | None => ret (buffer, buffer_offset, c, sock)
    | Some (bytes_read, data, sock) =>
      if bytes_read =? -1 then
        chilog ERROR "Failed to read from client connection" [] ;;
        exit 1
      else
        let buffer :=
          take (Z.to_nat buffer_offset) buffer ++ data
          ++ drop (Z.to_nat (buffer_offset + bytes_read)) buffer in
        let buffer_offset := buffer_offset + bytes_read in
        '(consumed_offset, c) <-
          process_buffered_messages_with handle buffer buffer_size
            buffer_offset c ;;
        buffer <- lift (memcpy buffer (drop (Z.to_nat consumed_offset) buffer)
                               consumed_offset) ;;
        let buffer_offset := buffer_offset - consumed_offset in
        client_loop fuel' buffer buffer_offset c sock
    end
  end.

End Loop.

(** Iterations that exhaust the arrivals: each iteration takes a whole
    arrival or at least one byte of it. *)
Fixpoint enough_fuel (sock : list arrival) : nat :=
  match sock with
  | [] => O
  | Data bs :: sock' => (S (length bs) + enough_fuel sock')%nat
  | ReadError :: sock' => S (enough_fuel sock')
  end.

Definition process_client_messages (RPL_WELCOME : list ascii) (c : client)
    (sock : list arrival) : M (list ascii * Z * client * list arrival) :=
  client_loop (process_message RPL_WELCOME) (enough_fuel sock)
    (malloc buffer_size) 0 c sock.

(** The frames the connection loop dispatches for the given arrivals. *)
Definition frames_of_reads (sock : list arrival)
    : M (list ascii * Z * list (list ascii) * list arrival) :=
  client_loop record_frame (enough_fuel sock) (malloc buffer_size) 0 [] sock.

Definition frames_dispatched (sock : list arrival)
    : outcome (list (list ascii)) :=
  match result_of (frames_of_reads sock) with
  | Ok (_, _, frames, _) => Ok frames
  | Fault => Fault
  | Exited z => Exited z
  end.

Definition crlf : list ascii := [CR; LF].

(** ** Auxiliary definitions of the proofs *)

Definition store (m : msg) (arg_number : Z) (arg : list ascii) : msg :=
  if arg_number =? -1 then set_command m arg
  else set_arg m arg_number (Some arg).

Definition bump (message_length offset : Z) : Z :=
  if offset =? message_length then offset + 1 else offset.

(** The parsed message has [numArgs] argument slots, all of them filled,
    and a command. *)
Definition filled (m : msg) (j : Z) : Prop :=
  forall i, (0 <= i < j) -> exists v, args m !! Z.to_nat i = Some (Some v).

(** A sequence of [get_arg] calls at the given indices. *)
Fixpoint get_args (m : msg) (idxs : list Z) : outcome msg :=
  match idxs with
  | [] => Ok m
  | j :: js =>
    match get_arg m j with
    | Ok (_, m') => get_args m' js
    | Fault => Fault
    | Exited z => Exited z
    end
  end.

(** The spaces of a frame before its first colon. *)
Fixpoint spaces_before_colon (frame : list ascii) : Z :=
  match frame with
  | [] => 0
  | c :: frame' =>
    if Ascii.eqb c COLON then 0
    else if Ascii.eqb c SP then 1 + spaces_before_colon frame'
    else spaces_before_colon frame'
  end.

(** Tokens, each followed by one space. *)
Fixpoint spaced (toks : list (list ascii)) : list ascii :=
  match toks with
  | [] => []
  | tok :: toks' => tok ++ SP :: spaced toks'
  end.

(** A token that holds neither a space nor a colon. *)
Definition plain (tok : list ascii) : Prop :=
  Forall (fun c => c <> SP /\ c <> COLON) tok.

(** What the second pass has stored after the tokens [toks], the first of
    them for [arg_number]. *)
Fixpoint store_all (m : msg) (arg_number : Z) (toks : list (list ascii)) : msg :=
  match toks with
  | [] => m
  | tok :: toks' => store_all (store m arg_number tok) (arg_number + 1) toks'
  end.

(** ** Frames and statements used in the theorems *)

Definition user_frame : list ascii := bytes "USER bob 0 0 :Bob Smith".

Definition user_msg : msg :=
  {| command := Some (bytes "USER");
     args := [Some (bytes "bob"); Some (bytes "0"); Some (bytes "0");
              Some (bytes "Bob Smith")];
     numArgs := 4 |}.

(** The parse of a whole frame. *)
Definition parse_frame (frame : list ascii) : outcome msg :=
  result_of (parse_message frame (len frame)).

(** Splitting on spaces: [n] spaces give [n + 1] tokens. *)
Fixpoint split_sp (l : list ascii) : list (list ascii) :=
  match l with
  | [] => [[]]
  | c :: l' =>
    if Ascii.eqb c SP then [] :: split_sp l'
    else match split_sp l' with
         | tok :: toks => (c :: tok) :: toks
         | [] => [[c]]
         end
  end.

Definition begins_with_colon (tok : list ascii) : bool :=
  match tok with
  | c :: _ => Ascii.eqb c COLON
  | [] => false
  end.

(** The trailing-parameter rule read over the tokens between spaces: when
    [:rest] is the first token that begins with a colon, [rest] is the
    final argument. *)
Definition trailing_rule_on_tokens : Prop :=
  forall (pre rest : list ascii) (m : msg),
    forallb (fun tok => negb (begins_with_colon tok)) (split_sp pre) = true ->
    parse_frame (pre ++ SP :: COLON :: rest) = Ok m ->
    last (args m) = Some (Some rest).

(** Whether a token after the command begins with the first colon of the
    frame, that is, whether the frame has a trailing parameter. *)
Fixpoint has_trailing (frame : list ascii) : bool :=
  match frame with
  | [] => false
  | a :: frame' =>
    if Ascii.eqb a COLON then false
    else if Ascii.eqb a SP then
      match frame' with
      | b :: _ => if Ascii.eqb b COLON then true else has_trailing frame'
      | [] => false
      end
    else has_trailing frame'
  end.

(** The arguments of a parsed frame without the trailing one. *)
Definition middle_args (frame : list ascii) (m : msg) : list (option (list ascii)) :=
  if has_trailing frame then removelast (args m) else args m.

(** The first pass read as counting the arguments other than the
    trailing one. *)
Definition spaces_count_middle_args (frame : list ascii) : Prop :=
  forall m, parse_frame frame = Ok m ->
            spaces_before_colon frame = len (middle_args frame m).

(** The socket writes of a trace. *)
Fixpoint writes (t : list event) : list (Z * list ascii) :=
  match t with
  | [] => []
  | SockWrite fd data :: t' => (fd, data) :: writes t'
  | Chilog _ _ _ :: t' => writes t'
  end.

(** The log events of a trace at the given level. *)
Definition is_level (lvl : loglevel) (e : event) : bool :=
  match e, lvl with
  | Chilog QUIET _ _, QUIET | Chilog CRITICAL _ _, CRITICAL
  | Chilog ERROR _ _, ERROR | Chilog WARNING _ _, WARNING
  | Chilog INFO _ _, INFO | Chilog DEBUG _ _, DEBUG
  | Chilog TRACE _ _, TRACE => true
  | _, _ => false
  end.

Definition logged (lvl : loglevel) (t : list event) : list event :=
  List.filter (is_level lvl) t.

(** The ten writes of one welcome reply. *)
Definition welcome_reply (RPL_WELCOME : list ascii) (fd : Z)
    (n u : list ascii) : list (Z * list ascii) :=
  [ (fd, bytes ":irc.alexbostock.co.uk ");
    (fd, cstr RPL_WELCOME);
    (fd, bytes " ");
    (fd, cstr n);
    (fd, bytes " :Welcome to the Internet Relay Network ");
    (fd, cstr n);
    (fd, bytes "!");
    (fd, cstr u);
    (fd, bytes "@");
    (fd, bytes "foo.example.com" ++ [CR; LF]) ].

(** [c->nick != NULL && c->username != NULL] *)
Definition has_identity (c : client) : bool :=
  negb (is_null (nick c)) && negb (is_null (username c)).

(** The last statement of [process_message]. *)
Definition maybe_welcome (RPL_WELCOME : list ascii) (c : client) : M client :=
  if negb (is_null (nick c)) && negb (is_null (username c))
     && negb (welcomeMessageSent c)
  then send_welcome_message RPL_WELCOME c
  else ret c.

Definition is_command (m : msg) (name : string) : bool :=
  match command m with
  | Some cmd => strcmp_eq cmd (bytes name)
  | None => false
  end.

(** [process_message] on each frame in turn, as the frame splitter calls
    it for the frames of a buffer. *)
Fixpoint process_messages (RPL_WELCOME : list ascii) (frames : list (list ascii))
    (c : client) : M client :=
  match frames with
  | [] => ret c
  | frame :: frames' =>
    c <- process_message RPL_WELCOME frame (len frame) c ;;
    process_messages RPL_WELCOME frames' c
  end.

(** Short NICK and USER messages read as handled without a memory
    error. *)
Definition short_messages_are_safe : Prop :=
  forall (RPL_WELCOME frame : list ascii) (c : client) (m : msg),
    parse_frame frame = Ok m ->
    (is_command m "NICK" = true /\ numArgs m = 0)
    \/ (is_command m "USER" = true /\ numArgs m < 4) ->
    result_of (process_message RPL_WELCOME frame (len frame) c) <> Fault.

(** What one [process_message] does to the registration: [r] is its
    result from the client [c]. *)
Definition welcome_step (RPL_WELCOME : list ascii) (c : client) (r : M client)
    : Prop :=
  match result_of r with
  | Ok c' =>
    sockfd c' = sockfd c
    /\ (is_null (nick c) = false -> is_null (nick c') = false)
    /\ (is_null (username c) = false -> is_null (username c') = false)
    /\ if has_identity c' && negb (welcomeMessageSent c) then
         welcomeMessageSent c' = true
         /\ exists n u, nick c' = Some n /\ username c' = Some u
            /\ writes (trace_of r) = welcome_reply RPL_WELCOME (sockfd c) n u
       else
         welcomeMessageSent c' = welcomeMessageSent c
         /\ writes (trace_of r) = []
  | _ => writes (trace_of r) = []
  end.

(** On a connection that started unregistered, the flag is set exactly
    when both names are. *)
Definition registration_inv (fd : Z) (c : client) : Prop :=
  sockfd c = fd /\ welcomeMessageSent c = has_identity c.

(** No CR is followed by LF. *)
Fixpoint crlf_free (l : list ascii) : bool :=
  match l with
  | [] => true
  | c :: l' =>
    match l' with
    | [] => true
    | d :: _ => negb (Ascii.eqb c CR && Ascii.eqb d LF) && crlf_free l'
    end
  end.

(** A read error read as ending one connection and not the process. *)
Definition read_error_is_per_connection : Prop :=
  forall (RPL_WELCOME : list ascii) (c : client) (sock : list arrival) (z : Z),
    result_of (process_client_messages RPL_WELCOME c (sock ++ [ReadError]))
    <> Exited z.

Definition overflow_warning : event :=
  Chilog WARNING
    "Buffer full of an oversized / invalid message. Dropping buffered data" [].

Definition read_failure : event :=
  Chilog ERROR "Failed to read from client connection" [].

(** ** The parser on lists *)

(** The frame up to its first colon: the tokens that a space ends, the
    token that the colon or the end of the frame ends, and what follows
    the colon. *)
Fixpoint lex (frame : list ascii)
    : list (list ascii) * list ascii * option (list ascii) :=
  match frame with
  | [] => ([], [], None)
  | c :: frame' =>
    if Ascii.eqb c COLON then ([], [], Some frame')
    else
      let '(toks, last, rest) := lex frame' in
      if Ascii.eqb c SP then ([] :: toks, last, rest)
      else match toks with
           | [] => ([], c :: last, rest)
           | tok :: toks' => ((c :: tok) :: toks', last, rest)
           end
  end.

(** The message whose command is the first token and whose arguments are
    the others. *)
Definition msg_of_tokens (toks : list (list ascii)) : msg :=
  {| command := head toks;
     args := map Some (tail toks);
     numArgs := len (tail toks) |}.

(** What [parse_message] computes, told on the list of bytes: the token
    that holds the first colon loses its first byte and runs to the end of
    the frame; without a colon the last token runs to the end of the
    frame, and a frame that ends in a space is a memory error. *)
Definition parse_spec (frame : list ascii) : outcome msg :=
  match lex frame with
  | (toks, last, Some rest) =>
    Ok (msg_of_tokens (toks ++ [drop 1 (last ++ COLON :: rest)]))
  | (toks, last, None) =>
    match toks, last with
    | _ :: _, [] => Fault
    | _, _ => Ok (msg_of_tokens (toks ++ [last]))
    end
  end.

(** ** The splitter on lists *)

(** The frames that end in the bytes [l], after the bytes [cur] of the
    frame in progress, and the bytes left after the last of them. *)
Fixpoint split_crlf (cur l : list ascii) : list (list ascii) * list ascii :=
  match l with
  | [] => ([], cur)
  | c :: l1 =>
    match l1 with
    | [] => ([], cur ++ [c])
    | d :: l2 =>
      if Ascii.eqb c CR && Ascii.eqb d LF then
        let '(frames, rem) := split_crlf [] l2 in (cur :: frames, rem)
      else split_crlf (cur ++ [c]) l1
    end
  end.

(** A handler called on each frame in turn. *)
Fixpoint handle_frames {St : Type} (handle : list ascii -> Z -> St -> M St)
    (frames : list (list ascii)) (c : St) : M St :=
  match frames with
  | [] => ret c
  | frame :: frames' =>
    c <- handle frame (len frame) c ;;
    handle_frames handle frames' c
  end.

(** A handler that reads the first [message_length] bytes of its string
    only. *)
Definition reads_frame_only {St : Type}
    (handle : list ascii -> Z -> St -> M St) : Prop :=
  forall s n c, 0 <= n <= len s ->
                handle s n c = handle (take (Z.to_nat n) s) n c.

(** The frames joined again, each with its CR LF. *)
Fixpoint join_crlf (frames : list (list ascii)) : list ascii :=
  match frames with
  | [] => []
  | frame :: frames' => frame ++ CR :: LF :: join_crlf frames'
  end.

(** ** Registration on the connection loop *)

(** A computation started from the client [c] writes at most one welcome
    reply to the socket [fd], none when [c] has had its welcome, and the
    client [proj a] it returns keeps the invariant. *)
Definition at_most_one_welcome {A : Type} (RPL_WELCOME : list ascii) (fd : Z)
    (c : client) (proj : A -> client) (m : M A) : Prop :=
  (if welcomeMessageSent c then writes (trace_of m) = []
   else writes (trace_of m) = []
        \/ exists n u, writes (trace_of m) = welcome_reply RPL_WELCOME fd n u)
  /\ forall a, result_of m = Ok a ->
       registration_inv fd (proj a)
       /\ (welcomeMessageSent c = true -> welcomeMessageSent (proj a) = true)
       /\ (welcomeMessageSent (proj a) = false -> writes (trace_of m) = [])
       /\ (welcomeMessageSent c = false -> welcomeMessageSent (proj a) = true ->
           exists n u, writes (trace_of m) = welcome_reply RPL_WELCOME fd n u).

(** The frames of one read that delivers whole messages: at least one
    frame, the first of them not empty, no CR LF inside a frame, and no
    more than half a buffer of bytes. *)
Definition whole_messages (frames : list (list ascii)) : Prop :=
  frames <> [] /\ head frames <> Some []
  /\ Forall (fun frame => crlf_free frame = true) frames
  /\ 2 * len (join_crlf frames) <= buffer_size.

(** * Properties *)

(** ** The monad *)

Lemma bind_Ok_inv {A B} (m : M A) (k : A -> M B) t b :
  bind m k = (t, Ok b) ->
  exists t1 a t2, m = (t1, Ok a) /\ k a = (t2, Ok b) /\ t = t1 ++ t2.
Proof.
  destruct m as [t1 [a| |z]]; simpl; try discriminate.
  destruct (k a) as [t2 r] eqn:E. intros [= <- ->]. eauto 6.
Qed.

Lemma bind_Ok {A B} (m : M A) (k : A -> M B) t1 a :
  m = (t1, Ok a) -> bind m k = (t1 ++ fst (k a), snd (k a)).
Proof. intros ->. simpl. now destruct (k a). Qed.

Lemma bind_Fault {A B} (m : M A) (k : A -> M B) t1 :
  m = (t1, Fault) -> bind m k = (t1, Fault).
Proof. now intros ->. Qed.

(** ** Arrays read through [Z] indices *)

Lemma len_app {A} (l1 l2 : list A) : len (l1 ++ l2) = len l1 + len l2.
Proof. unfold len. rewrite length_app. lia. Qed.

Lemma len_cons {A} (x : A) (l : list A) : len (x :: l) = len l + 1.
Proof. unfold len. simpl. lia. Qed.

Lemma len_nonneg {A} (l : list A) : 0 <= len l.
Proof. unfold len. lia. Qed.

Lemma char_at_app (A : list ascii) (x : ascii) (B : list ascii) :
  char_at (A ++ x :: B) (len A) = x.
Proof.
  unfold char_at, len. rewrite Nat2Z.id.
  rewrite app_nth2 by lia. now rewrite Nat.sub_diag.
Qed.

Lemma ascii_eqb_refl (a : ascii) : Ascii.eqb a a = true.
Proof. apply Ascii.eqb_refl. Qed.

Lemma ascii_eqb_neq (a b : ascii) : a <> b -> Ascii.eqb a b = false.
Proof. intros H. now apply Ascii.eqb_neq. Qed.

(** ** [parse_message]: one round of the second pass *)


Lemma collect_args_step fuel s n m j off :
  collect_args (S fuel) s n m j off =
  if j <? numArgs m then
    let st := fst (scan_token (Z.to_nat (n - off)) s n off off) in
    let o := bump n (snd (scan_token (Z.to_nat (n - off)) s n off off)) in
    match copy_arg s st (o - st) with
    | Ok arg =>
      let r := collect_args fuel s n (store m j arg) (j + 1) o in
      (Chilog DEBUG "%i - %i: %i" [LInt st; LInt o; LInt (o - st)]
         :: Chilog DEBUG "Arg: %s" [LStr (cstr arg)] :: fst r, snd r)
    | Fault => ([Chilog DEBUG "%i - %i: %i" [LInt st; LInt o; LInt (o - st)]], Fault)
    | Exited z =>
      ([Chilog DEBUG "%i - %i: %i" [LInt st; LInt o; LInt (o - st)]], Exited z)
    end
  else ([], Ok m).
Proof.
  simpl. destruct (j <? numArgs m); [|reflexivity].
  destruct (scan_token _ s n off off) as [st o]. simpl. unfold bump, store.
  destruct (copy_arg s st _) as [arg| |z]; simpl; try reflexivity.
  now destruct (collect_args fuel s n _ (j + 1) _).
Qed.

Lemma copy_arg_never_exits s st l z : copy_arg s st l <> Exited z.
Proof.
  unfold copy_arg, memcpy.
  now destruct (_ || _).
Qed.

Lemma copy_arg_Ok s st l :
  0 <= l - 1 -> l - 1 <= len (drop (Z.to_nat st) s) ->
  copy_arg s st l = Ok (take (Z.to_nat (l - 1)) (drop (Z.to_nat st) s)).
Proof.
  intros H1 H2. unfold copy_arg, memcpy, malloc.
  assert (Hm : len (replicate (Z.to_nat l) NUL) = l).
  { unfold len. rewrite length_replicate. lia. }
  rewrite Hm.
  destruct (l - 1 <? 0) eqn:E1; [lia|].
  destruct (len (drop (Z.to_nat st) s) <? l - 1) eqn:E2; [lia|].
  destruct (l <? l - 1) eqn:E3; [lia|]. simpl.
  f_equal. rewrite take_app_le.
  - rewrite take_take. f_equal. lia.
  - rewrite length_take. unfold len in H2. lia.
Qed.

Lemma copy_arg_Fault s st l : l - 1 < 0 -> copy_arg s st l = Fault.
Proof.
  intros H. unfold copy_arg, memcpy.
  destruct (l - 1 <? 0) eqn:E; [reflexivity|lia].
Qed.


Lemma collect_args_shape fuel s n : forall m j off t m',
  collect_args fuel s n m j off = (t, Ok m') ->
  numArgs m' = numArgs m /\ length (args m') = length (args m).
Proof.
  induction fuel as [|fuel IH]; intros m j off t m' H.
  - injection H as <- <-. auto.
  - rewrite collect_args_step in H.
    destruct (j <? numArgs m); [|injection H as <- <-; auto].
    cbv zeta in H. destruct (copy_arg _ _ _) as [arg| |z]; try discriminate.
    destruct (collect_args fuel s n _ _ _) as [t' r'] eqn:E. simpl in H.
    injection H as <- ->. apply IH in E. destruct E as [E1 E2].
    rewrite E1, E2. unfold store, set_command, set_arg.
    destruct (j =? -1); simpl; [auto|]. now rewrite length_insert.
Qed.

Lemma store_filled m j arg :
  0 <= j -> j < len (args m) -> filled m j -> filled (store m j arg) (j + 1).
Proof.
  intros Hj Hlen Hf i Hi. unfold store.
  destruct (j =? -1) eqn:E; [lia|]. simpl.
  destruct (Z.eq_dec i j) as [->|Hne].
  - exists arg. apply list_lookup_insert_eq. unfold len in Hlen. lia.
  - rewrite list_lookup_insert_ne by lia. apply Hf. lia.
Qed.

Lemma collect_args_filled fuel s n : forall m j off t m',
  collect_args fuel s n m j off = (t, Ok m') ->
  0 <= j -> numArgs m = len (args m) -> numArgs m - j <= Z.of_nat fuel ->
  filled m j -> filled m' (numArgs m).
Proof.
  induction fuel as [|fuel IH]; intros m j off t m' H Hj Hn Hfuel Hf.
  - injection H as <- <-. intros i Hi. apply Hf. lia.
  - rewrite collect_args_step in H.
    destruct (j <? numArgs m) eqn:Ej.
    2:{ injection H as <- <-. intros i Hi. apply Hf. lia. }
    cbv zeta in H. destruct (copy_arg _ _ _) as [arg| |z]; try discriminate.
    destruct (collect_args fuel s n _ _ _) as [t' r'] eqn:E. simpl in H.
    injection H as <- ->.
    assert (Hs : numArgs (store m j arg) = numArgs m).
    { unfold store. now destruct (j =? -1). }
    assert (Hl : len (args (store m j arg)) = len (args m)).
    { unfold store, len. destruct (j =? -1); simpl; [easy|]. now rewrite length_insert. }
    rewrite <- Hs. eapply IH; eauto; try lia.
    apply store_filled; auto. lia.
Qed.

Lemma collect_args_command fuel s n : forall m j off t m',
  collect_args fuel s n m j off = (t, Ok m') -> 0 <= j -> command m' = command m.
Proof.
  induction fuel as [|fuel IH]; intros m j off t m' H Hj.
  - now injection H as <- <-.
  - rewrite collect_args_step in H.
    destruct (j <? numArgs m); [|now injection H as <- <-].
    cbv zeta in H. destruct (copy_arg _ _ _) as [arg| |z]; try discriminate.
    destruct (collect_args fuel s n _ _ _) as [t' r'] eqn:E. simpl in H.
    injection H as <- ->. apply IH in E; [|lia]. rewrite E.
    unfold store. destruct (j =? -1) eqn:E1; [lia|reflexivity].
Qed.

Lemma count_args_ge fuel s n : forall off acc,
  acc <= count_args fuel s n off acc.
Proof.
  induction fuel as [|fuel IH]; intros off acc; simpl; [lia|].
  destruct (off <? n); [|lia].
  destruct (Ascii.eqb _ SP).
  - specialize (IH (off + 1) (acc + 1)). lia.
  - destruct (Ascii.eqb _ COLON); [lia|apply IH].
Qed.

Lemma parse_message_shape s n t m :
  parse_message s n = (t, Ok m) ->
  0 <= numArgs m /\ len (args m) = numArgs m /\ filled m (numArgs m)
  /\ exists cmd, command m = Some cmd.
Proof.
  unfold parse_message.
  set (k := count_args (Z.to_nat n) s n 0 0).
  assert (Hk : 0 <= k) by apply count_args_ge.
  replace (Z.to_nat (k + 1)) with (S (Z.to_nat k)) by lia.
  rewrite collect_args_step. cbn [numArgs].
  destruct (-1 <? k) eqn:E; [|lia]. cbv zeta.
  destruct (copy_arg _ _ _) as [arg| |z]; try discriminate.
  destruct (collect_args _ s n _ _ _) as [t' r'] eqn:E'. simpl.
  intros [= <- ->].
  pose proof (collect_args_shape _ _ _ _ _ _ _ _ E') as [H1 H2].
  pose proof (collect_args_command _ _ _ _ _ _ _ _ E' ltac:(lia)) as H3.
  assert (H4 : filled m k).
  { eapply (collect_args_filled _ _ _ _ _ _ _ _ E'); simpl; try lia.
    - unfold len. rewrite length_replicate. lia.
    - intros i Hi. lia. }
  simpl in H1, H2, H3. rewrite length_replicate in H2.
  rewrite H1. repeat split; try assumption.
  - unfold len. lia.
  - eauto.
Qed.

Lemma result_of_eq {A} (p : M A) r : result_of p = r -> p = (trace_of p, r).
Proof. destruct p. simpl. now intros ->. Qed.

Lemma parse_message_result_shape s n m :
  result_of (parse_message s n) = Ok m ->
  0 <= numArgs m /\ len (args m) = numArgs m /\ filled m (numArgs m)
  /\ exists cmd, command m = Some cmd.
Proof. intros H. apply result_of_eq in H. eapply parse_message_shape; eauto. Qed.

(** ** [get_arg] *)


Lemma get_arg_in_range m i arg :
  0 <= i -> args m !! Z.to_nat i = Some arg ->
  get_arg m i = Ok (arg, set_arg m i None).
Proof.
  intros Hi H. unfold get_arg. destruct (i <? 0) eqn:E; [lia|]. now rewrite H.
Qed.

Lemma get_arg_out_of_range m i :
  len (args m) <= i -> get_arg m i = Fault.
Proof.
  intros H. unfold get_arg. destruct (i <? 0); [reflexivity|].
  rewrite (lookup_ge_None_2 (args m)); [reflexivity|]. unfold len in H. lia.
Qed.

Lemma get_arg_keeps_null m j r m' i :
  get_arg m j = Ok (r, m') -> 0 <= i ->
  args m !! Z.to_nat i = Some None -> args m' !! Z.to_nat i = Some None.
Proof.
  unfold get_arg. destruct (j <? 0) eqn:Ej; [discriminate|].
  destruct (args m !! Z.to_nat j) as [a|] eqn:E; [|discriminate].
  intros [= <- <-] Hi H. simpl.
  destruct (Z.eq_dec i j) as [->|Hne].
  - apply list_lookup_insert_eq. eapply lookup_lt_Some; eauto.
  - rewrite list_lookup_insert_ne by lia. assumption.
Qed.

Lemma get_args_keep_null js : forall m m' i,
  get_args m js = Ok m' -> 0 <= i ->
  args m !! Z.to_nat i = Some None -> args m' !! Z.to_nat i = Some None.
Proof.
  induction js as [|j js IH]; intros m m' i H Hi Hn; simpl in H.
  - now injection H as <-.
  - destruct (get_arg m j) as [[r m1]| |z] eqn:E; try discriminate.
    eapply IH; eauto. eapply get_arg_keeps_null; eauto.
Qed.

(** [free_message] after [get_arg] does not release the string that was
    handed out. *)
Lemma free_message_after_get_arg m i v :
  0 <= i -> args m !! Z.to_nat i = Some (Some v) ->
  free_message (set_arg m i None)
  = omap id (take (Z.to_nat i) (args m)) ++ omap id (drop (S (Z.to_nat i)) (args m)).
Proof.
  intros Hi H. unfold free_message, set_arg. simpl.
  rewrite insert_take_drop by (eapply lookup_lt_Some; eauto).
  now rewrite omap_app.
Qed.

(** ** First pass: the number of arguments *)


Lemma count_args_spec B : forall A fuel acc,
  (length B <= fuel)%nat ->
  count_args fuel (A ++ B) (len (A ++ B)) (len A) acc
  = acc + spaces_before_colon B.
Proof.
  induction B as [|c B IH]; intros A fuel acc Hfuel.
  - rewrite app_nil_r. destruct fuel; simpl; [lia|].
    destruct (len A <? len A) eqn:E; lia.
  - destruct fuel as [|fuel]; [simpl in Hfuel; lia|].
    simpl count_args. rewrite char_at_app.
    destruct (len A <? len (A ++ c :: B)) eqn:E.
    2:{ rewrite len_app, len_cons in E. pose proof (len_nonneg B). lia. }
    assert (Hstep : forall acc',
      count_args fuel (A ++ c :: B) (len (A ++ c :: B)) (len A + 1) acc'
      = acc' + spaces_before_colon B).
    { intros acc'. replace (A ++ c :: B) with ((A ++ [c]) ++ B)
        by (now rewrite <- app_assoc).
      replace (len A + 1) with (len (A ++ [c]))
        by (rewrite len_app; reflexivity).
      apply IH. simpl in Hfuel. lia. }
    simpl spaces_before_colon.
    destruct (Ascii.eqb c SP) eqn:Esp.
    + apply Ascii.eqb_eq in Esp. subst c. cbn [Ascii.eqb SP COLON Bool.eqb].
      rewrite Hstep. lia.
    + destruct (Ascii.eqb c COLON); [lia|]. apply Hstep.
Qed.

Lemma count_args_frame frame :
  count_args (Z.to_nat (len frame)) frame (len frame) 0 0
  = spaces_before_colon frame.
Proof.
  apply (count_args_spec frame [] (Z.to_nat (len frame)) 0).
  unfold len. lia.
Qed.

Lemma parse_message_numArgs frame m :
  result_of (parse_message frame (len frame)) = Ok m ->
  numArgs m = spaces_before_colon frame.
Proof.
  intros H. apply result_of_eq in H. unfold parse_message in H.
  rewrite count_args_frame in H.
  set (k := spaces_before_colon frame) in *.
  destruct (Z.to_nat (k + 1)) as [|fuel] eqn:Ef.
  - simpl in H. injection H as H. now subst m.
  - apply collect_args_shape in H. simpl in H. tauto.
Qed.

(** ** Second pass: tokens *)

Lemma SP_neq_COLON : Ascii.eqb SP COLON = false.
Proof. reflexivity. Qed.

Lemma scan_token_space tok : forall A B fuel start,
  plain tok -> (length tok < fuel)%nat ->
  scan_token fuel (A ++ tok ++ SP :: B) (len (A ++ tok ++ SP :: B)) start (len A)
  = (start, len A + len tok + 1).
Proof.
  induction tok as [|c tok IH]; intros A B fuel start Hp Hfuel.
  - destruct fuel as [|fuel]; [lia|]. simpl app. simpl scan_token.
    rewrite char_at_app, SP_neq_COLON, ascii_eqb_refl.
    destruct (len A <? len (A ++ SP :: B)) eqn:E.
    + f_equal. unfold len. simpl. lia.
    + rewrite len_app, len_cons in E. pose proof (len_nonneg B). lia.
  - destruct fuel as [|fuel]; [simpl in Hfuel; lia|].
    inversion Hp as [|c' tok' [Hc1 Hc2] Hp']; subst.
    simpl app. simpl scan_token. rewrite char_at_app.
    rewrite (ascii_eqb_neq c COLON), (ascii_eqb_neq c SP) by assumption.
    destruct (len A <? len (A ++ c :: tok ++ SP :: B)) eqn:E.
    2:{ rewrite len_app, len_cons in E.
        pose proof (len_nonneg (tok ++ SP :: B)). lia. }
    replace (A ++ c :: tok ++ SP :: B) with ((A ++ [c]) ++ tok ++ SP :: B)
      by (now rewrite <- app_assoc).
    replace (len A + 1) with (len (A ++ [c])) by (rewrite len_app; reflexivity).
    rewrite IH; [|assumption|simpl in Hfuel; lia].
    f_equal. rewrite len_app, len_cons. unfold len. simpl. lia.
Qed.

Lemma scan_token_colon A B fuel start :
  scan_token (S fuel) (A ++ COLON :: B) (len (A ++ COLON :: B)) start (len A)
  = (start + 1, len (A ++ COLON :: B) + 1).
Proof.
  simpl scan_token. rewrite char_at_app, ascii_eqb_refl.
  destruct (len A <? len (A ++ COLON :: B)) eqn:E; [reflexivity|].
  rewrite len_app, len_cons in E. pose proof (len_nonneg B). lia.
Qed.

Lemma scan_token_end tok : forall A fuel start,
  plain tok ->
  scan_token fuel (A ++ tok) (len (A ++ tok)) start (len A)
  = (start, if (length tok <=? fuel)%nat then len (A ++ tok)
            else len A + Z.of_nat fuel).
Proof.
  induction tok as [|c tok IH]; intros A fuel start Hp.
  - rewrite app_nil_r. simpl length. simpl Nat.leb.
    destruct fuel; simpl; [reflexivity|].
    destruct (len A <? len A) eqn:E; [lia|reflexivity].
  - inversion Hp as [|c' tok' [Hc1 Hc2] Hp']; subst.
    destruct fuel as [|fuel]; [simpl; f_equal; lia|].
    simpl scan_token. rewrite char_at_app.
    rewrite (ascii_eqb_neq c COLON), (ascii_eqb_neq c SP) by assumption.
    destruct (len A <? len (A ++ c :: tok)) eqn:E.
    2:{ rewrite len_app, len_cons in E. pose proof (len_nonneg tok). lia. }
    replace (A ++ c :: tok) with ((A ++ [c]) ++ tok) by (now rewrite <- app_assoc).
    replace (len A + 1) with (len (A ++ [c])) by (rewrite len_app; reflexivity).
    rewrite IH by assumption. f_equal. simpl length.
    change (S (length tok) <=? S fuel)%nat with (length tok <=? fuel)%nat.
    destruct (length tok <=? fuel)%nat; [reflexivity|].
    rewrite len_app. unfold len. simpl. lia.
Qed.

Lemma drop_len_app {A} (l1 l2 : list A) : drop (Z.to_nat (len l1)) (l1 ++ l2) = l2.
Proof. unfold len. rewrite Nat2Z.id. apply drop_app_length. Qed.

Lemma take_len_app {A} (l1 l2 : list A) : take (Z.to_nat (len l1)) (l1 ++ l2) = l1.
Proof. unfold len. rewrite Nat2Z.id. apply take_app_length. Qed.

(** Copying the token that starts after [A]. *)
Lemma copy_arg_token A tok B :
  copy_arg (A ++ tok ++ B) (len A) (len tok + 1) = Ok tok.
Proof.
  rewrite copy_arg_Ok.
  - rewrite drop_len_app. replace (len tok + 1 - 1) with (len tok) by lia.
    now rewrite take_len_app.
  - pose proof (len_nonneg tok). lia.
  - rewrite drop_len_app, len_app. pose proof (len_nonneg B). lia.
Qed.

Lemma store_numArgs m j arg : numArgs (store m j arg) = numArgs m.
Proof. unfold store. now destruct (j =? -1). Qed.

Lemma collect_args_done fuel s n m j off :
  numArgs m <= j -> collect_args fuel s n m j off = ([], Ok m).
Proof.
  intros H. destruct fuel; [reflexivity|]. simpl.
  destruct (j <? numArgs m) eqn:E; [lia|reflexivity].
Qed.

Lemma collect_args_trailing mids : forall A m j fuel rest,
  Forall plain mids ->
  numArgs m = j + len mids + 1 -> (length mids < fuel)%nat ->
  let s := A ++ spaced mids ++ COLON :: rest in
  result_of (collect_args fuel s (len s) m j (len A))
  = Ok (store (store_all m j mids) (j + len mids) rest).
Proof.
  induction mids as [|tok mids IH]; intros A m j fuel rest Hp Hn Hfuel s.
  - subst s. simpl spaced. simpl app.
    destruct fuel as [|fuel]; [lia|].
    rewrite collect_args_step.
    change (len []) with 0 in *.
    destruct (j <? numArgs m) eqn:E; [|lia].
    set (s := A ++ COLON :: rest).
    assert (Hs : len s = len A + 1 + len rest).
    { subst s. rewrite len_app, len_cons. lia. }
    pose proof (len_nonneg rest) as Hr.
    replace (Z.to_nat (len s - len A)) with (S (Z.to_nat (len rest))) by lia.
    subst s. rewrite scan_token_colon. cbn [fst snd].
    unfold bump. destruct (_ =? _) eqn:E'; [lia|]. cbv zeta.
    replace (A ++ COLON :: rest) with ((A ++ [COLON]) ++ rest ++ [])
      by (rewrite <- app_assoc, app_nil_r; reflexivity).
    replace (len A + 1) with (len (A ++ [COLON])) by (rewrite len_app; reflexivity).
    replace (len ((A ++ [COLON]) ++ rest ++ []) + 1 - len (A ++ [COLON]))
      with (len rest + 1) by (rewrite !len_app; change (len [COLON]) with 1;
                              change (len (@nil ascii)) with 0; lia).
    rewrite copy_arg_token.
    rewrite collect_args_done by (rewrite store_numArgs; lia).
    simpl. do 2 f_equal. lia.
  - subst s. inversion Hp as [|tok' mids' Htok Hmids]; subst.
    destruct fuel as [|fuel]; [simpl in Hfuel; lia|].
    rewrite collect_args_step.
    assert (Hlm : len (tok :: mids) = len mids + 1) by apply len_cons.
    pose proof (len_nonneg mids) as Hm0.
    destruct (j <? numArgs m) eqn:E; [|lia].
    simpl spaced.
    set (B := spaced mids ++ COLON :: rest).
    replace (A ++ (tok ++ SP :: spaced mids) ++ COLON :: rest)
      with (A ++ tok ++ SP :: B)
      by (subst B; rewrite <- !app_assoc; reflexivity).
    assert (Hs : len (A ++ tok ++ SP :: B) = len A + len tok + 1 + len B).
    { rewrite !len_app, len_cons. lia. }
    assert (HB : 1 <= len B).
    { subst B. rewrite len_app, len_cons.
      pose proof (len_nonneg (spaced mids)). pose proof (len_nonneg rest). lia. }
    pose proof (len_nonneg tok) as Ht0.
    rewrite scan_token_space; [|assumption|unfold len in *; lia].
    cbn [fst snd]. unfold bump. destruct (_ =? _) eqn:E'; [lia|]. cbv zeta.
    replace (len A + len tok + 1 - len A) with (len tok + 1) by lia.
    rewrite (copy_arg_token A tok (SP :: B)).
    cbn [snd].
    replace (A ++ tok ++ SP :: B) with ((A ++ tok ++ [SP]) ++ B)
      by (rewrite <- !app_assoc; reflexivity).
    replace (len A + len tok + 1) with (len (A ++ tok ++ [SP]))
      by (rewrite !len_app; change (len [SP]) with 1; lia).
    subst B.
    unfold result_of in *. cbn [snd]. rewrite IH;
      [|assumption|rewrite store_numArgs; lia|simpl in Hfuel; lia].
    simpl store_all. do 2 f_equal. lia.
Qed.

Lemma store_all_shape toks : forall m j,
  0 <= j ->
  numArgs (store_all m j toks) = numArgs m
  /\ command (store_all m j toks) = command m.
Proof.
  induction toks as [|tok toks IH]; intros m j Hj; simpl; [auto|].
  destruct (IH (store m j tok) (j + 1) ltac:(lia)) as [-> ->].
  unfold store. destruct (j =? -1) eqn:E; [lia|auto].
Qed.

Lemma store_all_args toks : forall m j done k,
  j = len done ->
  args m = done ++ replicate (length toks + k) None ->
  args (store_all m j toks) = done ++ map Some toks ++ replicate k None.
Proof.
  induction toks as [|tok toks IH]; intros m j done k Hj Ha; simpl.
  - assumption.
  - pose proof (len_nonneg done).
    rewrite (IH _ (j + 1) (done ++ [Some tok]) k).
    + now rewrite <- app_assoc.
    + rewrite len_app. subst j. reflexivity.
    + unfold store. destruct (j =? -1) eqn:E; [lia|]. simpl. rewrite Ha.
      subst j. unfold len. rewrite Nat2Z.id.
      rewrite insert_app_r_alt by lia. rewrite Nat.sub_diag.
      simpl. now rewrite <- app_assoc.
Qed.

Lemma spaces_before_colon_plain tok rest' :
  plain tok -> spaces_before_colon (tok ++ rest') = spaces_before_colon rest'.
Proof.
  induction 1 as [|c tok [H1 H2] _ IH]; simpl; [reflexivity|].
  now rewrite (ascii_eqb_neq c COLON), (ascii_eqb_neq c SP).
Qed.

Lemma spaces_before_colon_spaced toks rest :
  Forall plain toks ->
  spaces_before_colon (spaced toks ++ COLON :: rest) = len toks.
Proof.
  induction 1 as [|tok toks Ht _ IH]; simpl; [reflexivity|].
  rewrite <- app_assoc, spaces_before_colon_plain by assumption.
  simpl. rewrite IH, len_cons. lia.
Qed.

(** The parse of a frame [cmd SP mid SP ... mid SP : rest]. *)
Lemma parse_frame_trailing cmd mids rest :
  plain cmd -> Forall plain mids ->
  parse_frame (spaced (cmd :: mids) ++ COLON :: rest)
  = Ok {| command := Some cmd;
          args := map Some (mids ++ [rest]);
          numArgs := len mids + 1 |}.
Proof.
  intros Hc Hm. unfold parse_frame, parse_message.
  set (frame := spaced (cmd :: mids) ++ COLON :: rest).
  rewrite count_args_frame.
  assert (Hk : spaces_before_colon frame = len mids + 1).
  { subst frame. rewrite spaces_before_colon_spaced by (constructor; assumption).
    apply len_cons. }
  rewrite Hk.
  set (m0 := {| command := None;
                args := replicate (Z.to_nat (len mids + 1)) None;
                numArgs := len mids + 1 |}).
  pose proof (collect_args_trailing (cmd :: mids) [] m0 (-1)
                (Z.to_nat (len mids + 1 + 1)) rest) as H.
  cbv zeta in H.
  change ([] ++ spaced (cmd :: mids) ++ COLON :: rest) with frame in H.
  change (len []) with 0 in H.
  rewrite H; clear H.
  - rewrite len_cons. replace (-1 + (len mids + 1)) with (len mids) by lia.
    simpl store_all. change (-1 + 1) with 0.
    change (store m0 (-1) cmd) with (set_command m0 cmd).
    pose proof (len_nonneg mids) as Hl.
    assert (Ha : args (store_all (set_command m0 cmd) 0 mids)
                 = [] ++ map Some mids ++ replicate 1 None).
    { apply store_all_args; [reflexivity|]. simpl.
      f_equal. unfold len. lia. }
    destruct (store_all_shape mids (set_command m0 cmd) 0 ltac:(lia)) as [Hn Hcmd].
    unfold store. destruct (len mids =? -1) eqn:E; [lia|].
    unfold set_arg. rewrite Hn, Hcmd, Ha. simpl.
    do 2 f_equal.
    replace (Z.to_nat (len mids)) with (length (map Some mids) + 0)%nat
      by (rewrite length_map; unfold len; lia).
    rewrite insert_app_r. simpl. now rewrite map_app.
  - constructor; assumption.
  - simpl. rewrite len_cons. lia.
  - unfold len. simpl. lia.
Qed.

Example parse_user_frame : parse_frame user_frame = Ok user_msg.
Proof. vm_compute. reflexivity. Qed.

Lemma has_trailing_spaces frame :
  has_trailing frame = true -> 1 <= spaces_before_colon frame.
Proof.
  induction frame as [|a frame IH]; simpl; [discriminate|].
  destruct (Ascii.eqb a COLON); [discriminate|].
  destruct (Ascii.eqb a SP).
  - intros _. clear IH. induction frame as [|b frame IH]; simpl; [lia|].
    destruct (Ascii.eqb b COLON); [lia|].
    destruct (Ascii.eqb b SP); lia.
  - assumption.
Qed.

Lemma len_removelast {A} (l : list A) : l <> [] -> len (removelast l) = len l - 1.
Proof.
  intros H. destruct (exists_last H) as [l' [x ->]].
  rewrite removelast_last, len_app. change (len [x]) with 1. lia.
Qed.

Ltac plain_tokens :=
  unfold plain, bytes; simpl;
  repeat first [ split | (intro; discriminate) | constructor ].

(** ** [process_message] *)

Lemma writes_app t1 t2 : writes (t1 ++ t2) = writes t1 ++ writes t2.
Proof.
  induction t1 as [|[lvl fmt a|fd d] t1 IH]; simpl; [reflexivity|assumption|].
  now rewrite IH.
Qed.

Lemma collect_args_no_writes fuel s n : forall m j off,
  writes (trace_of (collect_args fuel s n m j off)) = [].
Proof.
  induction fuel as [|fuel IH]; intros m j off; [reflexivity|].
  rewrite collect_args_step. destruct (j <? numArgs m); [|reflexivity].
  cbv zeta. destruct (copy_arg _ _ _); try reflexivity.
  unfold trace_of in *. simpl. apply IH.
Qed.

Lemma parse_message_no_writes s n : writes (trace_of (parse_message s n)) = [].
Proof. apply collect_args_no_writes. Qed.

Lemma collect_args_never_exits fuel s n z : forall m j off,
  result_of (collect_args fuel s n m j off) <> Exited z.
Proof.
  induction fuel as [|fuel IH]; intros m j off; [discriminate|].
  rewrite collect_args_step. destruct (j <? numArgs m); [|discriminate].
  cbv zeta. destruct (copy_arg _ _ _) eqn:E; try discriminate.
  - unfold result_of in *. simpl. apply IH.
  - now apply copy_arg_never_exits in E.
Qed.

Lemma parse_message_never_exits s n z : result_of (parse_message s n) <> Exited z.
Proof. apply collect_args_never_exits. Qed.

Lemma send_welcome_message_Some RPL c n u :
  nick c = Some n -> username c = Some u ->
  send_welcome_message RPL c
  = (map (fun w => SockWrite (fst w) (snd w)) (welcome_reply RPL (sockfd c) n u),
     Ok (set_welcomeMessageSent c true)).
Proof.
  intros Hn Hu. unfold send_welcome_message, send_data. rewrite Hn, Hu.
  reflexivity.
Qed.

Lemma writes_map_SockWrite ws :
  writes (map (fun w => SockWrite (fst w) (snd w)) ws) = ws.
Proof. induction ws as [|[fd d] ws IH]; simpl; [reflexivity|now rewrite IH]. Qed.

(** What the closing test of [process_message] does. *)
Lemma maybe_welcome_spec RPL c :
  match nick c, username c, welcomeMessageSent c with
  | Some n, Some u, false =>
    maybe_welcome RPL c
    = (map (fun w => SockWrite (fst w) (snd w)) (welcome_reply RPL (sockfd c) n u),
       Ok (set_welcomeMessageSent c true))
  | _, _, _ => maybe_welcome RPL c = ([], Ok c)
  end.
Proof.
  unfold maybe_welcome.
  destruct (nick c) as [n|] eqn:Hn; [|reflexivity].
  destruct (username c) as [u|] eqn:Hu; [|reflexivity].
  destruct (welcomeMessageSent c); [reflexivity|].
  simpl. now apply send_welcome_message_Some.
Qed.

Lemma process_message_parse_fault RPL s n c t :
  parse_message s n = (t, Fault) -> process_message RPL s n c = (t, Fault).
Proof. intros H. unfold process_message. now rewrite H. Qed.

Lemma strcmp_USER_not_NICK cmd :
  strcmp_eq cmd (bytes "USER") = true -> strcmp_eq cmd (bytes "NICK") = false.
Proof.
  unfold strcmp_eq. intros H. apply bool_decide_eq_true in H.
  apply bool_decide_eq_false. rewrite H. discriminate.
Qed.

Lemma process_message_NICK RPL s n c t m cmd :
  parse_message s n = (t, Ok m) -> command m = Some cmd ->
  strcmp_eq cmd (bytes "NICK") = true ->
  process_message RPL s n c =
  match get_arg m 0 with
  | Ok (a, _) =>
    (t ++ Chilog INFO "Processing NICK" []
       :: Chilog INFO "Parsed nick: %s" [log_str a]
       :: trace_of (maybe_welcome RPL (set_nick c a)),
     result_of (maybe_welcome RPL (set_nick c a)))
  | Fault => (t ++ [Chilog INFO "Processing NICK" []], Fault)
  | Exited z => (t ++ [Chilog INFO "Processing NICK" []], Exited z)
  end.
Proof.
  intros Hp Hc Hs. unfold process_message. rewrite Hp. cbn [bind].
  rewrite Hc. cbn [lift bind]. rewrite Hs.
  destruct (get_arg m 0) as [[a m']| |z]; try reflexivity.
  cbn [lift bind chilog ret app]. fold (maybe_welcome RPL (set_nick c a)).
  now destruct (maybe_welcome RPL (set_nick c a)).
Qed.

Lemma process_message_USER RPL s n c t m cmd :
  parse_message s n = (t, Ok m) -> command m = Some cmd ->
  strcmp_eq cmd (bytes "USER") = true ->
  process_message RPL s n c =
  match get_arg m 0 with
  | Ok (a0, m1) =>
    match get_arg m1 3 with
    | Ok (a3, _) =>
      let c' := set_fullName (set_username c a0) a3 in
      (t ++ Chilog INFO "Processing USER" []
         :: Chilog INFO "Parsed username: %s" [log_str a0]
         :: Chilog INFO "Parsed fullName: %s" [log_str a3]
         :: trace_of (maybe_welcome RPL c'),
       result_of (maybe_welcome RPL c'))
    | Fault => (t ++ [Chilog INFO "Processing USER" []], Fault)
    | Exited z => (t ++ [Chilog INFO "Processing USER" []], Exited z)
    end
  | Fault => (t ++ [Chilog INFO "Processing USER" []], Fault)
  | Exited z => (t ++ [Chilog INFO "Processing USER" []], Exited z)
  end.
Proof.
  intros Hp Hc Hs. unfold process_message. rewrite Hp. cbn [bind].
  rewrite Hc. cbn [lift bind]. rewrite (strcmp_USER_not_NICK _ Hs), Hs.
  destruct (get_arg m 0) as [[a0 m1]| |z]; try reflexivity.
  cbn [lift bind chilog ret app].
  destruct (get_arg m1 3) as [[a3 m2]| |z]; try reflexivity.
  cbn [lift bind chilog ret app].
  fold (maybe_welcome RPL (set_fullName (set_username c a0) a3)).
  now destruct (maybe_welcome RPL (set_fullName (set_username c a0) a3)).
Qed.

Lemma process_message_other RPL s n c t m cmd :
  parse_message s n = (t, Ok m) -> command m = Some cmd ->
  strcmp_eq cmd (bytes "NICK") = false ->
  strcmp_eq cmd (bytes "USER") = false ->
  process_message RPL s n c =
  (t ++ Chilog ERROR "Unexpected command %s" [LStr (cstr cmd)]
     :: trace_of (maybe_welcome RPL c),
   result_of (maybe_welcome RPL c)).
Proof.
  intros Hp Hc Hs1 Hs2. unfold process_message. rewrite Hp. cbn [bind].
  rewrite Hc. cbn [lift bind]. rewrite Hs1, Hs2.
  cbn [lift bind chilog ret app]. fold (maybe_welcome RPL c).
  now destruct (maybe_welcome RPL c).
Qed.

(** The closing test after a handler that wrote nothing to the socket and
    left the flag alone. *)
Lemma welcome_step_after RPL c c1 t0 :
  writes t0 = [] -> sockfd c1 = sockfd c ->
  welcomeMessageSent c1 = welcomeMessageSent c ->
  (is_null (nick c) = false -> is_null (nick c1) = false) ->
  (is_null (username c) = false -> is_null (username c1) = false) ->
  welcome_step RPL c
    (t0 ++ trace_of (maybe_welcome RPL c1), result_of (maybe_welcome RPL c1)).
Proof.
  intros Hw Hfd Hs Hn Hu. unfold welcome_step.
  pose proof (maybe_welcome_spec RPL c1) as H.
  unfold has_identity, result_of, trace_of. cbn [fst snd].
  rewrite writes_app, Hw. cbn [app].
  destruct (nick c1) as [n1|] eqn:En; destruct (username c1) as [u1|] eqn:Eu;
    try (rewrite H; cbn [fst snd nick username is_null negb andb
                         welcomeMessageSent sockfd writes];
         rewrite ?En, ?Eu; cbn [is_null negb andb];
         repeat split; auto; fail).
  destruct (welcomeMessageSent c1) eqn:Es; rewrite H;
    cbn [fst snd set_welcomeMessageSent nick username is_null negb andb
         welcomeMessageSent sockfd writes];
    rewrite ?En, ?Eu, <- ?Hs; cbn [is_null negb andb];
    repeat split; auto.
  exists n1, u1. rewrite writes_map_SockWrite, Hfd. auto.
Qed.

Lemma get_arg_parsed m i a m' :
  filled m (numArgs m) -> len (args m) = numArgs m -> 0 <= i ->
  get_arg m i = Ok (a, m') ->
  exists v, a = Some v /\ m' = set_arg m i None /\ i < numArgs m.
Proof.
  intros Hf Hl Hi H. unfold get_arg in H.
  destruct (i <? 0) eqn:E; [discriminate|].
  destruct (args m !! Z.to_nat i) as [x|] eqn:Ex; [|discriminate].
  injection H as <- <-.
  assert (Hlt : i < numArgs m).
  { apply lookup_lt_Some in Ex. unfold len in Hl. lia. }
  destruct (Hf i ltac:(lia)) as [v Hv]. rewrite Hv in Ex.
  injection Ex as <-. eauto.
Qed.

Lemma parse_message_trace_no_writes s n t r :
  parse_message s n = (t, r) -> writes t = [].
Proof.
  intros H. pose proof (parse_message_no_writes s n) as Hw.
  now rewrite H in Hw.
Qed.

(** Every [process_message] is a [welcome_step]. *)
Lemma process_message_welcome_step RPL s n c :
  welcome_step RPL c (process_message RPL s n c).
Proof.
  destruct (parse_message s n) as [t [m| |z]] eqn:Hp.
  - pose proof (parse_message_trace_no_writes _ _ _ _ Hp) as Hw.
    destruct (parse_message_shape _ _ _ _ Hp) as (H0 & Hl & Hf & [cmd Hc]).
    destruct (strcmp_eq cmd (bytes "NICK")) eqn:E1;
      [|destruct (strcmp_eq cmd (bytes "USER")) eqn:E2].
    + rewrite (process_message_NICK _ _ _ _ _ _ _ Hp Hc E1).
      destruct (get_arg m 0) as [[a m']| |z] eqn:G.
      * destruct (get_arg_parsed m 0 _ _ Hf Hl ltac:(lia) G) as (v & -> & _).
        change (?a ++ ?x :: ?y :: ?l) with (a ++ [x; y] ++ l).
        rewrite app_assoc. apply welcome_step_after; try reflexivity.
        -- rewrite writes_app, Hw. reflexivity.
        -- auto.
      * unfold welcome_step. simpl. rewrite writes_app, Hw. reflexivity.
      * unfold welcome_step. simpl. rewrite writes_app, Hw. reflexivity.
    + rewrite (process_message_USER _ _ _ _ _ _ _ Hp Hc E2).
      destruct (get_arg m 0) as [[a0 m1]| |z] eqn:G0;
        [|unfold welcome_step; simpl; rewrite writes_app, Hw; reflexivity ..].
      destruct (get_arg_parsed m 0 _ _ Hf Hl ltac:(lia) G0) as (v0 & -> & -> & _).
      destruct (get_arg (set_arg m 0 None) 3) as [[a3 m2]| |z] eqn:G3;
        [|unfold welcome_step; simpl; rewrite writes_app, Hw; reflexivity ..].
      cbv zeta.
      change (?a ++ ?x :: ?y :: ?z :: ?l) with (a ++ [x; y; z] ++ l).
      rewrite app_assoc. apply welcome_step_after; try reflexivity.
      * rewrite writes_app, Hw. reflexivity.
      * auto.
    + rewrite (process_message_other _ _ _ _ _ _ _ Hp Hc E1 E2).
      change (?a ++ ?x :: ?l) with (a ++ [x] ++ l).
      rewrite app_assoc. apply welcome_step_after; try reflexivity; auto.
      rewrite writes_app, Hw. reflexivity.
  - rewrite (process_message_parse_fault _ _ _ _ _ Hp).
    unfold welcome_step. simpl. eapply parse_message_trace_no_writes; eauto.
  - exfalso. apply (parse_message_never_exits s n z). now rewrite Hp.
Qed.

Lemma has_identity_mono c c' :
  (is_null (nick c) = false -> is_null (nick c') = false) ->
  (is_null (username c) = false -> is_null (username c') = false) ->
  has_identity c = true -> has_identity c' = true.
Proof.
  unfold has_identity. intros Hn Hu H.
  apply andb_true_iff in H as [H1 H2].
  apply negb_true_iff in H1, H2. rewrite (Hn H1), (Hu H2). reflexivity.
Qed.

(** From a client whose welcome has been sent, nothing is written to the
    socket any more, however the run ends. *)
Lemma registered_stays_silent RPL frames : forall fd c,
  registration_inv fd c -> welcomeMessageSent c = true ->
  writes (trace_of (process_messages RPL frames c)) = [].
Proof.
  induction frames as [|f frames IH]; intros fd c [Hfd Hinv] Hs; [reflexivity|].
  simpl. pose proof (process_message_welcome_step RPL f (len f) c) as Hstep.
  unfold welcome_step in Hstep.
  destruct (process_message RPL f (len f) c) as [t [c'| |z]] eqn:E;
    unfold result_of, trace_of in *; cbn [fst snd bind] in *; try assumption.
  rewrite Hs in Hstep. rewrite andb_false_r in Hstep.
  destruct Hstep as (Hfd' & Hn & Hu & Hs' & Hw).
  specialize (IH fd c').
  destruct (process_messages RPL frames c') as [t' r'].
  cbn [fst] in *. rewrite writes_app, Hw. cbn [app].
  apply IH; [|congruence].
  split; [congruence|]. rewrite Hs'. symmetry.
  apply (has_identity_mono c c'); auto. congruence.
Qed.

(** A run from a client that satisfies the invariant. *)
Lemma process_messages_welcome RPL frames : forall fd c,
  registration_inv fd c -> welcomeMessageSent c = false ->
  let run := process_messages RPL frames c in
  (writes (trace_of run) = []
   \/ exists n u, writes (trace_of run) = welcome_reply RPL fd n u)
  /\ forall c', result_of run = Ok c' ->
       registration_inv fd c'
       /\ if has_identity c' then
            exists n u, writes (trace_of run) = welcome_reply RPL fd n u
          else writes (trace_of run) = [].
Proof.
  induction frames as [|f frames IH]; intros fd c [Hfd Hinv] Hs run; subst run.
  - simpl. split; [auto|]. intros c' [= <-]. split; [split; assumption|].
    rewrite <- Hinv, Hs. reflexivity.
  - simpl. pose proof (process_message_welcome_step RPL f (len f) c) as Hstep.
    unfold welcome_step in Hstep.
    destruct (process_message RPL f (len f) c) as [t [c1| |z]] eqn:E;
      unfold result_of, trace_of in *; cbn [fst snd bind] in *;
      [|split; [auto|discriminate] ..].
    rewrite Hs in Hstep. cbn [negb] in Hstep. rewrite andb_true_r in Hstep.
    destruct Hstep as (Hfd' & Hn & Hu & Hstep).
    destruct (has_identity c1) eqn:Hid.
    + destruct Hstep as (Hs1 & n & u & _ & _ & Hw).
      assert (Hinv1 : registration_inv fd c1).
      { split; congruence. }
      pose proof (registered_stays_silent RPL frames fd c1 Hinv1 Hs1) as Hsil.
      assert (Hmono : forall c', result_of (process_messages RPL frames c1) = Ok c' ->
                registration_inv fd c' /\ has_identity c' = true).
      { clear -Hinv1 Hs1 Hid. revert c1 Hinv1 Hs1 Hid.
        induction frames as [|g frames IHf]; intros c1 Hinv1 Hs1 Hid c'; simpl.
        - intros [= <-]. auto.
        - pose proof (process_message_welcome_step RPL g (len g) c1) as Hstep.
          unfold welcome_step in Hstep.
          destruct (process_message RPL g (len g) c1) as [t [c2| |z]] eqn:E;
            unfold result_of, trace_of in *; cbn [fst snd bind] in *;
            try discriminate.
          rewrite Hs1, andb_false_r in Hstep.
          destruct Hstep as (Hfd' & Hn & Hu & Hs' & Hw).
          destruct Hinv1 as [Hfd1 Hi1].
          assert (Hid2 : has_identity c2 = true)
            by (apply (has_identity_mono c1 c2); auto).
          specialize (IHf c2 ltac:(split; congruence) ltac:(congruence) Hid2 c').
          destruct (process_messages RPL frames c2) as [t' r']. cbn [snd] in *.
          exact IHf. }
      unfold trace_of, result_of in *.
      destruct (process_messages RPL frames c1) as [t' r']. cbn [fst snd] in *.
      rewrite writes_app, Hw, Hsil, app_nil_r, Hfd.
      split; [eauto|]. intros c' Hc'. destruct (Hmono c' Hc') as [Hi Hid'].
      split; [assumption|]. rewrite Hid'. eauto.
    + destruct Hstep as (Hs1 & Hw).
      assert (Hinv1 : registration_inv fd c1).
      { split; congruence. }
      specialize (IH fd c1 Hinv1 ltac:(congruence)). cbv zeta in IH.
      unfold trace_of, result_of in *.
      destruct (process_messages RPL frames c1) as [t' r']. cbn [fst snd] in *.
      rewrite writes_app, Hw. cbn [app]. exact IH.
Qed.

Lemma process_messages_app RPL pre : forall post c,
  process_messages RPL (pre ++ post) c
  = bind (process_messages RPL pre c) (process_messages RPL post).
Proof.
  induction pre as [|f pre IH]; intros post c; simpl.
  - now destruct (process_messages RPL post c).
  - destruct (process_message RPL f (len f) c) as [t [c1| |z]]; simpl;
      try reflexivity.
    rewrite IH. destruct (process_messages RPL pre c1) as [t1 [c2| |z]]; simpl;
      try reflexivity.
    destruct (process_messages RPL post c2) as [t2 r2]. now rewrite app_assoc.
Qed.

Lemma new_client_inv fd : registration_inv fd (new_client fd).
Proof. split; reflexivity. Qed.

Lemma is_command_true m name :
  is_command m name = true ->
  exists cmd, command m = Some cmd /\ strcmp_eq cmd (bytes name) = true.
Proof.
  unfold is_command. destruct (command m) as [cmd|]; [eauto|discriminate].
Qed.

(** ** Frames that end in a space *)

Lemma collect_args_trailing_space toks : forall A m j fuel,
  toks <> [] -> Forall plain toks ->
  j + len toks < numArgs m -> (length toks < fuel)%nat ->
  let s := A ++ spaced toks in
  result_of (collect_args fuel s (len s) m j (len A)) = Fault.
Proof.
  induction toks as [|tok toks IH]; intros A m j fuel Hne Hp Hn Hfuel s;
    [congruence|].
  subst s. inversion Hp as [|tok' toks' Htok Htoks]; subst.
  destruct fuel as [|fuel]; [simpl in Hfuel; lia|].
  assert (Hlm : len (tok :: toks) = len toks + 1) by apply len_cons.
  pose proof (len_nonneg toks) as Hm0. pose proof (len_nonneg tok) as Ht0.
  rewrite collect_args_step.
  destruct (j <? numArgs m) eqn:E; [|lia].
  simpl spaced. set (B := spaced toks).
  assert (Hs : len (A ++ tok ++ SP :: B) = len A + len tok + 1 + len B).
  { rewrite !len_app, len_cons. lia. }
  pose proof (len_nonneg B) as HB.
  rewrite scan_token_space; [|assumption|unfold len in *; lia].
  cbn [fst snd]. unfold bump, result_of.
  destruct toks as [|tok2 toks].
  - (* the last token: its space ends the frame *)
    subst B. simpl spaced in *. change (len []) with 0 in *.
    destruct (_ =? _) eqn:E'; [|lia]. cbv zeta.
    replace (A ++ tok ++ [SP]) with (A ++ (tok ++ [SP]) ++ []) in *
      by (now rewrite app_nil_r).
    replace (len A + len tok + 1 + 1 - len A) with (len (tok ++ [SP]) + 1)
      by (rewrite len_app; change (len [SP]) with 1; lia).
    rewrite copy_arg_token. cbn [snd].
    destruct fuel as [|fuel]; [simpl in Hfuel; lia|].
    rewrite collect_args_step, store_numArgs.
    destruct (j + 1 <? numArgs m) eqn:E2; [|lia].
    set (n := len (A ++ (tok ++ [SP]) ++ [])) in *.
    replace (len A + len tok + 1 + 1) with (n + 1) by lia.
    replace (Z.to_nat (n - (n + 1))) with 0%nat by lia.
    simpl scan_token. cbn [fst snd]. unfold bump.
    destruct (n + 1 =? n) eqn:E3; [lia|]. cbv zeta.
    rewrite copy_arg_Fault by lia. reflexivity.
  - assert (HB1 : 1 <= len B).
    { subst B. simpl spaced. rewrite len_app, len_cons.
      pose proof (len_nonneg tok2). pose proof (len_nonneg (spaced toks)). lia. }
    destruct (_ =? _) eqn:E'; [lia|].
    cbv zeta.
    replace (len A + len tok + 1 - len A) with (len tok + 1) by lia.
    rewrite (copy_arg_token A tok (SP :: B)). cbn [snd].
    replace (A ++ tok ++ SP :: B) with ((A ++ tok ++ [SP]) ++ B)
      by (rewrite <- !app_assoc; reflexivity).
    replace (len A + len tok + 1) with (len (A ++ tok ++ [SP]))
      by (rewrite !len_app; change (len [SP]) with 1; lia).
    subst B. unfold result_of in IH. apply IH.
    + discriminate.
    + assumption.
    + rewrite store_numArgs. lia.
    + simpl in *. lia.
Qed.

Lemma spaces_before_colon_spaced_end toks :
  Forall plain toks -> spaces_before_colon (spaced toks) = len toks.
Proof.
  induction 1 as [|tok toks Ht _ IH]; simpl; [reflexivity|].
  rewrite spaces_before_colon_plain by assumption.
  simpl. rewrite IH, len_cons. lia.
Qed.

(** The parse of a frame [cmd SP mid SP ... mid SP] is a memory error. *)
Lemma parse_frame_trailing_space cmd mids :
  plain cmd -> Forall plain mids ->
  parse_frame (spaced (cmd :: mids)) = Fault.
Proof.
  intros Hc Hm. unfold parse_frame, parse_message.
  set (frame := spaced (cmd :: mids)).
  rewrite count_args_frame.
  assert (Hk : spaces_before_colon frame = len mids + 1).
  { subst frame. rewrite spaces_before_colon_spaced_end by (constructor; assumption).
    apply len_cons. }
  rewrite Hk.
  pose proof (collect_args_trailing_space (cmd :: mids) []
     {| command := None;
        args := replicate (Z.to_nat (len mids + 1)) None;
        numArgs := len mids + 1 |} (-1) (Z.to_nat (len mids + 1 + 1))) as H.
  cbv zeta in H. change ([] ++ spaced (cmd :: mids)) with frame in H.
  change (len []) with 0 in H. apply H.
  - discriminate.
  - constructor; assumption.
  - simpl. rewrite len_cons. lia.
  - unfold len. simpl. lia.
Qed.

(** ** The frame splitter and the connection loop *)

Section SplitterFacts.

Context {St : Type}.
Variable handle : list ascii -> Z -> St -> M St.

Lemma char_at_app_next (A : list ascii) (x y : ascii) (B : list ascii) :
  char_at (A ++ x :: y :: B) (len A + 1) = y.
Proof.
  replace (A ++ x :: y :: B) with ((A ++ [x]) ++ y :: B)
    by (now rewrite <- app_assoc).
  replace (len A + 1) with (len (A ++ [x])) by (rewrite len_app; reflexivity).
  apply char_at_app.
Qed.

(** Without a CR LF from the scan position on, nothing is dispatched. *)
Lemma scan_buffer_crlf_free l : forall A fuel mso c,
  crlf_free l = true ->
  scan_buffer handle fuel (A ++ l) (len (A ++ l)) (len A) mso c
  = ([], Ok (mso, c)).
Proof.
  induction l as [|x l IH]; intros A fuel mso c Hfree.
  - rewrite app_nil_r. destruct fuel; simpl; [reflexivity|].
    destruct (len A <? len A - 1) eqn:E; [lia|reflexivity].
  - destruct fuel as [|fuel]; [reflexivity|].
    destruct l as [|y l].
    + simpl. rewrite len_app. change (len [x]) with 1.
      destruct (len A <? len A + 1 - 1) eqn:E; [lia|reflexivity].
    + simpl scan_buffer.
      destruct (len A <? len (A ++ x :: y :: l) - 1); [|reflexivity].
      rewrite char_at_app, char_at_app_next.
      simpl crlf_free in Hfree. apply andb_true_iff in Hfree as [H1 H2].
      apply negb_true_iff in H1. rewrite H1.
      replace (A ++ x :: y :: l) with ((A ++ [x]) ++ y :: l)
        by (now rewrite <- app_assoc).
      replace (len A + 1) with (len (A ++ [x])) by (rewrite len_app; reflexivity).
      apply IH. exact H2.
Qed.

(** The offset the scan returns. *)
Lemma scan_buffer_bounds fuel buffer off : forall i mso c t mso' c',
  scan_buffer handle fuel buffer off i mso c = (t, Ok (mso', c')) ->
  mso <= i + 1 ->
  mso <= mso' /\ (mso' = mso \/ mso' <= off).
Proof.
  induction fuel as [|fuel IH]; intros i mso c t mso' c' H Hi.
  - injection H as _ <- _. lia.
  - simpl in H. destruct (i <? off - 1) eqn:E.
    2:{ injection H as _ <- _. lia. }
    destruct (Ascii.eqb (char_at buffer i) CR
              && Ascii.eqb (char_at buffer (i + 1)) LF).
    + apply bind_Ok_inv in H as (t1 & c1 & t2 & _ & H & _).
      apply IH in H; lia.
    + apply IH in H; lia.
Qed.

Lemma process_buffered_messages_bounds buffer size off c t consumed c' :
  process_buffered_messages_with handle buffer size off c
  = (t, Ok (consumed, c')) ->
  0 <= off -> 0 < size ->
  0 <= consumed <= off /\ (off = size -> 0 < consumed).
Proof.
  unfold process_buffered_messages_with. intros H Hoff Hsize.
  apply bind_Ok_inv in H as (t1 & [mso c1] & t2 & Hscan & H & _).
  apply scan_buffer_bounds in Hscan; [|lia].
  destruct ((mso =? 0) && (off =? size)) eqn:E.
  - apply andb_true_iff in E as [E1 E2]. simpl in H.
    injection H as _ <- _. lia.
  - injection H as _ <- _. apply andb_false_iff in E. lia.
Qed.

Lemma read_app sock more count r data sock' :
  read sock count = Some (r, data, sock') ->
  read (sock ++ more) count = Some (r, data, sock' ++ more).
Proof.
  destruct sock as [|[bs|] sock]; simpl; [discriminate| |].
  - destruct (len bs <=? count); intros [= <- <- <-]; reflexivity.
  - intros [= <- <- <-]. reflexivity.
Qed.

Lemma read_None sock count : read sock count = None -> sock = [].
Proof.
  destruct sock as [|[bs|] sock]; simpl; [reflexivity| |discriminate].
  destruct (len bs <=? count); discriminate.
Qed.

Lemma client_loop_step fuel buffer off c sock :
  client_loop handle (S fuel) buffer off c sock =
  match read sock (buffer_size - off) with
  | None => ([], Ok (buffer, off, c, sock))
  | Some (bytes_read, data, sock') =>
    if bytes_read =? -1 then ([read_failure], Exited 1)
    else
      let buffer1 := take (Z.to_nat off) buffer ++ data
                     ++ drop (Z.to_nat (off + bytes_read)) buffer in
      match process_buffered_messages_with handle buffer1 buffer_size
              (off + bytes_read) c with
      | (t1, Ok (consumed, c1)) =>
        match memcpy buffer1 (drop (Z.to_nat consumed) buffer1) consumed with
        | Ok buffer2 =>
          let r := client_loop handle fuel buffer2
                     (off + bytes_read - consumed) c1 sock' in
          (t1 ++ fst r, snd r)
        | Fault => (t1, Fault)
        | Exited z => (t1, Exited z)
        end
      | (t1, Fault) => (t1, Fault)
      | (t1, Exited z) => (t1, Exited z)
      end
  end.
Proof.
  simpl. destruct (read sock (buffer_size - off)) as [[[r data] sock']|];
    [|reflexivity].
  destruct (r =? -1); [reflexivity|].
  destruct (process_buffered_messages_with _ _ _ _ _) as [t1 [[consumed c1]| |z]];
    simpl; try reflexivity.
  destruct (memcpy _ _ _) as [buffer2| |z]; simpl;
    try (now rewrite app_nil_r).
  now destruct (client_loop handle fuel buffer2 _ c1 sock').
Qed.

(** A read error after arrivals the loop has handled. *)
Lemma client_loop_read_error n : forall buffer off c pre t buffer' off' c' k rest,
  client_loop handle n buffer off c pre = (t, Ok (buffer', off', c', [])) ->
  client_loop handle (n + S k) buffer off c (pre ++ ReadError :: rest)
  = (t ++ [read_failure], Exited 1).
Proof.
  induction n as [|n IH]; intros buffer off c pre t buffer' off' c' k rest H.
  - simpl in H. injection H as <- _ _ _ ->. reflexivity.
  - rewrite client_loop_step in H.
    replace (S n + S k)%nat with (S (n + S k)) by lia. rewrite client_loop_step.
    destruct (read pre (buffer_size - off)) as [[[r data] sock']|] eqn:Er.
    + rewrite (read_app _ _ _ _ _ _ Er).
      destruct (r =? -1); [discriminate|]. cbv zeta in *.
      destruct (process_buffered_messages_with _ _ _ _ _)
        as [t1 [[consumed c1]| |z]]; try discriminate.
      destruct (memcpy _ _ _) as [buffer2| |z]; try discriminate.
      destruct (client_loop handle n buffer2 _ c1 sock') as [t2 r2] eqn:El.
      simpl in H. injection H as <- ->.
      rewrite (IH _ _ _ _ _ _ _ _ k rest El). simpl.
      now rewrite app_assoc.
    + apply read_None in Er. subst pre. injection H as <- _ _ _.
      reflexivity.
Qed.

Lemma enough_fuel_app pre more :
  enough_fuel (pre ++ more) = (enough_fuel pre + enough_fuel more)%nat.
Proof.
  induction pre as [|[bs|] pre IH]; simpl; [reflexivity| |]; rewrite IH; lia.
Qed.

(** [enough_fuel] iterations handle every arrival. *)
Lemma client_loop_drains n : forall buffer off c sock t buffer' off' c' sock',
  0 <= off < buffer_size -> (enough_fuel sock <= n)%nat ->
  client_loop handle n buffer off c sock = (t, Ok (buffer', off', c', sock')) ->
  sock' = [] /\ 0 <= off' < buffer_size.
Proof.
  induction n as [|n IH]; intros buffer off c sock t buffer' off' c' sock' Ho Hf H.
  - simpl in H. injection H as _ _ <- _ <-.
    destruct sock as [|[bs|] sock]; simpl in Hf; [auto|lia|lia].
  - rewrite client_loop_step in H.
    destruct (read sock (buffer_size - off)) as [[[r data] sock1]|] eqn:Er.
    2:{ apply read_None in Er. injection H as _ _ <- _ <-. auto. }
    destruct (r =? -1) eqn:Er1; [discriminate|]. cbv zeta in H.
    destruct (process_buffered_messages_with _ _ _ _ _)
      as [t1 [[consumed c1]| |z]] eqn:Ep; try discriminate.
    destruct (memcpy _ _ _) as [buffer2| |z]; try discriminate.
    destruct (client_loop handle n buffer2 _ c1 sock1) as [t2 r2] eqn:El.
    simpl in H. injection H as _ ->.
    assert (Hr : 0 <= r /\ off + r <= buffer_size
                 /\ (enough_fuel sock1 <= n)%nat).
    { destruct sock as [|[bs|] sock]; simpl in Er; [discriminate| |].
      - pose proof (len_nonneg bs) as Hb. simpl in Hf.
        destruct (len bs <=? buffer_size - off) eqn:E;
          injection Er as <- <- <-.
        + repeat split; lia.
        + repeat split; try lia. simpl. rewrite length_drop.
          unfold len in *. lia.
      - injection Er as <- _ _. discriminate. }
    destruct Hr as (Hr0 & Hr1 & Hr2).
    apply process_buffered_messages_bounds in Ep; [|lia|reflexivity].
    eapply IH; [|exact Hr2|exact El]. lia.
Qed.

End SplitterFacts.

(** ** Sequences of [get_arg] *)

(** After fetches at indices inside the array, in any order and with
    repetitions: every fetch has returned, the slots fetched hold [NULL]
    and the other slots are as they were. *)
Lemma get_args_lookup js : forall m,
  Forall (fun j => 0 <= j < len (args m)) js ->
  exists m',
    get_args m js = Ok m'
    /\ command m' = command m /\ numArgs m' = numArgs m
    /\ len (args m') = len (args m)
    /\ forall i, 0 <= i < len (args m) ->
         args m' !! Z.to_nat i
         = if bool_decide (i ∈ js) then Some None else args m !! Z.to_nat i.
Proof.
  induction js as [|j js IH]; intros m Hjs.
  - exists m. repeat split; reflexivity.
  - apply Forall_cons in Hjs as [Hj Hjs].
    destruct (lookup_lt_is_Some_2 (args m) (Z.to_nat j)) as [a Ha];
      [unfold len in Hj; lia|].
    assert (Hlen : len (args (set_arg m j None)) = len (args m)).
    { unfold len, set_arg. simpl. now rewrite length_insert. }
    destruct (IH (set_arg m j None)) as (m' & Hg & Hc & Hn & Hl & Hlook).
    { rewrite Hlen. exact Hjs. }
    exists m'. simpl get_args.
    rewrite (get_arg_in_range m j a) by (try lia; assumption).
    split; [exact Hg|]. split; [exact Hc|]. split; [exact Hn|].
    split; [lia|]. intros i Hi. rewrite Hlook by lia.
    destruct (bool_decide (i ∈ js)) eqn:Ein.
    + apply bool_decide_eq_true in Ein.
      rewrite bool_decide_eq_true_2; [reflexivity|]. now right.
    + apply bool_decide_eq_false in Ein. simpl.
      destruct (Z.eq_dec i j) as [->|Hne].
      * rewrite bool_decide_eq_true_2 by now left.
        apply list_lookup_insert_eq. unfold len in Hi. lia.
      * rewrite bool_decide_eq_false_2.
        -- apply list_lookup_insert_ne. lia.
        -- intros Hin. apply elem_of_cons in Hin as [?|?]; contradiction.
Qed.

(** * The claims *)

(** ** C3: the trailing parameter *)

(** C3, the rule over the tokens between spaces fails: in [a b:c :d] the
    token [:d] is the first token that begins with a colon, but the parser
    stopped at the colon inside [b:c], and the final argument is [:c :d]. *)
Lemma trailing_rule_on_tokens_fails : ~ trailing_rule_on_tokens.
Proof.
  intros H.
  specialize (H (bytes "a b:c") (bytes "d")
                {| command := Some (bytes "a");
                   args := [Some (bytes ":c :d")];
                   numArgs := 1 |}).
  specialize (H eq_refl eq_refl). vm_compute in H. discriminate H.
Qed.

(** C3 (amended): parsing [USER bob 0 0 :Bob Smith] yields command [USER],
    argument 0 [bob] and argument 3 [Bob Smith]; more generally, in a frame
    [cmd SP mid SP ... mid SP :rest] whose command and middle tokens hold
    no colon, so that the token [:rest] begins with the first colon of the
    frame, [rest], spaces included and without the colon, is the final
    argument, after the middle tokens, and nothing is scanned after it. *)
Theorem parse_trailing_parameter
    (cmd : list ascii) (mids : list (list ascii)) (rest : list ascii) :
  plain cmd -> Forall plain mids ->
  parse_frame user_frame = Ok user_msg
  /\ parse_frame (spaced (cmd :: mids) ++ COLON :: rest)
     = Ok {| command := Some cmd;
             args := map Some mids ++ [Some rest];
             numArgs := len mids + 1 |}.
Proof.
  intros Hc Hm. split; [apply parse_user_frame|].
  rewrite parse_frame_trailing by assumption. now rewrite map_app.
Qed.

Lemma parse_trailing_parameter_witness :
  plain (bytes "PRIVMSG") /\ Forall plain [bytes "#chan"]
  /\ parse_frame (bytes "PRIVMSG #chan :hello there: all")
     = Ok {| command := Some (bytes "PRIVMSG");
             args := [Some (bytes "#chan"); Some (bytes "hello there: all")];
             numArgs := 2 |}.
Proof.
  assert (H1 : plain (bytes "PRIVMSG")) by plain_tokens.
  assert (H2 : Forall plain [bytes "#chan"]) by plain_tokens.
  split; [exact H1|]. split; [exact H2|].
  exact (proj2 (parse_trailing_parameter (bytes "PRIVMSG") [bytes "#chan"]
                  (bytes "hello there: all") H1 H2)).
Defined.

(** ** C4: the first pass *)

(** C4 fails on [USER bob 0 0 :Bob Smith]: four spaces come before the
    colon, and three arguments are not the trailing one. *)
Lemma spaces_count_middle_args_fails : ~ spaces_count_middle_args user_frame.
Proof.
  intros H. specialize (H user_msg parse_user_frame).
  vm_compute in H. discriminate H.
Qed.

(** C4 (amended): for every frame the parser accepts, the number of spaces
    before the first colon is the number of arguments the parser produces,
    the command token not counted and the trailing argument counted; the
    arguments other than a trailing one are one fewer. *)
Theorem spaces_count_all_args (frame : list ascii) (m : msg) :
  parse_frame frame = Ok m ->
  spaces_before_colon frame = len (args m)
  /\ numArgs m = len (args m)
  /\ len (middle_args frame m)
     = spaces_before_colon frame - (if has_trailing frame then 1 else 0).
Proof.
  intros H.
  pose proof (parse_message_numArgs _ _ H) as Hn.
  destruct (parse_message_result_shape _ _ _ H) as (H0 & Hl & _).
  assert (Hs : spaces_before_colon frame = len (args m)) by lia.
  repeat split; [assumption|lia|].
  unfold middle_args. destruct (has_trailing frame) eqn:E; [|lia].
  apply has_trailing_spaces in E.
  rewrite len_removelast; [lia|].
  intros Hnil. rewrite Hnil in Hs. change (len []) with 0 in Hs. lia.
Qed.

Lemma spaces_count_all_args_witness :
  parse_frame user_frame = Ok user_msg
  /\ spaces_before_colon user_frame = len (args user_msg)
  /\ numArgs user_msg = len (args user_msg)
  /\ len (middle_args user_frame user_msg)
     = spaces_before_colon user_frame - (if has_trailing user_frame then 1 else 0).
Proof.
  split; [exact parse_user_frame|].
  exact (spaces_count_all_args user_frame user_msg parse_user_frame).
Defined.

(** ** C7: move-once retrieval *)

(** C7: for every parsed message, every index [i] inside its argument
    array and every sequence [js] of earlier [get_arg] calls at indices
    inside the array (any indices, in any order, [i] among them or not):
    all these calls return, and the [get_arg] at [i] that follows returns
    the argument the parser stored at [i], which is a string and not
    [NULL], when [i] has not been fetched before (the first retrieval,
    whatever other slots were fetched in between), and [NULL] when it has
    (every later retrieval).  The command and [numArgs] stay as parsed. *)
Theorem get_arg_move_once (s : list ascii) (n : Z) (m : msg) (js : list Z)
    (i : Z) :
  result_of (parse_message s n) = Ok m ->
  Forall (fun j => 0 <= j < numArgs m) js ->
  0 <= i < numArgs m ->
  exists v m' m'',
    args m !! Z.to_nat i = Some (Some v)
    /\ get_args m js = Ok m'
    /\ get_arg m' i
       = Ok (if bool_decide (i ∈ js) then None else Some v, m'')
    /\ command m'' = command m /\ numArgs m'' = numArgs m.
Proof.
  intros H Hjs Hi.
  destruct (parse_message_result_shape _ _ _ H) as (_ & Hl & Hf & _).
  destruct (Hf i Hi) as [v Hv].
  destruct (get_args_lookup js m) as (m' & Hg & Hc & Hn & _ & Hlook).
  { now rewrite Hl. }
  exists v, m', (set_arg m' i None).
  split; [exact Hv|]. split; [exact Hg|]. split; [|split; assumption].
  apply get_arg_in_range; [lia|].
  rewrite Hlook by lia. destruct (bool_decide (i ∈ js)); [reflexivity|exact Hv].
Qed.

Lemma get_arg_move_once_witness :
  result_of (parse_message user_frame 23) = Ok user_msg
  /\ Forall (fun j => 0 <= j < numArgs user_msg) [0; 3; 0]
  /\ 0 <= 3 < numArgs user_msg
  /\ 0 <= 1 < numArgs user_msg
  /\ (exists m' m'',
        get_args user_msg [0] = Ok m'
        /\ get_arg m' 3 = Ok (Some (bytes "Bob Smith"), m''))
  /\ (exists m' m'',
        get_args user_msg [0; 3; 0] = Ok m' /\ get_arg m' 3 = Ok (None, m''))
  /\ (exists m' m'',
        get_args user_msg [0; 3; 0] = Ok m'
        /\ get_arg m' 1 = Ok (Some (bytes "0"), m'')).
Proof.
  assert (Hp := parse_user_frame).
  assert (H0 : Forall (fun j => 0 <= j < numArgs user_msg) [0])
    by (repeat constructor; simpl; lia).
  assert (H1 : Forall (fun j => 0 <= j < numArgs user_msg) [0; 3; 0])
    by (repeat constructor; simpl; lia).
  assert (H3 : 0 <= 3 < numArgs user_msg) by (simpl; lia).
  assert (H4 : 0 <= 1 < numArgs user_msg) by (simpl; lia).
  split; [exact Hp|]. split; [exact H1|]. split; [exact H3|].
  split; [exact H4|]. split; [|split].
  - destruct (get_arg_move_once user_frame 23 user_msg [0] 3 Hp H0 H3)
      as (v & m' & m'' & Hv & Hg & Ha & _).
    exists m', m''. split; [exact Hg|].
    injection Hv as <-. exact Ha.
  - destruct (get_arg_move_once user_frame 23 user_msg [0; 3; 0] 3 Hp H1 H3)
      as (v & m' & m'' & _ & Hg & Ha & _).
    exists m', m''. split; [exact Hg|exact Ha].
  - destruct (get_arg_move_once user_frame 23 user_msg [0; 3; 0] 1 Hp H1 H4)
      as (v & m' & m'' & Hv & Hg & Ha & _).
    exists m', m''. split; [exact Hg|].
    injection Hv as <-. exact Ha.
Defined.

(** ** C5: short NICK and USER messages *)

(** C5 fails: the frame [NICK] has no argument, and the NICK handler
    fetches argument 0 from an array of no slots. *)
Lemma short_messages_are_safe_fails : ~ short_messages_are_safe.
Proof.
  intros H.
  apply (H (bytes "001") (bytes "NICK") (new_client 4)
           {| command := Some (bytes "NICK"); args := []; numArgs := 0 |}).
  - vm_compute. reflexivity.
  - left. split; reflexivity.
  - vm_compute. reflexivity.
Qed.

(** C5 (amended): a NICK message with at least one argument and a USER
    message with at least four are processed with every [get_arg] inside
    the argument array of the parsed message: [nick] becomes argument 0,
    [username] and [fullName] become arguments 0 and 3.  The handlers do
    not look at [numArgs]: with fewer arguments, [get_arg] is called on a
    slot outside the array. *)
Theorem handlers_in_bounds (RPL_WELCOME s : list ascii) (n : Z) (c : client)
    (m : msg) :
  result_of (parse_message s n) = Ok m ->
  (is_command m "NICK" = true ->
   if 1 <=? numArgs m then
     exists v c', args m !! 0%nat = Some (Some v)
       /\ result_of (process_message RPL_WELCOME s n c) = Ok c'
       /\ nick c' = Some v
   else get_arg m 0 = Fault
        /\ result_of (process_message RPL_WELCOME s n c) = Fault)
  /\ (is_command m "USER" = true ->
      if 4 <=? numArgs m then
        exists v0 v3 c', args m !! 0%nat = Some (Some v0)
          /\ args m !! 3%nat = Some (Some v3)
          /\ result_of (process_message RPL_WELCOME s n c) = Ok c'
          /\ username c' = Some v0 /\ fullName c' = Some v3
      else result_of (process_message RPL_WELCOME s n c) = Fault).
Proof.
  intros Hp. pose proof (result_of_eq _ _ Hp) as Hp'.
  destruct (parse_message_result_shape _ _ _ Hp) as (H0 & Hl & Hf & _).
  split; intros Hcmd; apply is_command_true in Hcmd as (cmd & Hc & Hs).
  - rewrite (process_message_NICK _ _ _ _ _ _ _ Hp' Hc Hs).
    destruct (1 <=? numArgs m) eqn:E.
    + destruct (Hf 0 ltac:(lia)) as [v Hv]. change (Z.to_nat 0) with 0%nat in Hv.
      rewrite (get_arg_in_range m 0 (Some v)) by (try lia; assumption).
      pose proof (maybe_welcome_spec RPL_WELCOME (set_nick c (Some v))) as Hw.
      cbn [nick set_nick] in Hw.
      destruct (username (set_nick c (Some v))) as [u|];
        [destruct (welcomeMessageSent (set_nick c (Some v)))|];
        rewrite Hw; eexists _, _; (split; [exact Hv|]);
        (split; [reflexivity|reflexivity]).
    + rewrite (get_arg_out_of_range m 0) by lia. auto.
  - rewrite (process_message_USER _ _ _ _ _ _ _ Hp' Hc Hs).
    destruct (4 <=? numArgs m) eqn:E.
    + destruct (Hf 0 ltac:(lia)) as [v0 Hv0]. change (Z.to_nat 0) with 0%nat in Hv0.
      destruct (Hf 3 ltac:(lia)) as [v3 Hv3]. change (Z.to_nat 3) with 3%nat in Hv3.
      rewrite (get_arg_in_range m 0 (Some v0)) by (try lia; assumption).
      rewrite (get_arg_in_range (set_arg m 0 None) 3 (Some v3)).
      2: lia.
      2:{ simpl. rewrite list_lookup_insert_ne by lia. assumption. }
      cbv zeta.
      pose proof (maybe_welcome_spec RPL_WELCOME
                    (set_fullName (set_username c (Some v0)) (Some v3))) as Hw.
      cbn [nick username set_username set_fullName] in Hw.
      destruct (nick c) as [nk|];
        [destruct (welcomeMessageSent
                     (set_fullName (set_username c (Some v0)) (Some v3)))|];
        rewrite Hw; eexists _, _, _; (split; [exact Hv0|]);
        (split; [exact Hv3|]); repeat split; reflexivity.
    + destruct (get_arg m 0) as [[a0 m1]| |z] eqn:G0; try reflexivity.
      * destruct (get_arg_parsed m 0 _ _ Hf Hl ltac:(lia) G0) as (v0 & -> & -> & _).
        rewrite (get_arg_out_of_range (set_arg m 0 None) 3); [reflexivity|].
        unfold len in *. simpl. rewrite length_insert. lia.
      * unfold get_arg in G0. destruct (0 <? 0); [discriminate|].
        destruct (args m !! Z.to_nat 0) as [x|]; discriminate.
Qed.

Lemma handlers_in_bounds_witness :
  result_of (parse_message user_frame 23) = Ok user_msg
  /\ is_command user_msg "USER" = true
  /\ exists v0 v3 c', args user_msg !! 0%nat = Some (Some v0)
       /\ args user_msg !! 3%nat = Some (Some v3)
       /\ result_of (process_message (bytes "001") user_frame 23 (new_client 4))
          = Ok c'
       /\ username c' = Some v0 /\ fullName c' = Some v3.
Proof.
  split; [exact parse_user_frame|]. split; [reflexivity|].
  exact (proj2 (handlers_in_bounds (bytes "001") user_frame 23 (new_client 4)
                  user_msg parse_user_frame) eq_refl).
Defined.

(** ** C6: the welcome reply *)

(** C6: on a connection that starts unregistered, whatever frames are
    processed and however the run ends, the socket receives nothing or
    exactly one welcome reply; after a run that processed every frame, the
    flag is set exactly when nick and username are both set, and then the
    reply was written; the reply is written while processing the first
    frame after which both are set, the flag is set then, and no frame
    processed afterwards writes anything. *)
Theorem welcome_emitted_once (RPL_WELCOME : list ascii) (fd : Z)
    (frames : list (list ascii)) :
  let run := process_messages RPL_WELCOME frames (new_client fd) in
  (writes (trace_of run) = []
   \/ exists n u, writes (trace_of run) = welcome_reply RPL_WELCOME fd n u)
  /\ (forall c', result_of run = Ok c' ->
        welcomeMessageSent c' = has_identity c'
        /\ if has_identity c' then
             exists n u, writes (trace_of run) = welcome_reply RPL_WELCOME fd n u
           else writes (trace_of run) = [])
  /\ (forall pre f post c1 c2,
        frames = pre ++ f :: post ->
        result_of (process_messages RPL_WELCOME pre (new_client fd)) = Ok c1 ->
        has_identity c1 = false ->
        result_of (process_message RPL_WELCOME f (len f) c1) = Ok c2 ->
        has_identity c2 = true ->
        exists n u,
          nick c2 = Some n /\ username c2 = Some u
          /\ writes (trace_of (process_messages RPL_WELCOME pre (new_client fd))) = []
          /\ writes (trace_of (process_message RPL_WELCOME f (len f) c1))
             = welcome_reply RPL_WELCOME fd n u
          /\ welcomeMessageSent c2 = true
          /\ writes (trace_of (process_messages RPL_WELCOME post c2)) = []
          /\ writes (trace_of run) = welcome_reply RPL_WELCOME fd n u).
Proof.
  intros run.
  destruct (process_messages_welcome RPL_WELCOME frames fd (new_client fd)
              (new_client_inv fd) eq_refl) as [HA HB].
  split; [exact HA|]. split.
  - intros c' Hc'. destruct (HB c' Hc') as [[_ Hinv] Hw]. auto.
  - intros pre f post c1 c2 -> Hpre Hid1 Hf Hid2.
    destruct (process_messages_welcome RPL_WELCOME pre fd (new_client fd)
                (new_client_inv fd) eq_refl) as [_ HB1].
    destruct (HB1 c1 Hpre) as [[Hfd1 Hinv1] Hw1]. rewrite Hid1 in Hw1, Hinv1.
    pose proof (process_message_welcome_step RPL_WELCOME f (len f) c1) as Hstep.
    unfold welcome_step in Hstep. rewrite Hf, Hid2, Hinv1 in Hstep.
    destruct Hstep as (Hfd2 & _ & _ & Hs2 & n & u & Hn & Hu & Hw2).
    rewrite Hfd1 in Hw2.
    assert (Hinv2 : registration_inv fd c2) by (split; congruence).
    pose proof (registered_stays_silent RPL_WELCOME post fd c2 Hinv2 Hs2) as Hw3.
    exists n, u. repeat split; try assumption.
    subst run. rewrite process_messages_app. simpl process_messages.
    unfold trace_of, result_of in *.
    destruct (process_messages RPL_WELCOME pre (new_client fd)) as [t1 r1].
    cbn [fst snd] in *. subst r1. cbn [bind].
    destruct (process_message RPL_WELCOME f (len f) c1) as [t2 r2].
    cbn [fst snd] in *. subst r2. cbn [bind].
    destruct (process_messages RPL_WELCOME post c2) as [t3 r3].
    cbn [fst snd] in *. rewrite !writes_app, Hw1, Hw2, Hw3.
    now rewrite app_nil_r.
Qed.

Lemma welcome_emitted_once_witness :
  exists c1 c2,
    result_of (process_messages (bytes "001") [bytes "NICK alice"]
                 (new_client 4)) = Ok c1
    /\ has_identity c1 = false
    /\ result_of (process_message (bytes "001") (bytes "USER a 0 0 :A") 13 c1)
       = Ok c2
    /\ has_identity c2 = true
    /\ writes (trace_of (process_messages (bytes "001")
                 [bytes "NICK alice"; bytes "USER a 0 0 :A"; bytes "PING"]
                 (new_client 4)))
       = welcome_reply (bytes "001") 4 (bytes "alice") (bytes "a").
Proof.
  set (c1 := {| nick := Some (bytes "alice"); username := None;
                fullName := None; welcomeMessageSent := false; sockfd := 4 |}).
  set (c2 := {| nick := Some (bytes "alice"); username := Some (bytes "a");
                fullName := Some (bytes "A"); welcomeMessageSent := true;
                sockfd := 4 |}).
  assert (H1 : result_of (process_messages (bytes "001") [bytes "NICK alice"]
                            (new_client 4)) = Ok c1) by (vm_compute; reflexivity).
  assert (H2 : has_identity c1 = false) by reflexivity.
  assert (H3 : result_of (process_message (bytes "001") (bytes "USER a 0 0 :A")
                            (len (bytes "USER a 0 0 :A")) c1) = Ok c2)
    by (vm_compute; reflexivity).
  assert (H4 : has_identity c2 = true) by reflexivity.
  exists c1, c2. repeat (split; [assumption|]).
  destruct (proj2 (proj2 (welcome_emitted_once (bytes "001") 4
              [bytes "NICK alice"; bytes "USER a 0 0 :A"; bytes "PING"]))
              [bytes "NICK alice"] (bytes "USER a 0 0 :A") [bytes "PING"]
              c1 c2 eq_refl H1 H2 H3 H4)
    as (n & u & Hn & Hu & _ & _ & _ & _ & Hw).
  injection Hn as <-. injection Hu as <-. exact Hw.
Defined.

(** ** C10: totality of [parse_message] *)

(** C10 fails on every frame without a colon that ends in a space, such as
    [NICK ] with its trailing space: the last token takes the frame to its
    end, space included, and the round for the argument still expected
    starts past the end, computes a length of zero and copies [-1] bytes.
    The empty frame does parse, to an empty command and no argument. *)
Theorem parse_message_faults_on_trailing_space
    (cmd : list ascii) (mids : list (list ascii)) :
  plain cmd -> Forall plain mids ->
  parse_frame (spaced (cmd :: mids)) = Fault
  /\ parse_frame [] = Ok {| command := Some []; args := []; numArgs := 0 |}.
Proof.
  intros Hc Hm. split; [now apply parse_frame_trailing_space|reflexivity].
Qed.

Lemma parse_message_faults_on_trailing_space_witness :
  plain (bytes "NICK") /\ Forall plain []
  /\ parse_frame (bytes "NICK ") = Fault.
Proof.
  assert (H1 : plain (bytes "NICK")) by plain_tokens.
  split; [exact H1|]. split; [constructor|].
  exact (proj1 (parse_message_faults_on_trailing_space (bytes "NICK") []
                  H1 (List.Forall_nil plain))).
Defined.

(** ** C2: message boundaries *)

(** C2 fails at index 0: the scan starts at index 1, so in the buffer
    [CR LF N I C K SP a CR LF] the boundary at index 0 is not seen, and one
    frame is dispatched, which begins with that CR LF, where the claim has
    the empty frame and then [NICK a]. *)
Theorem boundary_at_offset_0_missed :
  dispatched (crlf ++ bytes "NICK a" ++ crlf) buffer_size 10
  = Ok (10, [crlf ++ bytes "NICK a"])
  /\ dispatched (bytes "a" ++ crlf ++ crlf ++ bytes "NICK a" ++ crlf) buffer_size 13
     = Ok (13, [bytes "a"; []; bytes "NICK a"]).
Proof. split; vm_compute; reflexivity. Qed.

(** ** C1: partition into reads *)

(** C1 fails: the bytes [NICK a CR LF USER b c d SP :e CR LF] dispatch
    [NICK a] and [USER b c d :e] when they arrive in one read; when the
    first read ends after [USER b c d], the compaction copies as many bytes
    as were consumed (8) instead of the 10 that remain, and the second
    frame is dispatched as [USER b cUS :e]. *)
Theorem compaction_corrupts_partial_message :
  frames_dispatched
    [Data (bytes "NICK a" ++ crlf ++ bytes "USER b c d :e" ++ crlf)]
  = Ok [bytes "NICK a"; bytes "USER b c d :e"]
  /\ frames_dispatched
       [Data (bytes "NICK a" ++ crlf ++ bytes "USER b c d");
        Data (bytes " :e" ++ crlf)]
     = Ok [bytes "NICK a"; bytes "USER b cUS :e"].
Proof. split; vm_compute; reflexivity. Qed.

(** ** C8: read errors *)

(** C8 fails: on a connection whose first [read] reports an error, the
    program calls [exit(1)]. *)
Lemma read_error_is_per_connection_fails : ~ read_error_is_per_connection.
Proof.
  intros H. apply (H (bytes "001") (new_client 4) [] 1). reflexivity.
Qed.

(** C8 (amended): whenever [read] reports an error, after any arrivals the
    loop has handled, the loop logs the failure at ERROR and ends in
    [exit(1)], which ends the server process; nothing else is logged or
    written. *)
Theorem read_error_exits_process (RPL_WELCOME : list ascii) (c : client)
    (pre rest : list arrival) (t : list event)
    (st : list ascii * Z * client * list arrival) :
  process_client_messages RPL_WELCOME c pre = (t, Ok st) ->
  process_client_messages RPL_WELCOME c (pre ++ ReadError :: rest)
  = (t ++ [Chilog ERROR "Failed to read from client connection" []], Exited 1).
Proof.
  unfold process_client_messages. intros H.
  destruct st as [[[buffer' off'] c'] sock'].
  assert (H0 : 0 <= 0 < buffer_size) by (unfold buffer_size; lia).
  destruct (client_loop_drains _ _ _ _ _ _ _ _ _ _ _ H0 (Nat.le_refl _) H)
    as [-> _].
  rewrite enough_fuel_app. simpl enough_fuel.
  exact (client_loop_read_error _ _ _ _ _ _ _ _ _ _ _ _ H).
Qed.

Lemma read_error_exits_process_witness :
  result_of (process_client_messages (bytes "001") (new_client 4)
               [Data (bytes "PING" ++ crlf)])
  = Ok (malloc buffer_size, 0, new_client 4, [])
  /\ result_of (process_client_messages (bytes "001") (new_client 4)
                  ([Data (bytes "PING" ++ crlf)] ++ [ReadError]))
     = Exited 1.
Proof.
  assert (H : result_of (process_client_messages (bytes "001") (new_client 4)
                           [Data (bytes "PING" ++ crlf)])
              = Ok (malloc buffer_size, 0, new_client 4, []))
    by (vm_compute; reflexivity).
  split; [exact H|].
  rewrite (read_error_exits_process (bytes "001") (new_client 4)
             [Data (bytes "PING" ++ crlf)] [] _ _ (result_of_eq _ _ H)).
  reflexivity.
Defined.

(** ** C9: a full buffer without a boundary *)

(** C9 fails in its last part: when a read fills the buffer and the scan
    finds no boundary, one WARNING is logged and the splitter returns
    [buffer_size], by which the offset would fall to 0, but the compaction
    before that copies [buffer_size] bytes from [buffer + buffer_size],
    which lie past the end of the buffer. *)
Theorem overflow_drop_reads_past_buffer (RPL_WELCOME : list ascii)
    (fuel : nat) (buffer : list ascii) (off : Z) (c : client)
    (bs : list ascii) (sock : list arrival) :
  len buffer = buffer_size -> 0 <= off -> off + len bs = buffer_size ->
  crlf_free (drop 1 (take (Z.to_nat off) buffer ++ bs)) = true ->
  let full := take (Z.to_nat off) buffer ++ bs in
  process_buffered_messages RPL_WELCOME full buffer_size buffer_size c
  = ([overflow_warning], Ok (buffer_size, c))
  /\ memcpy full (drop (Z.to_nat buffer_size) full) buffer_size = Fault
  /\ client_loop (process_message RPL_WELCOME) (S fuel) buffer off c
       (Data bs :: sock)
     = ([overflow_warning], Fault).
Proof.
  intros Hlen Hoff Hfill Hfree full.
  assert (Hfull : len full = buffer_size).
  { subst full. rewrite len_app. unfold len in *. rewrite length_take. lia. }
  assert (Hscan : process_buffered_messages RPL_WELCOME full buffer_size
                    buffer_size c = ([overflow_warning], Ok (buffer_size, c))).
  { unfold process_buffered_messages, process_buffered_messages_with.
    destruct full as [|x l] eqn:Efull; [discriminate|].
    pose proof (scan_buffer_crlf_free (process_message RPL_WELCOME) l [x]
                  (Z.to_nat (buffer_size - 1 - 1)) 0 c) as Hs.
    simpl app in Hs. rewrite Hfull in Hs. change (len [x]) with 1 in Hs.
    rewrite Hs; [reflexivity|]. subst full.
    change l with (drop 1 (x :: l)). rewrite <- Efull. exact Hfree. }
  assert (Hcopy : memcpy full (drop (Z.to_nat buffer_size) full) buffer_size
                  = Fault).
  { unfold memcpy.
    assert (Hd : len (drop (Z.to_nat buffer_size) full) = 0).
    { unfold len in *. rewrite length_drop. lia. }
    rewrite Hd. reflexivity. }
  split; [exact Hscan|]. split; [exact Hcopy|].
  rewrite client_loop_step. simpl read.
  pose proof (len_nonneg bs) as Hbs.
  destruct (len bs <=? buffer_size - off) eqn:E; [|lia].
  destruct (len bs =? -1) eqn:E1; [lia|]. cbv zeta.
  replace (off + len bs) with buffer_size by lia.
  rewrite (drop_ge buffer) by (unfold len in Hlen; lia).
  rewrite app_nil_r. fold full.
  unfold process_buffered_messages in Hscan. rewrite Hscan, Hcopy.
  reflexivity.
Qed.

Lemma overflow_drop_reads_past_buffer_witness :
  len (malloc buffer_size) = buffer_size /\ 0 <= 0
  /\ 0 + len (replicate 1024 "x"%char) = buffer_size
  /\ process_client_messages (bytes "001") (new_client 4)
       [Data (replicate 1024 "x"%char)]
     = ([overflow_warning], Fault).
Proof.
  assert (H1 : len (malloc buffer_size) = buffer_size) by reflexivity.
  assert (H2 : 0 + len (replicate 1024 "x"%char) = buffer_size) by reflexivity.
  split; [exact H1|]. split; [lia|]. split; [exact H2|].
  exact (proj2 (proj2 (overflow_drop_reads_past_buffer (bytes "001") _
           (malloc buffer_size) 0 (new_client 4) (replicate 1024 "x"%char) []
           H1 (Z.le_refl 0) H2 eq_refl))).
Defined.

(** * Further properties of the code *)

(** ** [parse_message] on every frame *)

Lemma lex_spec frame :
  let '(toks, last, rest) := lex frame in
  frame = spaced toks ++ last
          ++ match rest with Some r => COLON :: r | None => [] end
  /\ Forall plain toks /\ plain last.
Proof.
  induction frame as [|c frame IH]; simpl.
  - repeat split; constructor.
  - destruct (Ascii.eqb c COLON) eqn:Ec.
    + apply Ascii.eqb_eq in Ec. subst c. repeat split; constructor.
    + destruct (lex frame) as [[toks last] rest].
      destruct IH as (Hf & Ht & Hl).
      apply Ascii.eqb_neq in Ec.
      destruct (Ascii.eqb c SP) eqn:Es.
      * apply Ascii.eqb_eq in Es. subst c. simpl. rewrite <- Hf.
        repeat split; try assumption. constructor; [constructor|assumption].
      * apply Ascii.eqb_neq in Es. destruct toks as [|tok toks].
        -- simpl in *. rewrite <- Hf. repeat split; try assumption.
           constructor; auto.
        -- simpl in *. rewrite <- Hf. inversion Ht; subst.
           repeat split; try assumption.
           constructor; [constructor; auto|assumption].
Qed.

Lemma scan_token_plain_colon tok : forall A B fuel start,
  plain tok -> (length tok < fuel)%nat ->
  scan_token fuel (A ++ tok ++ COLON :: B) (len (A ++ tok ++ COLON :: B))
             start (len A)
  = (start + 1, len (A ++ tok ++ COLON :: B) + 1).
Proof.
  induction tok as [|c tok IH]; intros A B fuel start Hp Hfuel.
  - destruct fuel as [|fuel]; [lia|]. apply scan_token_colon.
  - destruct fuel as [|fuel]; [simpl in Hfuel; lia|].
    inversion Hp as [|c' tok' [Hc1 Hc2] Hp']; subst.
    simpl app. simpl scan_token. rewrite char_at_app.
    rewrite (ascii_eqb_neq c COLON), (ascii_eqb_neq c SP) by assumption.
    destruct (len A <? len (A ++ c :: tok ++ COLON :: B)) eqn:E.
    2:{ rewrite len_app, len_cons in E.
        pose proof (len_nonneg (tok ++ COLON :: B)). lia. }
    replace (A ++ c :: tok ++ COLON :: B) with ((A ++ [c]) ++ tok ++ COLON :: B)
      by (now rewrite <- app_assoc).
    replace (len A + 1) with (len (A ++ [c])) by (rewrite len_app; reflexivity).
    apply IH; [assumption|simpl in Hfuel; lia].
Qed.

Lemma store_all_app l1 : forall l2 m j,
  store_all m j (l1 ++ l2) = store_all (store_all m j l1) (j + len l1) l2.
Proof.
  induction l1 as [|x l1 IH]; intros l2 m j; simpl.
  - f_equal. change (len []) with 0. lia.
  - rewrite IH. f_equal. rewrite len_cons. lia.
Qed.

(** The second pass on tokens followed by the token with the colon. *)
Lemma collect_args_colon mids : forall A m j fuel last rest,
  Forall plain mids -> plain last ->
  numArgs m = j + len mids + 1 -> (length mids < fuel)%nat ->
  let s := A ++ spaced mids ++ last ++ COLON :: rest in
  result_of (collect_args fuel s (len s) m j (len A))
  = Ok (store_all m j (mids ++ [drop 1 (last ++ COLON :: rest)])).
Proof.
  induction mids as [|tok mids IH]; intros A m j fuel last rest Hp Hl Hn Hfuel s.
  - subst s. simpl spaced. simpl app.
    destruct fuel as [|fuel]; [lia|].
    rewrite collect_args_step. change (len []) with 0 in *.
    destruct (j <? numArgs m) eqn:E; [|lia].
    set (s := A ++ last ++ COLON :: rest).
    assert (Hs : len s = len A + len last + 1 + len rest).
    { subst s. rewrite !len_app, len_cons. lia. }
    pose proof (len_nonneg rest) as Hr. pose proof (len_nonneg last) as Hl0.
    subst s. rewrite scan_token_plain_colon;
      [|assumption|unfold len in *; lia].
    cbn [fst snd]. unfold bump. destruct (_ =? _) eqn:E'; [lia|]. cbv zeta.
    rewrite copy_arg_Ok.
    + rewrite collect_args_done by (rewrite store_numArgs; lia).
      unfold result_of. simpl. do 2 f_equal.
      replace (Z.to_nat (len A + 1)) with (length A + 1)%nat
        by (unfold len; lia).
      rewrite <- drop_drop, drop_app_length.
      apply take_ge. rewrite length_drop. unfold len in *.
      rewrite !length_app in *. simpl in *. lia.
    + lia.
    + unfold len in *. rewrite length_drop, !length_app in *. simpl in *. lia.
  - subst s. inversion Hp as [|tok' mids' Htok Hmids]; subst.
    destruct fuel as [|fuel]; [simpl in Hfuel; lia|].
    rewrite collect_args_step.
    assert (Hlm : len (tok :: mids) = len mids + 1) by apply len_cons.
    pose proof (len_nonneg mids) as Hm0.
    destruct (j <? numArgs m) eqn:E; [|lia].
    simpl spaced.
    set (B := spaced mids ++ last ++ COLON :: rest).
    replace (A ++ (tok ++ SP :: spaced mids) ++ last ++ COLON :: rest)
      with (A ++ tok ++ SP :: B)
      by (subst B; rewrite <- !app_assoc; reflexivity).
    assert (Hs : len (A ++ tok ++ SP :: B) = len A + len tok + 1 + len B).
    { rewrite !len_app, len_cons. lia. }
    assert (HB : 1 <= len B).
    { subst B. rewrite !len_app, len_cons.
      pose proof (len_nonneg (spaced mids)). pose proof (len_nonneg rest).
      pose proof (len_nonneg last). lia. }
    pose proof (len_nonneg tok) as Ht0.
    rewrite scan_token_space; [|assumption|unfold len in *; lia].
    cbn [fst snd]. unfold bump. destruct (_ =? _) eqn:E'; [lia|]. cbv zeta.
    replace (len A + len tok + 1 - len A) with (len tok + 1) by lia.
    rewrite (copy_arg_token A tok (SP :: B)).
    replace (A ++ tok ++ SP :: B) with ((A ++ tok ++ [SP]) ++ B)
      by (rewrite <- !app_assoc; reflexivity).
    replace (len A + len tok + 1) with (len (A ++ tok ++ [SP]))
      by (rewrite !len_app; change (len [SP]) with 1; lia).
    subst B. unfold result_of in *. cbn [snd]. rewrite IH;
      [|assumption|assumption|rewrite store_numArgs; lia|simpl in Hfuel; lia].
    reflexivity.
Qed.

(** The second pass on tokens followed by a last token that ends the
    frame. *)
Lemma collect_args_end mids : forall A m j fuel last,
  Forall plain mids -> plain last -> last <> [] \/ mids = [] ->
  numArgs m = j + len mids + 1 -> (length mids < fuel)%nat ->
  let s := A ++ spaced mids ++ last in
  result_of (collect_args fuel s (len s) m j (len A))
  = Ok (store_all m j (mids ++ [last])).
Proof.
  induction mids as [|tok mids IH]; intros A m j fuel last Hp Hl Hne Hn Hfuel s.
  - subst s. simpl spaced. simpl app.
    destruct fuel as [|fuel]; [lia|].
    rewrite collect_args_step. change (len []) with 0 in *.
    destruct (j <? numArgs m) eqn:E; [|lia].
    pose proof (len_nonneg last) as Hl0.
    rewrite scan_token_end by assumption.
    destruct (length last <=? Z.to_nat (len (A ++ last) - len A))%nat eqn:Ef.
    2:{ apply Nat.leb_gt in Ef. rewrite len_app in Ef. unfold len in Ef. lia. }
    cbn [fst snd]. unfold bump. rewrite Z.eqb_refl. cbv zeta.
    replace (A ++ last) with (A ++ last ++ []) by (now rewrite app_nil_r).
    replace (len (A ++ last ++ []) + 1 - len A) with (len last + 1)
      by (rewrite !len_app; change (len (@nil ascii)) with 0; lia).
    rewrite copy_arg_token.
    rewrite collect_args_done by (rewrite store_numArgs; lia).
    reflexivity.
  - subst s. inversion Hp as [|tok' mids' Htok Hmids]; subst.
    destruct Hne as [Hne|Hne]; [|discriminate].
    destruct fuel as [|fuel]; [simpl in Hfuel; lia|].
    rewrite collect_args_step.
    assert (Hlm : len (tok :: mids) = len mids + 1) by apply len_cons.
    pose proof (len_nonneg mids) as Hm0.
    destruct (j <? numArgs m) eqn:E; [|lia].
    simpl spaced.
    set (B := spaced mids ++ last).
    replace (A ++ (tok ++ SP :: spaced mids) ++ last)
      with (A ++ tok ++ SP :: B)
      by (subst B; rewrite <- !app_assoc; reflexivity).
    assert (Hs : len (A ++ tok ++ SP :: B) = len A + len tok + 1 + len B).
    { rewrite !len_app, len_cons. lia. }
    assert (HB : 1 <= len B).
    { subst B. rewrite len_app. pose proof (len_nonneg (spaced mids)).
      assert (1 <= len last); [|lia].
      clear -Hne. destruct last as [|a0 last']; [congruence|].
      rewrite len_cons. pose proof (len_nonneg last'). lia. }
    pose proof (len_nonneg tok) as Ht0.
    rewrite scan_token_space; [|assumption|unfold len in *; lia].
    cbn [fst snd]. unfold bump. destruct (_ =? _) eqn:E'; [lia|]. cbv zeta.
    replace (len A + len tok + 1 - len A) with (len tok + 1) by lia.
    rewrite (copy_arg_token A tok (SP :: B)).
    replace (A ++ tok ++ SP :: B) with ((A ++ tok ++ [SP]) ++ B)
      by (rewrite <- !app_assoc; reflexivity).
    replace (len A + len tok + 1) with (len (A ++ tok ++ [SP]))
      by (rewrite !len_app; change (len [SP]) with 1; lia).
    subst B. unfold result_of in *. cbn [snd]. rewrite IH;
      [|assumption|assumption|auto|rewrite store_numArgs; lia|simpl in Hfuel; lia].
    reflexivity.
Qed.

Lemma spaces_before_colon_lex frame :
  spaces_before_colon frame = len (lex frame).1.1.
Proof.
  induction frame as [|c frame IH]; simpl; [reflexivity|].
  destruct (Ascii.eqb c COLON); [reflexivity|].
  destruct (lex frame) as [[toks last] rest]. simpl in *.
  destruct (Ascii.eqb c SP); simpl.
  - rewrite IH, len_cons. lia.
  - destruct toks; simpl; [assumption|]. rewrite IH, !len_cons. reflexivity.
Qed.

Lemma msg_eta m :
  m = {| command := command m; args := args m; numArgs := numArgs m |}.
Proof. now destruct m. Qed.

Lemma store_all_tokens t0 ts :
  store_all {| command := None;
               args := replicate (Z.to_nat (len ts)) None;
               numArgs := len ts |} (-1) (t0 :: ts)
  = msg_of_tokens (t0 :: ts).
Proof.
  simpl store_all. change (-1 + 1) with 0.
  set (m1 := store _ (-1) t0).
  destruct (store_all_shape ts m1 0 ltac:(lia)) as [Hn Hc].
  assert (Ha : args (store_all m1 0 ts) = [] ++ map Some ts ++ replicate 0 None).
  { apply store_all_args; [reflexivity|]. subst m1. simpl.
    f_equal. unfold len. lia. }
  rewrite (msg_eta (store_all m1 0 ts)), Hn, Hc, Ha.
  subst m1. unfold msg_of_tokens. simpl. now rewrite app_nil_r.
Qed.

Lemma parse_message_lex (frame : list ascii) :
  parse_frame frame = parse_spec frame.
Proof.
  unfold parse_frame, parse_message, parse_spec.
  rewrite count_args_frame, spaces_before_colon_lex.
  pose proof (lex_spec frame) as Hlex.
  destruct (lex frame) as [[toks last] rest]. cbn [fst].
  destruct Hlex as (Hf & Ht & Hl).
  set (m0 := {| command := None;
                args := replicate (Z.to_nat (len toks)) None;
                numArgs := len toks |}).
  remember (Z.to_nat (len toks + 1)) as fuel eqn:Efuel.
  assert (Hfuel : (length toks < fuel)%nat) by (unfold len in Efuel; lia).
  clear Efuel.
  assert (Hn : numArgs m0 = -1 + len toks + 1) by (simpl; lia).
  assert (Htoks : forall x,
            store_all m0 (-1) (toks ++ [x]) = msg_of_tokens (toks ++ [x])).
  { intros x. subst m0. destruct toks as [|t0 ts].
    - reflexivity.
    - simpl app. rewrite <- store_all_tokens. do 2 f_equal.
      + rewrite len_cons, len_app. change (len [x]) with 1. reflexivity.
      + rewrite len_cons, len_app. change (len [x]) with 1. reflexivity. }
  destruct rest as [rest|].
  - pose proof (collect_args_colon toks [] m0 (-1) _ last rest
                  Ht Hl Hn Hfuel) as H.
    cbv zeta in H. change (len []) with 0 in H. simpl app in H.
    rewrite <- Hf in H. rewrite H, Htoks. reflexivity.
  - rewrite app_nil_r in Hf.
    destruct toks as [|t0 ts]; [|destruct last as [|a last]].
    + pose proof (collect_args_end [] [] m0 (-1) _ last Ht Hl
                    (or_intror eq_refl) Hn Hfuel) as H.
      cbv zeta in H. change (len []) with 0 in H. simpl app in H.
      simpl in Hf. subst frame. rewrite H.
      destruct last; f_equal; apply (Htoks _).
    + rewrite app_nil_r in Hf. subst frame.
      apply (collect_args_trailing_space (t0 :: ts) [] m0 (-1) fuel);
        [discriminate|assumption|simpl; lia|assumption].
    + assert (Hne : a :: last <> [] \/ t0 :: ts = []) by (left; discriminate).
      pose proof (collect_args_end (t0 :: ts) [] m0 (-1) _ (a :: last) Ht Hl
                    Hne Hn Hfuel) as H.
      cbv zeta in H. change (len []) with 0 in H.
      change ([] ++ ?x) with x in H.
      rewrite <- Hf in H. rewrite H, Htoks. reflexivity.
Qed.

(** X1: what [parse_message] computes, on every frame.  The bytes are cut
    at each space before the first colon; the token that holds the first
    colon loses its first byte and runs to the end of the frame; without a
    colon the last token runs to the end of the frame, and a frame with a
    space as its last byte is a memory error.  The first token is the
    command, the others are the arguments, [numArgs] their number:
    [parse_message] on a whole frame is [parse_spec]. *)
Theorem parse_frame_spec (frame : list ascii) :
  parse_frame frame = parse_spec frame.
Proof. exact (parse_message_lex frame). Qed.

Lemma plain_no_colon tok : plain tok -> ~ In COLON tok.
Proof.
  induction 1 as [|c tok [_ Hc] _ IH]; simpl; [tauto|].
  intros [H|H]; auto.
Qed.

Lemma spaced_no_colon toks : Forall plain toks -> ~ In COLON (spaced toks).
Proof.
  induction 1 as [|tok toks Ht _ IH]; simpl; [tauto|].
  rewrite in_app_iff. simpl. intros [H|[H|H]].
  - now apply plain_no_colon in H.
  - discriminate H.
  - auto.
Qed.

Lemma last_spaced tok toks : last (spaced (tok :: toks)) = Some SP.
Proof.
  revert tok. induction toks as [|t toks IH]; intros tok; simpl.
  - apply last_snoc.
  - rewrite last_app_cons, last_cons.
    change (t ++ SP :: spaced toks) with (spaced (t :: toks)).
    now rewrite IH.
Qed.

Lemma plain_last_not_space tok : plain tok -> last tok <> Some SP.
Proof.
  intros Hp H. apply last_Some in H as [l' ->].
  apply Forall_app in Hp as [_ Hp]. inversion Hp as [|x l [Hx _] _]; subst.
  now apply Hx.
Qed.

(** X2: the frames on which [parse_message] is a memory error are the
    frames without a colon that end in a space; on every other frame it
    returns a message. *)
Theorem parse_frame_fault_iff (frame : list ascii) :
  (parse_frame frame = Fault <-> ~ In COLON frame /\ last frame = Some SP)
  /\ (parse_frame frame = Fault \/ exists m, parse_frame frame = Ok m).
Proof.
  rewrite parse_message_lex. unfold parse_spec.
  pose proof (lex_spec frame) as Hlex.
  destruct (lex frame) as [[toks tok] [rest|]]; destruct Hlex as (Hf & Ht & Hl).
  - split; [|eauto]. split; [discriminate|].
    intros [Hc _]. exfalso. apply Hc. rewrite Hf, !in_app_iff. simpl. auto.
  - rewrite app_nil_r in Hf.
    assert (Hnc : ~ In COLON frame).
    { rewrite Hf, in_app_iff. intros [H|H].
      - now apply spaced_no_colon in H.
      - now apply plain_no_colon in H. }
    destruct toks as [|t0 ts]; [|destruct tok as [|a tok]].
    + split; [|destruct tok; eauto].
      simpl in Hf. subst frame.
      split; [destruct tok; discriminate|].
      intros [_ H]. now apply plain_last_not_space in H.
    + rewrite app_nil_r in Hf. subst frame. split; [|auto].
      split; [|reflexivity]. intros _. split; [assumption|apply last_spaced].
    + split; [|eauto]. split; [discriminate|].
      intros [_ H]. exfalso. rewrite Hf in H. rewrite last_app_cons in H.
      now apply plain_last_not_space in H.
Qed.

Lemma lex_plain tok :
  plain tok -> lex tok = ([], tok, None).
Proof.
  induction 1 as [|c tok [H1 H2] _ IH]; simpl; [reflexivity|].
  rewrite (ascii_eqb_neq c COLON), (ascii_eqb_neq c SP), IH by assumption.
  reflexivity.
Qed.

Lemma lex_plain_colon tok rest :
  plain tok -> lex (tok ++ COLON :: rest) = ([], tok, Some rest).
Proof.
  induction 1 as [|c tok [H1 H2] _ IH]; simpl; [reflexivity|].
  rewrite (ascii_eqb_neq c COLON), (ascii_eqb_neq c SP), IH by assumption.
  reflexivity.
Qed.

Lemma lex_token tok frame :
  plain tok ->
  lex (tok ++ SP :: frame)
  = let '(toks, last, rest) := lex frame in (tok :: toks, last, rest).
Proof.
  induction 1 as [|c tok [H1 H2] _ IH]; simpl.
  - now destruct (lex frame) as [[toks last] rest].
  - rewrite (ascii_eqb_neq c COLON), (ascii_eqb_neq c SP), IH by assumption.
    now destruct (lex frame) as [[toks last] rest].
Qed.

Lemma lex_spaced toks frame :
  Forall plain toks ->
  lex (spaced toks ++ frame)
  = let '(toks', last, rest) := lex frame in (toks ++ toks', last, rest).
Proof.
  induction 1 as [|tok toks Ht _ IH]; simpl.
  - now destruct (lex frame) as [[toks' last] rest].
  - rewrite <- app_assoc. simpl. rewrite lex_token, IH by assumption.
    now destruct (lex frame) as [[toks' last] rest].
Qed.

Lemma parse_spec_colon (toks : list (list ascii)) (tok rest : list ascii) :
  Forall plain toks -> plain tok ->
  parse_spec (spaced toks ++ tok ++ COLON :: rest)
  = Ok (msg_of_tokens (toks ++ [drop 1 (tok ++ COLON :: rest)])).
Proof.
  intros Ht Hl. unfold parse_spec.
  rewrite lex_spaced, lex_plain_colon by assumption.
  now rewrite app_nil_r.
Qed.

Lemma parse_spec_no_colon (toks : list (list ascii)) (tok : list ascii) :
  Forall plain toks -> plain tok -> tok <> [] \/ toks = [] ->
  parse_spec (spaced toks ++ tok) = Ok (msg_of_tokens (toks ++ [tok])).
Proof.
  intros Ht Hl Hne. unfold parse_spec.
  rewrite lex_spaced, lex_plain by assumption. rewrite app_nil_r.
  destruct toks as [|t0 ts]; [now destruct tok|].
  destruct tok; [|reflexivity]. destruct Hne; congruence.
Qed.

(** X3: a frame with a colon.  The tokens before the token that holds the
    first colon are the command and the arguments; that token, from its
    second byte on and to the end of the frame, is the last argument (or
    the command, when it is the first token): its first byte is dropped,
    which is the colon only when the colon begins the token. *)
Theorem parse_frame_colon (toks : list (list ascii)) (tok rest : list ascii) :
  Forall plain toks -> plain tok ->
  parse_frame (spaced toks ++ tok ++ COLON :: rest)
  = Ok (msg_of_tokens (toks ++ [drop 1 (tok ++ COLON :: rest)])).
Proof.
  intros Ht Hl. rewrite parse_message_lex. now apply parse_spec_colon.
Qed.

Lemma parse_frame_colon_witness :
  Forall plain [bytes "PRIVMSG"] /\ plain (bytes "#chan")
  /\ parse_frame (bytes "PRIVMSG #chan:x hello")
     = Ok {| command := Some (bytes "PRIVMSG");
             args := [Some (bytes "chan:x hello")];
             numArgs := 1 |}.
Proof.
  assert (H1 : Forall plain [bytes "PRIVMSG"]) by plain_tokens.
  assert (H2 : plain (bytes "#chan")) by plain_tokens.
  split; [exact H1|]. split; [exact H2|].
  exact (parse_frame_colon [bytes "PRIVMSG"] (bytes "#chan") (bytes "x hello")
           H1 H2).
Defined.

(** X4: a frame without a colon that does not end in a space is split at
    its spaces: the first token is the command, the others are the
    arguments, an empty token between two spaces being an empty
    argument. *)
Theorem parse_frame_no_colon (toks : list (list ascii)) (tok : list ascii) :
  Forall plain toks -> plain tok -> tok <> [] \/ toks = [] ->
  parse_frame (spaced toks ++ tok) = Ok (msg_of_tokens (toks ++ [tok])).
Proof.
  intros Ht Hl Hne. rewrite parse_message_lex. now apply parse_spec_no_colon.
Qed.

Lemma parse_frame_no_colon_witness :
  Forall plain [bytes "MODE"; []; bytes "a"] /\ plain (bytes "+i")
  /\ (bytes "+i" <> [] \/ [bytes "MODE"; []; bytes "a"] = [])
  /\ parse_frame (bytes "MODE  a +i")
     = Ok {| command := Some (bytes "MODE");
             args := [Some []; Some (bytes "a"); Some (bytes "+i")];
             numArgs := 3 |}.
Proof.
  assert (H1 : Forall plain [bytes "MODE"; []; bytes "a"]) by plain_tokens.
  assert (H2 : plain (bytes "+i")) by plain_tokens.
  assert (H3 : bytes "+i" <> [] \/ [bytes "MODE"; []; bytes "a"] = [])
    by (left; discriminate).
  split; [exact H1|]. split; [exact H2|]. split; [exact H3|].
  exact (parse_frame_no_colon [bytes "MODE"; []; bytes "a"] (bytes "+i")
           H1 H2 H3).
Defined.

(** ** [parse_message] reads the frame only *)

Lemma char_at_take s n i :
  0 <= i < n -> char_at (take (Z.to_nat n) s) i = char_at s i.
Proof.
  intros H. unfold char_at. rewrite !nth_lookup.
  now rewrite lookup_take_lt by lia.
Qed.

Lemma count_args_take fuel s n : forall off acc,
  0 <= off ->
  count_args fuel (take (Z.to_nat n) s) n off acc = count_args fuel s n off acc.
Proof.
  induction fuel as [|fuel IH]; intros off acc Hoff; simpl; [reflexivity|].
  destruct (off <? n) eqn:E; [|reflexivity].
  rewrite char_at_take by lia. rewrite !IH by lia. reflexivity.
Qed.

Lemma scan_token_take fuel s n : forall st off,
  0 <= off ->
  scan_token fuel (take (Z.to_nat n) s) n st off = scan_token fuel s n st off.
Proof.
  induction fuel as [|fuel IH]; intros st off Hoff; simpl; [reflexivity|].
  destruct (off <? n) eqn:E; [|reflexivity].
  rewrite char_at_take by lia. rewrite IH by lia. reflexivity.
Qed.

(** Where the inner loop of the second pass stops. *)
Lemma scan_token_bounds fuel s n : forall st off st' off',
  scan_token fuel s n st off = (st', off') ->
  (st' = st /\ off <= off' /\ (off <= n -> off' <= n))
  \/ (st' = st + 1 /\ off' = n + 1 /\ off < n).
Proof.
  induction fuel as [|fuel IH]; intros st off st' off' H; simpl in H.
  - injection H as <- <-. left. lia.
  - destruct (off <? n) eqn:E; [|injection H as <- <-; left; lia].
    destruct (Ascii.eqb _ COLON); [injection H as <- <-; right; lia|].
    destruct (Ascii.eqb _ SP); [injection H as <- <-; left; lia|].
    apply IH in H. lia.
Qed.

Lemma copy_arg_take s n st l :
  0 <= st -> st + (l - 1) <= n -> n <= len s ->
  copy_arg (take (Z.to_nat n) s) st l = copy_arg s st l.
Proof.
  intros Hst Hl Hn. destruct (Z.lt_ge_cases (l - 1) 0) as [Hneg|Hpos].
  - now rewrite !copy_arg_Fault.
  - rewrite !copy_arg_Ok; try assumption.
    + f_equal. rewrite take_drop_commute, take_take.
      rewrite (take_drop_commute s). f_equal. f_equal. lia.
    + unfold len in *. rewrite length_drop. lia.
    + unfold len in *. rewrite length_drop, length_take. lia.
Qed.

Lemma collect_args_take fuel s n : forall m j off,
  0 <= off <= n + 1 -> 0 <= n <= len s ->
  collect_args fuel (take (Z.to_nat n) s) n m j off
  = collect_args fuel s n m j off.
Proof.
  induction fuel as [|fuel IH]; intros m j off Hoff Hn; [reflexivity|].
  rewrite !collect_args_step. destruct (j <? numArgs m); [|reflexivity].
  rewrite scan_token_take by lia.
  destruct (scan_token (Z.to_nat (n - off)) s n off off) as [st o] eqn:Es.
  pose proof (scan_token_bounds _ _ _ _ _ _ _ Es) as Hb.
  cbn [fst snd]. cbv zeta.
  assert (Ho : 0 <= bump n o <= n + 1 /\ 0 <= st
               /\ st + (bump n o - st - 1) <= n).
  { unfold bump. destruct (o =? n) eqn:E.
    - lia.
    - destruct (Z.le_gt_cases off n) as [Hle|Hgt]; [lia|].
      replace (Z.to_nat (n - off)) with 0%nat in Es by lia.
      simpl in Es. injection Es as <- <-. lia. }
  destruct Ho as (Ho & Hst & Hlen).
  rewrite copy_arg_take by lia.
  destruct (copy_arg s st (bump n o - st)); try reflexivity.
  rewrite IH by lia. reflexivity.
Qed.

Lemma parse_message_prefix (s : list ascii) (n : Z) :
  0 <= n <= len s ->
  parse_message s n = parse_message (take (Z.to_nat n) s) n.
Proof.
  intros Hn. unfold parse_message. rewrite count_args_take by lia.
  now rewrite collect_args_take by lia.
Qed.

(** X5: [parse_message] depends on the first [message_length] bytes
    of its string only: what follows the frame in the buffer (its CR LF,
    later frames, stale bytes) has no influence on the parse, nor on
    [process_message]. *)
Theorem parse_message_take (RPL_WELCOME s : list ascii) (n : Z) (c : client) :
  0 <= n <= len s ->
  parse_message s n = parse_message (take (Z.to_nat n) s) n
  /\ process_message RPL_WELCOME s n c
     = process_message RPL_WELCOME (take (Z.to_nat n) s) n c.
Proof.
  intros Hn. pose proof (parse_message_prefix s n Hn) as H.
  split; [exact H|]. unfold process_message. now rewrite H.
Qed.

Lemma parse_message_take_witness :
  0 <= 6 <= len (bytes "NICK a" ++ crlf ++ bytes "USER b")
  /\ parse_message (bytes "NICK a" ++ crlf ++ bytes "USER b") 6
     = parse_message (bytes "NICK a") 6.
Proof.
  assert (H : 0 <= 6 <= len (bytes "NICK a" ++ crlf ++ bytes "USER b"))
    by (unfold len; simpl; lia).
  split; [exact H|].
  exact (proj1 (parse_message_take [] (bytes "NICK a" ++ crlf ++ bytes "USER b")
                  6 (new_client 0) H)).
Defined.

(** ** The frame splitter on every buffer *)

Lemma bind_ret_l {A B} (a : A) (k : A -> M B) : bind (ret a) k = k a.
Proof. unfold bind, ret. now destruct (k a). Qed.

Lemma bind_assoc {A B C} (m : M A) (k1 : A -> M B) (k2 : B -> M C) :
  bind (bind m k1) k2 = bind m (fun a => bind (k1 a) k2).
Proof.
  destruct m as [t [a| |z]]; simpl; try reflexivity.
  destruct (k1 a) as [t1 [b| |z]]; simpl; try reflexivity.
  destruct (k2 b) as [t2 r]. now rewrite app_assoc.
Qed.

Lemma bind_ext {A B} (m : M A) (k1 k2 : A -> M B) :
  (forall a, k1 a = k2 a) -> bind m k1 = bind m k2.
Proof.
  intros H. destruct m as [t [a| |z]]; simpl; try reflexivity. now rewrite H.
Qed.

Lemma split_crlf_cons2 cur c d l2 :
  split_crlf cur (c :: d :: l2)
  = if Ascii.eqb c CR && Ascii.eqb d LF then
      let '(frames, rem) := split_crlf [] l2 in (cur :: frames, rem)
    else split_crlf (cur ++ [c]) (d :: l2).
Proof. reflexivity. Qed.

Lemma split_crlf_app (l cur : list ascii) :
  let '(frames, rem) := split_crlf cur l in
  cur ++ l = join_crlf frames ++ rem
  /\ (frames = [] -> rem = cur ++ l)
  /\ (frames <> [] -> len rem + 2 <= len l).
Proof.
  remember (length l) as n eqn:En. revert l cur En.
  induction n as [n IH] using lt_wf_ind. intros l cur En.
  destruct l as [|c [|d l2]].
  - simpl. rewrite app_nil_r. repeat split; congruence.
  - simpl. repeat split; congruence.
  - rewrite split_crlf_cons2.
    destruct (Ascii.eqb c CR && Ascii.eqb d LF) eqn:E.
    + apply andb_true_iff in E as [E1 E2].
      apply Ascii.eqb_eq in E1, E2. subst c d.
      specialize (IH (length l2) ltac:(simpl in En; lia) l2 [] eq_refl).
      destruct (split_crlf [] l2) as [frames rem].
      destruct IH as (H1 & H2 & H3). simpl in H1. split; [|split].
      * simpl. rewrite <- app_assoc. simpl. now rewrite H1.
      * discriminate.
      * intros _. rewrite !len_cons. destruct frames as [|f fs].
        -- rewrite (H2 eq_refl). simpl. lia.
        -- specialize (H3 ltac:(discriminate)). lia.
    + specialize (IH (length (d :: l2)) ltac:(simpl in *; lia) (d :: l2)
                     (cur ++ [c]) eq_refl).
      destruct (split_crlf (cur ++ [c]) (d :: l2)) as [frames rem].
      destruct IH as (H1 & H2 & H3). rewrite <- app_assoc in H1, H2.
      split; [exact H1|]. split; [exact H2|].
      intros Hne. specialize (H3 Hne). rewrite !len_cons in *. lia.
Qed.

Ltac len_goal :=
  unfold len; rewrite ?app_nil_r, ?length_app; cbn [length];
  rewrite ?length_app; cbn [length]; lia.

Section SplitterSpec.

Context {St : Type}.
Variable handle : list ascii -> Z -> St -> M St.
Hypothesis handle_reads_frame_only : reads_frame_only handle.

Lemma handle_cursor A0 cur rest c :
  handle (drop (Z.to_nat (len A0)) (A0 ++ cur ++ rest)) (len cur) c
  = handle cur (len cur) c.
Proof.
  rewrite drop_len_app. rewrite handle_reads_frame_only.
  - now rewrite take_len_app.
  - rewrite len_app. pose proof (len_nonneg cur). pose proof (len_nonneg rest).
    lia.
Qed.

Lemma scan_buffer_split n : forall l A0 cur stale fuel c,
  (length l <= n)%nat -> (length l <= S fuel)%nat ->
  scan_buffer handle fuel (A0 ++ cur ++ l ++ stale) (len (A0 ++ cur ++ l))
              (len (A0 ++ cur)) (len A0) c
  = let '(frames, rem) := split_crlf cur l in
    bind (handle_frames handle frames c)
         (fun c' => ret (len (A0 ++ cur ++ l) - len rem, c')).
Proof.
  induction n as [n IH] using lt_wf_ind.
  intros l A0 cur stale fuel c Hn Hfuel.
  pose proof (len_nonneg A0) as HA0. pose proof (len_nonneg cur) as Hcur.
  destruct l as [|c1 [|d l2]].
  - cbn [split_crlf]. cbn [handle_frames]. rewrite bind_ret_l.
    rewrite !app_nil_r.
    replace (len (A0 ++ cur) - len cur) with (len A0)
      by (rewrite len_app; lia).
    destruct fuel; simpl; [reflexivity|].
    destruct (_ <? _) eqn:E; [lia|reflexivity].
  - cbn [split_crlf]. cbn [handle_frames]. rewrite bind_ret_l.
    replace (len (A0 ++ cur ++ [c1]) - len (cur ++ [c1])) with (len A0)
      by (rewrite !len_app; lia).
    destruct fuel; simpl; [reflexivity|].
    destruct (_ <? _) eqn:E; [|reflexivity].
    rewrite !len_app in E. change (len [c1]) with 1 in E. lia.
  - destruct fuel as [|fuel]; [simpl in Hfuel; lia|].
    set (buffer := A0 ++ cur ++ (c1 :: d :: l2) ++ stale).
    set (off := len (A0 ++ cur ++ c1 :: d :: l2)).
    pose proof (len_nonneg l2) as Hl2.
    assert (Hoff : off = len (A0 ++ cur) + 2 + len l2).
    { subst off. rewrite app_assoc, len_app, !len_cons. lia. }
    assert (Hb : buffer = (A0 ++ cur) ++ c1 :: d :: (l2 ++ stale)).
    { subst buffer. now rewrite <- !app_assoc. }
    simpl scan_buffer.
    destruct (len (A0 ++ cur) <? off - 1) eqn:E; [|lia].
    rewrite Hb, char_at_app, char_at_app_next.
    rewrite split_crlf_cons2.
    destruct (Ascii.eqb c1 CR && Ascii.eqb d LF) eqn:Eb.
    + apply andb_true_iff in Eb as [E1 E2].
      apply Ascii.eqb_eq in E1, E2. subst c1 d.
      replace (len (A0 ++ cur) - len A0) with (len cur)
        by (rewrite len_app; lia).
      rewrite <- app_assoc. rewrite handle_cursor.
      destruct l2 as [|e l3].
      * cbn [split_crlf]. cbn [handle_frames]. rewrite bind_assoc.
        apply bind_ext. intros c'. rewrite bind_ret_l.
        change (len []) with 0 in *.
        destruct fuel; simpl.
        -- unfold ret. do 3 f_equal. lia.
        -- destruct (len (A0 ++ cur) + 1 <? off - 1) eqn:E'; [lia|].
           unfold ret. do 3 f_equal. lia.
      * destruct fuel as [|fuel]; [simpl in Hfuel; lia|].
        pose proof (IH (length (e :: l3)) ltac:(simpl in Hn |- *; lia)
                       (e :: l3) (A0 ++ cur ++ [CR; LF]) [] stale fuel)
          as IH'.
        destruct (split_crlf [] (e :: l3)) as [frames rem] eqn:Es.
        cbn [handle_frames]. rewrite bind_assoc.
        apply bind_ext. intros c'.
        simpl scan_buffer.
        assert (Hl3 : 1 <= len (e :: l3))
          by (rewrite len_cons; pose proof (len_nonneg l3); lia).
        destruct (len (A0 ++ cur) + 1 <? off - 1) eqn:E'; [|lia].
        replace (cur ++ CR :: LF :: (e :: l3) ++ stale)
          with (cur ++ CR :: LF :: e :: l3 ++ stale) by reflexivity.
        replace (A0 ++ cur ++ CR :: LF :: e :: l3 ++ stale)
          with ((A0 ++ cur) ++ CR :: LF :: e :: l3 ++ stale)
          by (now rewrite <- app_assoc).
        rewrite char_at_app_next. cbn [Ascii.eqb LF CR Bool.eqb andb].
        specialize (IH' c' ltac:(simpl; lia) ltac:(simpl in Hfuel |- *; lia)).
        replace ((A0 ++ cur ++ [CR; LF]) ++ [] ++ (e :: l3) ++ stale)
          with ((A0 ++ cur) ++ CR :: LF :: e :: l3 ++ stale) in IH'
          by (rewrite <- !app_assoc; reflexivity).
        replace (len ((A0 ++ cur ++ [CR; LF]) ++ [] ++ e :: l3)) with off in IH'
          by (subst off; rewrite <- !app_assoc; reflexivity).
        replace (len ((A0 ++ cur ++ [CR; LF]) ++ []))
          with (len (A0 ++ cur) + 1 + 1) in IH'
          by len_goal.
        replace (len (A0 ++ cur ++ [CR; LF])) with (len (A0 ++ cur) + 2) in IH'
          by len_goal.
        exact IH'.
    + pose proof (IH (length (d :: l2)) ltac:(simpl in Hn |- *; lia)
                     (d :: l2) A0 (cur ++ [c1]) stale fuel c
                     ltac:(simpl; lia) ltac:(simpl in Hfuel |- *; lia)) as IH'.
      replace (A0 ++ (cur ++ [c1]) ++ (d :: l2) ++ stale)
        with ((A0 ++ cur) ++ c1 :: d :: l2 ++ stale) in IH'
        by (rewrite <- !app_assoc; reflexivity).
      replace (len (A0 ++ (cur ++ [c1]) ++ d :: l2)) with off in IH'
        by (subst off; rewrite <- !app_assoc; reflexivity).
      replace (len (A0 ++ cur ++ [c1])) with (len (A0 ++ cur) + 1) in IH'
        by len_goal.
      exact IH'.
Qed.

End SplitterSpec.

Lemma splitter_frames {St : Type}
    (handle : list ascii -> Z -> St -> M St) (x : ascii)
    (l stale : list ascii) (size : Z) (c : St) :
  reads_frame_only handle ->
  process_buffered_messages_with handle ((x :: l) ++ stale) size
    (len (x :: l)) c
  = let '(frames, rem) := split_crlf [x] l in
    bind (handle_frames handle frames c)
      (fun c' =>
         if match frames with [] => true | _ :: _ => false end
            && (len (x :: l) =? size)
         then ([overflow_warning], Ok (size, c'))
         else ret (len (x :: l) - len rem, c')).
Proof.
  intros Hh. unfold process_buffered_messages_with.
  pose proof (scan_buffer_split handle Hh (length l) l [] [x] stale
                (Z.to_nat (len (x :: l) - 1 - 1)) c (Nat.le_refl _)) as Hs.
  change ([] ++ [x] ++ l ++ stale) with ((x :: l) ++ stale) in Hs.
  change ([] ++ [x] ++ l) with (x :: l) in Hs.
  change (len ([] ++ [x])) with 1 in Hs. change (len []) with 0 in Hs.
  rewrite Hs by (rewrite len_cons; unfold len; lia). clear Hs.
  pose proof (split_crlf_app l [x]) as Hj.
  destruct (split_crlf [x] l) as [frames rem].
  destruct Hj as (_ & Hnil & Hcons).
  rewrite bind_assoc. apply bind_ext. intros c'. cbv beta.
  etransitivity; [apply bind_ret_l|]. cbv beta iota.
  destruct frames as [|f fs].
  - rewrite (Hnil eq_refl). change ([x] ++ l) with (x :: l).
    rewrite Z.sub_diag. cbn [andb Z.eqb].
    destruct (len (x :: l) =? size); reflexivity.
  - specialize (Hcons ltac:(discriminate)).
    destruct (len (x :: l) - len rem =? 0) eqn:E.
    + rewrite len_cons in E. lia.
    + reflexivity.
Qed.

(** X7: the frame splitter on every buffer.  For valid bytes [x :: l]
    (followed by any stale bytes) the handler is called on the frames that
    [split_crlf] finds from the second byte on, in order and on nothing
    else; the offset returned is the end of the last boundary, or
    [buffer_size], after a WARNING, when there is no frame and the buffer
    is full. *)
Theorem process_buffered_messages_frames {St : Type}
    (handle : list ascii -> Z -> St -> M St) (x : ascii)
    (l stale : list ascii) (size : Z) (c : St) :
  reads_frame_only handle ->
  process_buffered_messages_with handle ((x :: l) ++ stale) size
    (len (x :: l)) c
  = let '(frames, rem) := split_crlf [x] l in
    bind (handle_frames handle frames c)
      (fun c' =>
         if match frames with [] => true | _ :: _ => false end
            && (len (x :: l) =? size)
         then ([overflow_warning], Ok (size, c'))
         else ret (len (x :: l) - len rem, c')).
Proof. exact (splitter_frames handle x l stale size c). Qed.

Lemma record_frame_reads_frame_only : reads_frame_only record_frame.
Proof.
  intros s n seen Hn. unfold record_frame. rewrite take_take.
  now rewrite Nat.min_id.
Qed.

Lemma handle_frames_record frames : forall seen,
  handle_frames record_frame frames seen = ret (seen ++ frames).
Proof.
  induction frames as [|f frames IH]; intros seen; cbn [handle_frames].
  - now rewrite app_nil_r.
  - unfold record_frame at 1. rewrite bind_ret_l, IH.
    unfold len. rewrite Nat2Z.id, firstn_all. now rewrite <- app_assoc.
Qed.

Lemma process_message_reads_frame_only RPL :
  reads_frame_only (process_message RPL).
Proof.
  intros s n c Hn. unfold process_message.
  now rewrite (parse_message_prefix s n Hn).
Qed.

Lemma handle_frames_process_message RPL frames : forall c,
  handle_frames (process_message RPL) frames c = process_messages RPL frames c.
Proof.
  induction frames as [|f frames IH]; intros c; simpl; [reflexivity|].
  apply bind_ext. intros c'. apply IH.
Qed.

(** X8: the frames dispatched from a buffer and the offset returned, and
    [process_buffered_messages] as [process_message] on these frames in
    order. *)
Theorem process_buffered_messages_dispatch (RPL_WELCOME : list ascii)
    (x : ascii) (l stale : list ascii) (c : client) :
  let '(frames, rem) := split_crlf [x] l in
  let consumed :=
    if match frames with [] => true | _ :: _ => false end
       && (len (x :: l) =? buffer_size)
    then buffer_size else len (x :: l) - len rem in
  dispatched ((x :: l) ++ stale) buffer_size (len (x :: l))
  = Ok (consumed, frames)
  /\ process_buffered_messages RPL_WELCOME ((x :: l) ++ stale) buffer_size
       (len (x :: l)) c
     = bind (process_messages RPL_WELCOME frames c)
         (fun c' =>
            if match frames with [] => true | _ :: _ => false end
               && (len (x :: l) =? buffer_size)
            then ([overflow_warning], Ok (buffer_size, c'))
            else ret (consumed, c')).
Proof.
  pose proof (splitter_frames record_frame x l stale
                buffer_size [] record_frame_reads_frame_only) as H1.
  pose proof (splitter_frames (process_message RPL_WELCOME)
                x l stale buffer_size c
                (process_message_reads_frame_only RPL_WELCOME)) as H2.
  destruct (split_crlf [x] l) as [frames rem]. cbv zeta. split.
  - unfold dispatched. rewrite H1, handle_frames_record. simpl.
    destruct (_ && _); reflexivity.
  - unfold process_buffered_messages. rewrite H2.
    rewrite handle_frames_process_message. apply bind_ext. intros c'.
    destruct (_ && _); reflexivity.
Qed.

Lemma process_buffered_messages_frames_witness :
  reads_frame_only record_frame
  /\ process_buffered_messages_with record_frame
       ((bytes "a" ++ crlf ++ crlf ++ bytes "NI") ++ bytes "stale")
       buffer_size 7 []
     = ([], Ok (5, [bytes "a"; []])).
Proof.
  split; [exact record_frame_reads_frame_only|].
  exact (process_buffered_messages_frames record_frame "a"%char
           (crlf ++ crlf ++ bytes "NI") (bytes "stale") buffer_size []
           record_frame_reads_frame_only).
Defined.

(** ** One iteration of the connection loop *)

Lemma memcpy_compact (buffer : list ascii) (consumed : Z) :
  0 <= consumed -> 2 * consumed <= len buffer ->
  memcpy buffer (drop (Z.to_nat consumed) buffer) consumed
  = Ok (take (Z.to_nat consumed) (drop (Z.to_nat consumed) buffer)
        ++ drop (Z.to_nat consumed) buffer).
Proof.
  intros H0 H2. unfold memcpy.
  assert (Hd : len (drop (Z.to_nat consumed) buffer) = len buffer - consumed).
  { unfold len in *. rewrite length_drop. lia. }
  rewrite Hd.
  destruct (consumed <? 0) eqn:E1; [lia|].
  destruct (len buffer - consumed <? consumed) eqn:E2; [lia|].
  destruct (len buffer <? consumed) eqn:E3; [lia|]. reflexivity.
Qed.

(** The valid bytes after the compaction
    [memcpy(buffer, buffer + consumed, consumed)] of a buffer
    [done ++ rem ++ stale], [done] being the bytes consumed. *)
Lemma compaction_retains (done rem stale : list ascii) :
  2 * len done <= len (done ++ rem ++ stale) ->
  take (Z.to_nat (len rem))
    (take (Z.to_nat (len done)) (drop (Z.to_nat (len done)) (done ++ rem ++ stale))
     ++ drop (Z.to_nat (len done)) (done ++ rem ++ stale))
  = take (Z.to_nat (len done)) rem
    ++ take (Z.to_nat (len rem - len done)) rem.
Proof.
  intros H. rewrite drop_len_app.
  unfold len in *. rewrite !Nat2Z.id.
  rewrite !length_app in H.
  destruct (Nat.le_gt_cases (length rem) (length done)) as [Hle|Hgt].
  - replace (Z.to_nat (Z.of_nat (length rem) - Z.of_nat (length done)))
      with 0%nat by lia.
    change (take 0 rem) with (@nil ascii). rewrite app_nil_r.
    rewrite (take_ge rem) by lia.
    rewrite take_app_le by (rewrite length_take, length_app; lia).
    rewrite take_take, take_app_le by lia.
    rewrite take_ge by lia. reflexivity.
  - replace (Z.to_nat (Z.of_nat (length rem) - Z.of_nat (length done)))
      with (length rem - length done)%nat by lia.
    rewrite (take_app_le rem stale) by lia.
    assert (Hl : length (take (length done) rem) = length done)
      by (rewrite length_take; lia).
    rewrite take_app_ge by lia. rewrite Hl.
    f_equal. rewrite take_app_le by lia. reflexivity.
Qed.

Lemma client_loop_one_read {St : Type}
    (handle : list ascii -> Z -> St -> M St) (fuel : nat)
    (valid stale bs : list ascii) (x : ascii) (l : list ascii)
    (sock : list arrival) (c : St) :
  reads_frame_only handle ->
  len (valid ++ stale) = buffer_size -> len bs <= len stale ->
  valid ++ bs = x :: l ->
  let '(frames, rem) := split_crlf [x] l in
  let consumed := len (x :: l) - len rem in
  (frames = [] -> len (x :: l) < buffer_size) ->
  2 * consumed <= buffer_size ->
  exists buffer',
    client_loop handle (S fuel) (valid ++ stale) (len valid) c (Data bs :: sock)
    = bind (handle_frames handle frames c)
        (fun c' => client_loop handle fuel buffer' (len rem) c' sock)
    /\ len buffer' = buffer_size
    /\ take (Z.to_nat (len rem)) buffer'
       = take (Z.to_nat consumed) rem ++ take (Z.to_nat (len rem - consumed)) rem
    /\ (len rem <= consumed -> take (Z.to_nat (len rem)) buffer' = rem).
Proof.
  intros Hh Hsize Hfit Hvalid.
  pose proof (splitter_frames handle x l
                (drop (Z.to_nat (len bs)) stale) buffer_size c Hh) as Hp.
  pose proof (split_crlf_app l [x]) as Hj.
  destruct (split_crlf [x] l) as [frames rem]. cbv zeta.
  destruct Hj as (Hjoin & Hnil & Hcons). intros Hfull Hhalf.
  pose proof (len_nonneg bs) as Hbs. pose proof (len_nonneg rem) as Hrem.
  pose proof (len_nonneg valid) as Hv.
  assert (Hlen : len (x :: l) = len valid + len bs)
    by (rewrite <- Hvalid; apply len_app).
  assert (Hst : len (drop (Z.to_nat (len bs)) stale) = len stale - len bs).
  { unfold len in *. rewrite length_drop. lia. }
  set (buffer1 := (x :: l) ++ drop (Z.to_nat (len bs)) stale) in *.
  assert (Hb1 : len buffer1 = buffer_size).
  { subst buffer1. rewrite len_app, Hst, Hlen. rewrite len_app in Hsize. lia. }
  assert (Hc0 : 0 <= len (x :: l) - len rem).
  { destruct frames as [|f fs].
    - rewrite (Hnil eq_refl). change ([x] ++ l) with (x :: l). lia.
    - specialize (Hcons ltac:(discriminate)). rewrite len_cons. lia. }
  set (consumed := len (x :: l) - len rem) in *.
  exists (take (Z.to_nat consumed) (drop (Z.to_nat consumed) buffer1)
          ++ drop (Z.to_nat consumed) buffer1).
  assert (Hdone : exists done, x :: l = done ++ rem /\ len done = consumed).
  { exists (join_crlf frames). split; [exact Hjoin|].
    change ([x] ++ l) with (x :: l) in Hjoin. subst consumed.
    rewrite Hjoin at 1. rewrite len_app. lia. }
  destruct Hdone as (done & Hd1 & Hd2).
  assert (Hb1eq : buffer1 = done ++ rem ++ drop (Z.to_nat (len bs)) stale).
  { subst buffer1. rewrite Hd1. now rewrite <- app_assoc. }
  split; [|split; [|split]].
  - cbn [client_loop read].
    destruct (len bs <=? buffer_size - len valid) eqn:E.
    2:{ rewrite len_app in Hsize. lia. }
    destruct (len bs =? -1) eqn:E1; [lia|].
    replace (take (Z.to_nat (len valid)) (valid ++ stale) ++ bs
             ++ drop (Z.to_nat (len valid + len bs)) (valid ++ stale))
      with buffer1.
    2:{ subst buffer1. rewrite take_len_app, <- Hvalid, <- app_assoc.
        do 2 f_equal. replace (Z.to_nat (len valid + len bs))
          with (length valid + Z.to_nat (len bs))%nat by (unfold len; lia).
        rewrite <- drop_drop, drop_app_length. reflexivity. }
    rewrite <- Hlen, Hp.
    rewrite bind_assoc. apply bind_ext. intros c'. cbv beta.
    assert (Hov : match frames with [] => true | _ :: _ => false end
                  && (len (x :: l) =? buffer_size) = false).
    { destruct frames; [|reflexivity]. specialize (Hfull eq_refl).
      cbn [andb]. lia. }
    rewrite Hov. etransitivity; [apply bind_ret_l|]. cbv beta iota.
    fold consumed. rewrite memcpy_compact by lia.
    unfold lift. cbn [bind].
    replace (len (x :: l) - consumed) with (len rem) by (subst consumed; lia).
    now destruct (client_loop handle fuel _ (len rem) c' sock).
  - unfold len in *. rewrite length_app, length_take, !length_drop. lia.
  - rewrite Hb1eq, <- Hd2. apply compaction_retains.
    rewrite <- Hb1eq. lia.
  - intros Hle. rewrite Hb1eq, <- Hd2. rewrite compaction_retains.
    + replace (Z.to_nat (len rem - len done)) with 0%nat by lia.
      change (take 0 rem) with (@nil ascii). rewrite app_nil_r.
      apply take_ge. unfold len in *. lia.
    + rewrite <- Hb1eq. lia.
Qed.

(** X9: one iteration of the connection loop, on a buffer of valid bytes
    [valid] and stale bytes [stale] and a read that fits.  The handler is
    called on the frames of the valid bytes and the bytes read; unless
    nothing was framed in a full buffer, or more than half of the buffer
    was consumed, the loop goes on with as many valid bytes as were left
    over, [rem]; these bytes are the first [consumed] bytes of [rem]
    followed by the first bytes of [rem] again.  They are [rem] whenever
    [rem] is no longer than what was consumed; in general they are [rem]
    exactly when [rem] from its byte [consumed] on repeats its own
    beginning. *)
Theorem client_loop_iteration {St : Type}
    (handle : list ascii -> Z -> St -> M St) (fuel : nat)
    (valid stale bs : list ascii) (x : ascii) (l : list ascii)
    (sock : list arrival) (c : St) :
  reads_frame_only handle ->
  len (valid ++ stale) = buffer_size -> len bs <= len stale ->
  valid ++ bs = x :: l ->
  let '(frames, rem) := split_crlf [x] l in
  let consumed := len (x :: l) - len rem in
  (frames = [] -> len (x :: l) < buffer_size) ->
  2 * consumed <= buffer_size ->
  exists buffer',
    client_loop handle (S fuel) (valid ++ stale) (len valid) c (Data bs :: sock)
    = bind (handle_frames handle frames c)
        (fun c' => client_loop handle fuel buffer' (len rem) c' sock)
    /\ len buffer' = buffer_size
    /\ take (Z.to_nat (len rem)) buffer'
       = take (Z.to_nat consumed) rem ++ take (Z.to_nat (len rem - consumed)) rem
    /\ (len rem <= consumed -> take (Z.to_nat (len rem)) buffer' = rem)
    /\ (take (Z.to_nat (len rem)) buffer' = rem
        <-> drop (Z.to_nat consumed) rem
            = take (Z.to_nat (len rem - consumed)) rem).
Proof.
  intros Hh Hlen Hbs Hv.
  pose proof (client_loop_one_read handle fuel valid stale bs x l sock c
                Hh Hlen Hbs Hv) as H.
  destruct (split_crlf [x] l) as [frames rem]. cbv beta iota zeta in H |- *.
  intros Hfit Hhalf. destruct (H Hfit Hhalf) as (buffer' & He & Hl & Ht & Hr).
  exists buffer'. split; [exact He|]. split; [exact Hl|].
  split; [exact Ht|]. split; [exact Hr|].
  rewrite Ht. set (k := Z.to_nat (len (x :: l) - len rem)). split.
  - intros E. apply (app_inv_head (take k rem)). now rewrite take_drop.
  - intros <-. apply take_drop.
Qed.

Lemma client_loop_iteration_witness :
  exists buffer',
    client_loop record_frame 1 ([] ++ malloc buffer_size) 0 []
      [Data (bytes "NICK a" ++ crlf ++ bytes "US")]
    = bind (handle_frames record_frame [bytes "NICK a"] [])
        (fun c' => client_loop record_frame 0 buffer' 2 c' [])
    /\ take 2 buffer' = bytes "US".
Proof.
  assert (H1 : len ([] ++ malloc buffer_size) = buffer_size) by reflexivity.
  assert (H2 : len (bytes "NICK a" ++ crlf ++ bytes "US")
               <= len (malloc buffer_size)) by (vm_compute; discriminate).
  pose proof (client_loop_iteration record_frame 0 [] (malloc buffer_size)
                (bytes "NICK a" ++ crlf ++ bytes "US") "N"%char
                (bytes "ICK a" ++ crlf ++ bytes "US") [] []
                record_frame_reads_frame_only H1 H2 eq_refl) as H.
  assert (Hs : split_crlf ["N"%char] (bytes "ICK a" ++ crlf ++ bytes "US")
               = ([bytes "NICK a"], bytes "US")) by reflexivity.
  rewrite Hs in H. cbv zeta in H.
  destruct H as (buffer' & He & _ & _ & Hrem & _).
  - discriminate.
  - vm_compute. discriminate.
  - exists buffer'. split; [exact He|]. apply Hrem. vm_compute. discriminate.
Defined.

(** ** Registration on the connection loop *)

Lemma at_most_one_welcome_ret {A} RPL fd c (proj : A -> client) a :
  registration_inv fd c -> proj a = c ->
  at_most_one_welcome RPL fd c proj (ret a).
Proof.
  intros Hinv Hp. unfold at_most_one_welcome. simpl. split.
  - destruct (welcomeMessageSent c); auto.
  - intros a' [= <-]. rewrite Hp. repeat split; auto; try apply Hinv.
    congruence.
Qed.

(** A computation that writes nothing and returns no client. *)
Lemma at_most_one_welcome_stop {A} RPL fd c (proj : A -> client) (m : M A) :
  writes (trace_of m) = [] -> (forall a, result_of m <> Ok a) ->
  at_most_one_welcome RPL fd c proj m.
Proof.
  intros Hw Hr. split.
  - destruct (welcomeMessageSent c); auto.
  - intros a Ha. now apply Hr in Ha.
Qed.

Lemma at_most_one_welcome_bind {A B} RPL fd c (pa : A -> client)
    (pb : B -> client) (m : M A) (k : A -> M B) :
  at_most_one_welcome RPL fd c pa m ->
  (forall a, result_of m = Ok a -> at_most_one_welcome RPL fd (pa a) pb (k a)) ->
  at_most_one_welcome RPL fd c pb (bind m k).
Proof.
  intros [Hw Hr] Hk. destruct m as [t [a| |z]]; simpl in *;
    unfold at_most_one_welcome; simpl; [|split; [exact Hw|discriminate] ..].
  specialize (Hr a eq_refl). destruct Hr as (Hinv & Hmono & Hquiet & Hone).
  specialize (Hk a eq_refl). destruct Hk as [Hkw Hkr].
  destruct (k a) as [t' r']. simpl in *. rewrite writes_app. split.
  - destruct (welcomeMessageSent c) eqn:Ec.
    + rewrite (Hmono eq_refl) in Hkw. now rewrite Hw, Hkw.
    + destruct (welcomeMessageSent (pa a)) eqn:Ea.
      * rewrite Hkw, app_nil_r. exact Hw.
      * rewrite (Hquiet eq_refl). exact Hkw.
  - intros b Hb. destruct (Hkr b Hb) as (Hinv' & Hmono' & Hquiet' & Hone').
    split; [assumption|]. split; [auto|]. split.
    + intros Hs. rewrite (Hquiet' Hs), app_nil_r.
      apply Hquiet. destruct (welcomeMessageSent (pa a)) eqn:Ea; [|reflexivity].
      rewrite (Hmono' eq_refl) in Hs. discriminate.
    + intros Hc Hs. destruct (welcomeMessageSent (pa a)) eqn:Ea.
      * rewrite Hkw, app_nil_r. now apply Hone.
      * rewrite (Hquiet eq_refl). now apply Hone'.
Qed.

Lemma at_most_one_welcome_process_message RPL fd c s n :
  registration_inv fd c ->
  at_most_one_welcome RPL fd c (fun c' => c') (process_message RPL s n c).
Proof.
  intros [Hfd Hinv].
  pose proof (process_message_welcome_step RPL s n c) as Hstep.
  unfold welcome_step in Hstep.
  destruct (process_message RPL s n c) as [t [c'| |z]] eqn:E;
    unfold result_of, trace_of in *; cbn [fst snd] in *.
  2,3: apply at_most_one_welcome_stop; [exact Hstep|discriminate].
  destruct Hstep as (Hfd' & Hn & Hu & Hstep).
  unfold at_most_one_welcome, result_of, trace_of. cbn [fst snd].
  destruct (welcomeMessageSent c) eqn:Es.
  - rewrite andb_false_r in Hstep. destruct Hstep as [Hs' Hw].
    split; [exact Hw|]. intros a [= <-].
    assert (Hid : has_identity c' = true)
      by (apply (has_identity_mono c c'); auto).
    repeat split; try congruence.
  - rewrite andb_true_r in Hstep. destruct (has_identity c') eqn:Hid.
    + destruct Hstep as (Hs' & n0 & u0 & _ & _ & Hw). rewrite Hfd in Hw.
      split; [eauto|]. intros a [= <-].
      repeat split; try congruence. eauto.
    + destruct Hstep as [Hs' Hw]. split; [auto|]. intros a [= <-].
      repeat split; try congruence.
Qed.

Lemma at_most_one_welcome_scan RPL fd fuel buffer off : forall i mso c,
  registration_inv fd c ->
  at_most_one_welcome RPL fd c snd
    (scan_buffer (process_message RPL) fuel buffer off i mso c).
Proof.
  induction fuel as [|fuel IH]; intros i mso c Hinv; simpl.
  - now apply at_most_one_welcome_ret.
  - destruct (i <? off - 1); [|now apply at_most_one_welcome_ret].
    destruct (_ && _); [|now apply IH].
    eapply at_most_one_welcome_bind.
    + now apply at_most_one_welcome_process_message.
    + intros c' Hc'. apply IH.
      eapply (at_most_one_welcome_process_message RPL fd c); eauto.
Qed.

Lemma at_most_one_welcome_splitter RPL fd buffer size off c :
  registration_inv fd c ->
  at_most_one_welcome RPL fd c snd
    (process_buffered_messages RPL buffer size off c).
Proof.
  intros Hinv. unfold process_buffered_messages, process_buffered_messages_with.
  eapply at_most_one_welcome_bind.
  - now apply at_most_one_welcome_scan.
  - intros [mso c'] Hr.
    pose proof (at_most_one_welcome_scan RPL fd (Z.to_nat (off - 1 - 1))
                  buffer off 1 0 c Hinv) as [_ H].
    destruct (H _ Hr) as (Hinv' & _). simpl in Hinv'.
    destruct (_ && _).
    + unfold at_most_one_welcome. simpl. split.
      * destruct (welcomeMessageSent c'); auto.
      * intros a [= <-]. simpl. repeat split; auto; try apply Hinv'.
        congruence.
    + now apply at_most_one_welcome_ret.
Qed.

Lemma at_most_one_welcome_loop RPL fd fuel : forall buffer off c sock,
  registration_inv fd c ->
  at_most_one_welcome RPL fd c (fun st => st.1.2)
    (client_loop (process_message RPL) fuel buffer off c sock).
Proof.
  induction fuel as [|fuel IH]; intros buffer off c sock Hinv.
  - now apply at_most_one_welcome_ret.
  - cbn [client_loop].
    destruct (read sock (buffer_size - off)) as [[[r data] sock']|];
      [|now apply at_most_one_welcome_ret].
    destruct (r =? -1).
    + apply at_most_one_welcome_stop; [reflexivity|discriminate].
    + eapply at_most_one_welcome_bind.
      * apply (at_most_one_welcome_splitter RPL fd); exact Hinv.
      * intros [consumed c'] Hr.
        pose proof (at_most_one_welcome_splitter RPL fd
                      (take (Z.to_nat off) buffer ++ data
                       ++ drop (Z.to_nat (off + r)) buffer)
                      buffer_size (off + r) c Hinv) as [_ H].
        destruct (H _ Hr) as (Hinv' & _). simpl in Hinv'.
        destruct (memcpy _ _ consumed) as [buffer2| |z]; simpl.
        -- specialize (IH buffer2 (off + r - consumed) c' sock' Hinv').
           unfold at_most_one_welcome in *.
           destruct (client_loop _ fuel buffer2 _ c' sock') as [t2 r2].
           exact IH.
        -- apply at_most_one_welcome_stop; [reflexivity|discriminate].
        -- apply at_most_one_welcome_stop; [reflexivity|discriminate].
Qed.

(** X10: on the connection loop itself, whatever arrives on the socket
    and however the loop ends (waiting in [read], in a memory error or in
    [exit]), the socket has received nothing or exactly one welcome reply;
    in a loop that still runs, the flag is set exactly when nick and
    username are both set, and exactly when the reply has been written. *)
Theorem connection_welcome_once (RPL_WELCOME : list ascii) (fd : Z)
    (sock : list arrival) :
  let run := process_client_messages RPL_WELCOME (new_client fd) sock in
  (writes (trace_of run) = []
   \/ exists n u, writes (trace_of run) = welcome_reply RPL_WELCOME fd n u)
  /\ forall buffer off c sock',
       result_of run = Ok (buffer, off, c, sock') ->
       welcomeMessageSent c = has_identity c
       /\ if welcomeMessageSent c
          then exists n u, writes (trace_of run) = welcome_reply RPL_WELCOME fd n u
          else writes (trace_of run) = [].
Proof.
  intros run.
  pose proof (at_most_one_welcome_loop RPL_WELCOME fd (enough_fuel sock)
                (malloc buffer_size) 0 (new_client fd) sock
                (new_client_inv fd)) as [Hw Hr].
  fold (process_client_messages RPL_WELCOME (new_client fd) sock) in Hw, Hr.
  fold run in Hw, Hr. split; [exact Hw|].
  intros buffer off c sock' Hrun.
  destruct (Hr _ Hrun) as ([_ Hinv] & _ & Hq & Hone). simpl in *.
  split; [exact Hinv|].
  destruct (welcomeMessageSent c); auto.
Qed.

Lemma connection_welcome_once_holds_on_handshake :
  writes (trace_of (process_client_messages (bytes "001") (new_client 4)
            [Data (bytes "NICK a" ++ crlf); Data (bytes "USER b c d :e" ++ crlf);
             Data (bytes "NICK z" ++ crlf)]))
  = welcome_reply (bytes "001") 4 (bytes "a") (bytes "b").
Proof. vm_compute. reflexivity. Qed.

(** ** Invariants of the connection loop *)

Section LoopFacts.

Context {St : Type}.
Variable handle : list ascii -> Z -> St -> M St.

Lemma read_bounds sock count r data sock' :
  0 < count -> read sock count = Some (r, data, sock') ->
  r = -1 \/ (0 <= r <= count /\ len data = r).
Proof.
  intros Hc. destruct sock as [|[bs|] sock]; simpl; [discriminate| |].
  - pose proof (len_nonneg bs). destruct (len bs <=? count) eqn:E;
      intros [= <- <- <-]; right; [lia|].
    split; [lia|]. unfold len in *. rewrite length_take. lia.
  - intros [= <- <- <-]. auto.
Qed.

Lemma client_loop_invariant n : forall buffer off c sock t buffer' off' c' sock',
  0 <= off < buffer_size -> len buffer = buffer_size ->
  client_loop handle n buffer off c sock = (t, Ok (buffer', off', c', sock')) ->
  0 <= off' < buffer_size /\ len buffer' = buffer_size.
Proof.
  induction n as [|n IH]; intros buffer off c sock t buffer' off' c' sock' Ho Hl H.
  - simpl in H. injection H as _ <- <- _ _. auto.
  - rewrite client_loop_step in H.
    destruct (read sock (buffer_size - off)) as [[[r data] sock1]|] eqn:Er.
    2:{ injection H as _ <- <- _ _. auto. }
    destruct (r =? -1) eqn:Er1; [discriminate|]. cbv zeta in H.
    apply read_bounds in Er; [|lia]. destruct Er as [Er|[Er Hd]]; [lia|].
    set (buffer1 := take (Z.to_nat off) buffer ++ data
                    ++ drop (Z.to_nat (off + r)) buffer) in *.
    assert (Hb1 : len buffer1 = buffer_size).
    { subst buffer1. unfold len in *.
      rewrite !length_app, length_take, length_drop. lia. }
    destruct (process_buffered_messages_with _ _ _ _ _)
      as [t1 [[consumed c1]| |z]] eqn:Ep; try discriminate.
    apply process_buffered_messages_bounds in Ep; [|lia|reflexivity].
    destruct (memcpy buffer1 _ consumed) as [buffer2| |z] eqn:Em;
      try discriminate.
    destruct (client_loop handle n buffer2 _ c1 sock1) as [t2 r2] eqn:El.
    simpl in H. injection H as _ ->.
    eapply IH; [| |exact El]; [lia|].
    unfold memcpy in Em. destruct (_ || _) eqn:Eo; [discriminate|].
    injection Em as <-. apply orb_false_iff in Eo as [Eo E3].
    apply orb_false_iff in Eo as [E1 E2].
    apply Z.ltb_ge in E1, E2, E3.
    unfold len in *. rewrite length_app, length_take, !length_drop in *. lia.
Qed.

Lemma scan_buffer_crlf_free_stale l : forall A stale fuel mso c,
  crlf_free l = true ->
  scan_buffer handle fuel (A ++ l ++ stale) (len (A ++ l)) (len A) mso c
  = ([], Ok (mso, c)).
Proof.
  induction l as [|x l IH]; intros A stale fuel mso c Hfree.
  - rewrite app_nil_r. destruct fuel; simpl; [reflexivity|].
    destruct (len A <? len A - 1) eqn:E; [lia|reflexivity].
  - destruct fuel as [|fuel]; [reflexivity|].
    destruct l as [|y l].
    + simpl. rewrite len_app. change (len [x]) with 1.
      destruct (len A <? len A + 1 - 1) eqn:E; [lia|reflexivity].
    + simpl scan_buffer.
      destruct (len A <? len (A ++ x :: y :: l) - 1); [|reflexivity].
      change ((x :: y :: l) ++ stale) with (x :: y :: l ++ stale).
      rewrite char_at_app, char_at_app_next.
      simpl crlf_free in Hfree. apply andb_true_iff in Hfree as [H1 H2].
      apply negb_true_iff in H1. rewrite H1.
      replace (A ++ x :: y :: l ++ stale) with ((A ++ [x]) ++ (y :: l) ++ stale)
        by (now rewrite <- app_assoc).
      replace (A ++ x :: y :: l) with ((A ++ [x]) ++ y :: l)
        by (now rewrite <- app_assoc).
      replace (len A + 1) with (len (A ++ [x])) by (rewrite len_app; reflexivity).
      apply IH. exact H2.
Qed.

(** A read that returns 0 when the valid bytes hold no boundary. *)
Lemma client_loop_read_zero fuel buffer off c sock :
  0 <= off < buffer_size -> len buffer = buffer_size ->
  crlf_free (drop 1 (take (Z.to_nat off) buffer)) = true ->
  client_loop handle (S fuel) buffer off c (Data [] :: sock)
  = client_loop handle fuel buffer off c sock.
Proof.
  intros Ho Hl Hfree. rewrite client_loop_step. simpl read.
  change (len []) with 0.
  destruct (0 <=? buffer_size - off) eqn:E; [|lia].
  change (0 =? -1) with false. cbv zeta.
  rewrite Z.add_0_r. change ([] ++ ?x) with x. rewrite take_drop.
  assert (Hp : process_buffered_messages_with handle buffer buffer_size off c
               = ([], Ok (0, c))).
  { unfold process_buffered_messages_with.
    assert (Hs : scan_buffer handle (Z.to_nat (off - 1 - 1)) buffer off 1 0 c
                 = ([], Ok (0, c))).
    { destruct (Z.eq_dec off 0) as [->|Hne]; [reflexivity|].
      rewrite <- (take_drop (Z.to_nat off) buffer) at 1.
      destruct (take (Z.to_nat off) buffer) as [|x l] eqn:Et.
      { apply (f_equal (@length ascii)) in Et. rewrite length_take in Et.
        unfold len in Hl. simpl in Et. lia. }
      assert (Hoff : off = len ([x] ++ l)).
      { change ([x] ++ l) with (x :: l). rewrite <- Et. unfold len in *.
        rewrite length_take. lia. }
      rewrite Hoff at 2 3.
      change ((x :: l) ++ ?s) with ([x] ++ l ++ s).
      apply (scan_buffer_crlf_free_stale l [x]). exact Hfree. }
    rewrite Hs. simpl. destruct (off =? buffer_size) eqn:E'; [lia|reflexivity]. }
  rewrite Hp. unfold memcpy. change (0 <? 0) with false.
  pose proof (len_nonneg (drop (Z.to_nat 0) buffer)).
  destruct (len (drop (Z.to_nat 0) buffer) <? 0) eqn:E1; [lia|].
  destruct (len buffer <? 0) eqn:E2; [lia|]. simpl.
  rewrite Z.sub_0_r. change (drop (Z.to_nat 0) buffer) with buffer.
  now destruct (client_loop handle fuel buffer off c sock).
Qed.

End LoopFacts.

(** X11: the state in which the connection loop waits.  After any
    arrivals, a loop that still runs has consumed all of them, has a
    buffer of [buffer_size] bytes and a write offset below [buffer_size]:
    [read] is never offered a room of zero bytes. *)
Theorem connection_loop_invariant (RPL_WELCOME : list ascii) (c : client)
    (sock : list arrival) (t : list event) (buffer : list ascii) (off : Z)
    (c' : client) (sock' : list arrival) :
  process_client_messages RPL_WELCOME c sock = (t, Ok (buffer, off, c', sock')) ->
  sock' = [] /\ 0 <= off < buffer_size /\ len buffer = buffer_size.
Proof.
  unfold process_client_messages. intros H.
  assert (H0 : 0 <= 0 < buffer_size) by (unfold buffer_size; lia).
  destruct (client_loop_drains _ _ _ _ _ _ _ _ _ _ _ H0 (Nat.le_refl _) H)
    as [Hs Ho].
  assert (Hm : len (malloc buffer_size) = buffer_size) by reflexivity.
  destruct (client_loop_invariant _ _ _ _ _ _ _ _ _ _ _ H0 Hm H) as [_ Hl].
  auto.
Qed.

Lemma connection_loop_invariant_witness :
  process_client_messages (bytes "001") (new_client 4)
    [Data (bytes "NICK a" ++ crlf ++ bytes "US")]
  = (trace_of (process_client_messages (bytes "001") (new_client 4)
                 [Data (bytes "NICK a" ++ crlf ++ bytes "US")]),
     Ok (bytes "US" ++ replicate 6 NUL ++ bytes "US" ++ replicate 1014 NUL, 2,
         set_nick (new_client 4) (Some (bytes "a")), []))
  /\ [] = @nil arrival /\ 0 <= 2 < buffer_size
  /\ len (bytes "US" ++ replicate 6 NUL ++ bytes "US" ++ replicate 1014 NUL)
     = buffer_size.
Proof.
  assert (H : process_client_messages (bytes "001") (new_client 4)
                [Data (bytes "NICK a" ++ crlf ++ bytes "US")]
              = (trace_of (process_client_messages (bytes "001") (new_client 4)
                             [Data (bytes "NICK a" ++ crlf ++ bytes "US")]),
                 Ok (bytes "US" ++ replicate 6 NUL ++ bytes "US" ++ replicate 1014 NUL,
                     2, set_nick (new_client 4) (Some (bytes "a")), [])))
    by (vm_compute; reflexivity).
  split; [exact H|].
  exact (connection_loop_invariant _ _ _ _ _ _ _ _ H).
Defined.

(** X12: a closed socket.  When the peer has closed the connection
    [read] returns 0; in a state whose valid bytes hold no boundary (as
    after a compaction that kept the bytes left over) the iteration then
    changes nothing, logs nothing and calls [read] again: after any number
    of such reads the loop is where it was, it never ends on a closed
    socket. *)
Theorem closed_socket_spins {St : Type}
    (handle : list ascii -> Z -> St -> M St) (k fuel : nat)
    (buffer : list ascii) (off : Z) (c : St) (sock : list arrival) :
  0 <= off < buffer_size -> len buffer = buffer_size ->
  crlf_free (drop 1 (take (Z.to_nat off) buffer)) = true ->
  client_loop handle (k + fuel) buffer off c (replicate k (Data []) ++ sock)
  = client_loop handle fuel buffer off c sock.
Proof.
  intros Ho Hl Hfree. induction k as [|k IH]; [reflexivity|].
  change (S k + fuel)%nat with (S (k + fuel)).
  change (replicate (S k) (Data []) ++ sock)
    with (Data [] :: replicate k (Data []) ++ sock).
  rewrite client_loop_read_zero by assumption. exact IH.
Qed.

Lemma closed_socket_spins_witness :
  0 <= 0 < buffer_size /\ len (malloc buffer_size) = buffer_size
  /\ process_client_messages (bytes "001") (new_client 4)
       [Data []; Data []; Data []]
     = ([], Ok (malloc buffer_size, 0, new_client 4, [])).
Proof.
  assert (H0 : 0 <= 0 < buffer_size) by (unfold buffer_size; lia).
  split; [exact H0|]. split; [reflexivity|].
  exact (closed_socket_spins (process_message (bytes "001")) 3 0
           (malloc buffer_size) 0 (new_client 4) [] H0 eq_refl eq_refl).
Defined.

(** ** The command interpreter on every frame *)

Lemma is_command_false m cmd name :
  command m = Some cmd -> is_command m name = strcmp_eq cmd (bytes name).
Proof. unfold is_command. now intros ->. Qed.

(** X13: the memory errors of [process_message]: it ends in one exactly
    when the parse does, or when the command is NICK without an argument,
    or USER with fewer than four; it never leaves through [exit]. *)
Theorem process_message_fault_iff (RPL_WELCOME s : list ascii) (n : Z)
    (c : client) :
  (result_of (process_message RPL_WELCOME s n c) = Fault
   <-> result_of (parse_message s n) = Fault
       \/ exists m, result_of (parse_message s n) = Ok m
            /\ ((is_command m "NICK" = true /\ numArgs m < 1)
                \/ (is_command m "USER" = true /\ numArgs m < 4)))
  /\ (result_of (process_message RPL_WELCOME s n c) = Fault
      \/ exists c', result_of (process_message RPL_WELCOME s n c) = Ok c').
Proof.
  destruct (parse_message s n) as [t [m| |z]] eqn:Hp.
  - destruct (parse_message_shape _ _ _ _ Hp) as (H0 & Hl & Hf & [cmd Hc]).
    assert (Hmw : forall c0, exists c1,
              result_of (maybe_welcome RPL_WELCOME c0) = Ok c1).
    { intros c0. pose proof (maybe_welcome_spec RPL_WELCOME c0) as Hw.
      destruct (nick c0); [destruct (username c0);
        [destruct (welcomeMessageSent c0)|]|]; rewrite Hw; eauto. }
    unfold result_of at 2 3. cbn [snd].
    destruct (strcmp_eq cmd (bytes "NICK")) eqn:E1;
      [|destruct (strcmp_eq cmd (bytes "USER")) eqn:E2].
    + rewrite (process_message_NICK _ _ _ _ _ _ _ Hp Hc E1).
      destruct (Z.lt_ge_cases (numArgs m) 1) as [Hlt|Hge].
      * rewrite (get_arg_out_of_range m 0) by lia. split; [|auto].
        split; [|reflexivity]. intros _. right. exists m. split; [reflexivity|].
        left. rewrite (is_command_false m cmd) by assumption. auto.
      * destruct (Hf 0 ltac:(lia)) as [v Hv].
        rewrite (get_arg_in_range m 0 (Some v)) by (try lia; assumption).
        destruct (Hmw (set_nick c (Some v))) as [c1 Hc1].
        unfold result_of at 1 4 5. cbn [snd]. rewrite Hc1.
        split; [|eauto]. split; [discriminate|].
        intros [H|(m' & [= <-] & [[_ H]|[H _]])]; try discriminate; try lia.
        rewrite (is_command_false m cmd) in H by assumption.
        rewrite (strcmp_USER_not_NICK _ H) in E1. discriminate.
    + rewrite (process_message_USER _ _ _ _ _ _ _ Hp Hc E2).
      destruct (Z.lt_ge_cases (numArgs m) 4) as [Hlt|Hge].
      * assert (Hfault : match get_arg m 0 with
                         | Ok (a0, m1) =>
                           match get_arg m1 3 with
                           | Ok _ => True | _ => False end
                         | _ => False end -> False).
        { destruct (get_arg m 0) as [[a0 m1]| |z] eqn:G0; auto.
          destruct (get_arg_parsed m 0 _ _ Hf Hl ltac:(lia) G0)
            as (v0 & -> & -> & _).
          rewrite (get_arg_out_of_range (set_arg m 0 None) 3); [auto|].
          unfold len in *. simpl. rewrite length_insert. lia. }
        assert (Hres : result_of
                  match get_arg m 0 with
                  | Ok (a0, m1) =>
                    match get_arg m1 3 with
                    | Ok (a3, _) =>
                      let c' := set_fullName (set_username c a0) a3 in
                      (t ++ Chilog INFO "Processing USER" []
                         :: Chilog INFO "Parsed username: %s" [log_str a0]
                         :: Chilog INFO "Parsed fullName: %s" [log_str a3]
                         :: trace_of (maybe_welcome RPL_WELCOME c'),
                       result_of (maybe_welcome RPL_WELCOME c'))
                    | Fault => (t ++ [Chilog INFO "Processing USER" []], Fault)
                    | Exited z =>
                      (t ++ [Chilog INFO "Processing USER" []], Exited z)
                    end
                  | Fault => (t ++ [Chilog INFO "Processing USER" []], Fault)
                  | Exited z => (t ++ [Chilog INFO "Processing USER" []], Exited z)
                  end = Fault).
        { destruct (get_arg m 0) as [[a0 m1]| |z] eqn:G0; try reflexivity.
          - destruct (get_arg m1 3) as [[a3 m2]| |z] eqn:G3; try reflexivity.
            + exfalso. apply Hfault. exact I.
            + unfold get_arg in G3. destruct (3 <? 0); [discriminate|].
              destruct (args m1 !! Z.to_nat 3); discriminate.
          - unfold get_arg in G0. destruct (0 <? 0); [discriminate|].
            destruct (args m !! Z.to_nat 0); discriminate. }
        rewrite Hres. split; [|auto]. split; [|reflexivity].
        intros _. right. exists m. split; [reflexivity|]. right.
        rewrite (is_command_false m cmd) by assumption. auto.
      * destruct (Hf 0 ltac:(lia)) as [v0 Hv0].
        destruct (Hf 3 ltac:(lia)) as [v3 Hv3].
        rewrite (get_arg_in_range m 0 (Some v0)) by (try lia; assumption).
        rewrite (get_arg_in_range (set_arg m 0 None) 3 (Some v3)).
        2: lia.
        2:{ simpl. rewrite list_lookup_insert_ne by lia. assumption. }
        cbv zeta.
        destruct (Hmw (set_fullName (set_username c (Some v0)) (Some v3)))
          as [c1 Hc1].
        unfold result_of at 1 4 5. cbn [snd]. rewrite Hc1.
        split; [|eauto]. split; [discriminate|].
        intros [H|(m' & [= <-] & [[H _]|[_ H]])]; try discriminate; try lia.
        rewrite (is_command_false m cmd) in H by assumption. congruence.
    + rewrite (process_message_other _ _ _ _ _ _ _ Hp Hc E1 E2).
      destruct (Hmw c) as [c1 Hc1].
      unfold result_of at 1 4 5. cbn [snd]. rewrite Hc1.
      split; [|eauto]. split; [discriminate|].
      intros [H|(m' & [= <-] & [[H _]|[H _]])]; try discriminate;
        rewrite (is_command_false m cmd) in H by assumption; congruence.
  - rewrite (process_message_parse_fault _ _ _ _ _ Hp). simpl.
    split; [|auto]. split; auto.
  - exfalso. apply (parse_message_never_exits s n z). now rewrite Hp.
Qed.

Lemma result_trace {A} (p : M A) : p = (trace_of p, result_of p).
Proof. now destruct p. Qed.

Lemma maybe_welcome_fields RPL c :
  exists c', result_of (maybe_welcome RPL c) = Ok c'
    /\ nick c' = nick c /\ username c' = username c
    /\ fullName c' = fullName c /\ sockfd c' = sockfd c.
Proof.
  pose proof (maybe_welcome_spec RPL c) as Hw.
  destruct (nick c) eqn:En; [destruct (username c) eqn:Eu;
    [destruct (welcomeMessageSent c) eqn:Es|]|]; rewrite Hw; eexists;
    (split; [reflexivity|]); repeat split; simpl; auto.
Qed.

(** X14: a NICK message.  For every client, the frame [NICK v], [v]
    a non-empty token without space or colon, is processed without error:
    [nick] becomes [v] and the other fields of the session stay as they
    were (the flag apart, which the welcome may set). *)
Theorem nick_message_sets_nick (RPL_WELCOME : list ascii) (c : client)
    (v : list ascii) :
  plain v -> v <> [] ->
  exists c',
    result_of (process_message RPL_WELCOME (bytes "NICK " ++ v)
                 (len (bytes "NICK " ++ v)) c) = Ok c'
    /\ nick c' = Some v /\ username c' = username c
    /\ fullName c' = fullName c /\ sockfd c' = sockfd c.
Proof.
  intros Hv Hne.
  assert (Hp : parse_frame (bytes "NICK " ++ v)
               = Ok (msg_of_tokens ([bytes "NICK"] ++ [v]))).
  { rewrite parse_message_lex.
    apply (parse_spec_no_colon [bytes "NICK"] v); auto. plain_tokens. }
  unfold parse_frame in Hp. apply result_of_eq in Hp.
  rewrite (process_message_NICK _ _ _ _ _ _ (bytes "NICK") Hp eq_refl eq_refl).
  simpl get_arg. cbv iota.
  destruct (maybe_welcome_fields RPL_WELCOME (set_nick c (Some v)))
    as (c' & Hc' & H1 & H2 & H3 & H4).
  exists c'. unfold result_of at 1. cbn [snd]. auto.
Qed.

Lemma nick_message_sets_nick_witness :
  plain (bytes "alice") /\ bytes "alice" <> []
  /\ exists c',
       result_of (process_message (bytes "001") (bytes "NICK alice") 10
                    (new_client 4)) = Ok c'
       /\ nick c' = Some (bytes "alice") /\ username c' = None
       /\ fullName c' = None /\ sockfd c' = 4.
Proof.
  assert (H1 : plain (bytes "alice")) by plain_tokens.
  assert (H2 : bytes "alice" <> []) by discriminate.
  split; [exact H1|]. split; [exact H2|].
  exact (nick_message_sets_nick (bytes "001") (new_client 4) (bytes "alice")
           H1 H2).
Defined.

(** X15: a USER message.  For every client, the frame
    [USER u a b :full], [u], [a] and [b] tokens without space or colon and
    [full] any bytes, is processed without error: [username] becomes [u]
    and [fullName] becomes [full], spaces and colons included; [nick] and
    the socket stay as they were. *)
Theorem user_message_sets_names (RPL_WELCOME : list ascii) (c : client)
    (u a b full : list ascii) :
  plain u -> plain a -> plain b ->
  let frame := spaced [bytes "USER"; u; a; b] ++ COLON :: full in
  exists c',
    result_of (process_message RPL_WELCOME frame (len frame) c) = Ok c'
    /\ username c' = Some u /\ fullName c' = Some full
    /\ nick c' = nick c /\ sockfd c' = sockfd c.
Proof.
  intros Hu Ha Hb frame.
  assert (Hp : parse_frame frame
               = Ok (msg_of_tokens ([bytes "USER"; u; a; b]
                                    ++ [drop 1 ([] ++ COLON :: full)]))).
  { rewrite parse_message_lex.
    apply (parse_spec_colon [bytes "USER"; u; a; b] [] full).
    - constructor; [plain_tokens|].
      repeat (constructor; [assumption|]). constructor.
    - constructor. }
  unfold parse_frame in Hp. apply result_of_eq in Hp.
  rewrite (process_message_USER _ _ _ _ _ _ (bytes "USER") Hp eq_refl eq_refl).
  simpl get_arg. cbv iota zeta.
  destruct (maybe_welcome_fields RPL_WELCOME
              (set_fullName (set_username c (Some u)) (Some full)))
    as (c' & Hc' & H1 & H2 & H3 & H4).
  exists c'. unfold result_of at 1. cbn [snd]. auto.
Qed.

Lemma user_message_sets_names_witness :
  plain (bytes "bob") /\ plain (bytes "0") /\ plain (bytes "*")
  /\ exists c',
       result_of (process_message (bytes "001") (bytes "USER bob 0 * :Bob: Smith")
                    24 (new_client 4)) = Ok c'
       /\ username c' = Some (bytes "bob")
       /\ fullName c' = Some (bytes "Bob: Smith")
       /\ nick c' = None /\ sockfd c' = 4.
Proof.
  assert (H1 : plain (bytes "bob")) by plain_tokens.
  assert (H2 : plain (bytes "0")) by plain_tokens.
  assert (H3 : plain (bytes "*")) by plain_tokens.
  split; [exact H1|]. split; [exact H2|]. split; [exact H3|].
  exact (user_message_sets_names (bytes "001") (new_client 4) (bytes "bob")
           (bytes "0") (bytes "*") (bytes "Bob: Smith") H1 H2 H3).
Defined.

(** X16: any other command.  When the command of a parsed frame is neither
    NICK nor USER (the comparison is that of [strcmp]: exact, and on the
    bytes before a NUL), the message is logged once at ERROR as unexpected
    after the parser's DEBUG lines, nothing is written to the socket and,
    on a client whose flag agrees with its names, the session is left as it
    was. *)
Theorem other_command_ignored (RPL_WELCOME s : list ascii) (n : Z)
    (c : client) (m : msg) (cmd : list ascii) :
  result_of (parse_message s n) = Ok m -> command m = Some cmd ->
  is_command m "NICK" = false -> is_command m "USER" = false ->
  welcomeMessageSent c = has_identity c ->
  process_message RPL_WELCOME s n c
  = (trace_of (parse_message s n)
     ++ [Chilog ERROR "Unexpected command %s" [LStr (cstr cmd)]], Ok c).
Proof.
  intros Hp Hc H1 H2 Hinv. apply result_of_eq in Hp.
  rewrite (is_command_false m cmd) in H1, H2 by assumption.
  rewrite (process_message_other _ _ _ _ _ _ _ Hp Hc H1 H2).
  pose proof (maybe_welcome_spec RPL_WELCOME c) as Hw.
  unfold has_identity in Hinv.
  destruct (nick c); [destruct (username c)|];
    try (rewrite Hw; reflexivity).
  destruct (welcomeMessageSent c); [|discriminate]. rewrite Hw. reflexivity.
Qed.

Lemma other_command_ignored_witness :
  result_of (parse_message (bytes "nick bob") 8)
  = Ok {| command := Some (bytes "nick"); args := [Some (bytes "bob")];
          numArgs := 1 |}
  /\ result_of (process_message (bytes "001") (bytes "nick bob") 8 (new_client 4))
     = Ok (new_client 4).
Proof.
  assert (H : result_of (parse_message (bytes "nick bob") 8)
              = Ok {| command := Some (bytes "nick");
                      args := [Some (bytes "bob")]; numArgs := 1 |})
    by (vm_compute; reflexivity).
  split; [exact H|].
  rewrite (other_command_ignored (bytes "001") (bytes "nick bob") 8
             (new_client 4) _ (bytes "nick") H eq_refl eq_refl eq_refl eq_refl).
  reflexivity.
Defined.

(** X17: what [process_message] never undoes.  Whatever the frame, a
    message that is processed without error leaves the socket as it was,
    leaves a nick and a username that were set not NULL, and leaves a flag
    that was set set. *)
Theorem process_message_monotone (RPL_WELCOME s : list ascii) (n : Z)
    (c c' : client) :
  result_of (process_message RPL_WELCOME s n c) = Ok c' ->
  sockfd c' = sockfd c
  /\ (nick c <> None -> nick c' <> None)
  /\ (username c <> None -> username c' <> None)
  /\ (welcomeMessageSent c = true -> welcomeMessageSent c' = true).
Proof.
  intros H. pose proof (process_message_welcome_step RPL_WELCOME s n c) as Hs.
  unfold welcome_step in Hs. rewrite H in Hs.
  destruct Hs as (Hfd & Hn & Hu & Hw). split; [exact Hfd|].
  split; [|split].
  - intros Hne. destruct (nick c) as [x|] eqn:E; [|congruence].
    specialize (Hn eq_refl). destruct (nick c'); [discriminate|discriminate].
  - intros Hne. destruct (username c) as [x|] eqn:E; [|congruence].
    specialize (Hu eq_refl). destruct (username c'); [discriminate|discriminate].
  - intros Hs. rewrite Hs, andb_false_r in Hw. destruct Hw as [Hw _]. congruence.
Qed.

Lemma process_message_monotone_witness :
  result_of (process_message (bytes "001") (bytes "PING") 4
               (set_nick (new_client 4) (Some (bytes "a"))))
  = Ok (set_nick (new_client 4) (Some (bytes "a")))
  /\ sockfd (set_nick (new_client 4) (Some (bytes "a"))) = 4.
Proof.
  assert (H : result_of (process_message (bytes "001") (bytes "PING") 4
                           (set_nick (new_client 4) (Some (bytes "a"))))
              = Ok (set_nick (new_client 4) (Some (bytes "a"))))
    by (vm_compute; reflexivity).
  split; [exact H|].
  exact (proj1 (process_message_monotone _ _ _ _ _ H)).
Defined.

(** ** [free_message] *)

(** X18: [get_arg] and [free_message].  On a parsed message
    [free_message] releases the strings of all [numArgs] arguments; after
    a [get_arg] inside the array it releases all of them but the one that
    was handed out, which stays with the caller. *)
Theorem free_message_spares_fetched (s : list ascii) (n : Z) (m : msg) (i : Z) :
  result_of (parse_message s n) = Ok m -> 0 <= i < numArgs m ->
  exists v m',
    get_arg m i = Ok (Some v, m')
    /\ map Some (free_message m) = args m
    /\ free_message m
       = take (Z.to_nat i) (free_message m) ++ v
         :: drop (S (Z.to_nat i)) (free_message m)
    /\ free_message m'
       = take (Z.to_nat i) (free_message m)
         ++ drop (S (Z.to_nat i)) (free_message m).
Proof.
  intros Hp Hi.
  destruct (parse_message_result_shape _ _ _ Hp) as (_ & Hl & Hf & _).
  destruct (Hf i Hi) as [v Hv].
  assert (Hall : map Some (free_message m) = args m).
  { unfold free_message. clear Hv. revert Hf Hl. generalize (numArgs m).
    unfold filled. generalize (args m). clear.
    induction l as [|a l IH]; intros z Hf Hl; [reflexivity|].
    destruct (Hf 0) as [v0 Hv0].
    { rewrite len_cons in Hl. pose proof (len_nonneg l). lia. }
    simpl in Hv0. injection Hv0 as ->. simpl. f_equal.
    apply (IH (z - 1)).
    - intros i Hi. destruct (Hf (i + 1) ltac:(lia)) as [w Hw].
      exists w. replace (Z.to_nat (i + 1)) with (S (Z.to_nat i)) in Hw by lia.
      exact Hw.
    - rewrite len_cons in Hl. lia. }
  assert (Hlook : free_message m !! Z.to_nat i = Some v).
  { apply (f_equal (fun l => l !! Z.to_nat i)) in Hall.
    rewrite list_lookup_fmap, Hv in Hall.
    destruct (free_message m !! Z.to_nat i); simpl in Hall; congruence. }
  exists v, (set_arg m i None).
  split; [apply get_arg_in_range; [lia|assumption]|].
  split; [exact Hall|]. split.
  - symmetry. apply take_drop_middle. exact Hlook.
  - rewrite (free_message_after_get_arg m i v) by (try lia; assumption).
    remember (free_message m) as fm eqn:Efm. clear Efm. rewrite <- Hall.
    assert (Hid : forall l : list (list ascii), omap id (map Some l) = l).
    { induction l as [|x l IH]; [reflexivity|]. simpl. f_equal. exact IH. }
    change (take ?k (map Some fm)) with (firstn k (map Some fm)).
    change (drop ?k (map Some fm)) with (skipn k (map Some fm)).
    rewrite firstn_map, skipn_map, !Hid. reflexivity.
Qed.

Lemma free_message_spares_fetched_witness :
  result_of (parse_message user_frame 23) = Ok user_msg
  /\ 0 <= 3 < numArgs user_msg
  /\ exists m',
       get_arg user_msg 3 = Ok (Some (bytes "Bob Smith"), m')
       /\ free_message m' = [bytes "bob"; bytes "0"; bytes "0"].
Proof.
  assert (H : 0 <= 3 < numArgs user_msg) by (simpl; lia).
  split; [exact parse_user_frame|]. split; [exact H|].
  destruct (free_message_spares_fetched user_frame 23 user_msg 3
              parse_user_frame H) as (v & m' & Hg & _ & _ & Hf).
  exists m'. simpl in Hg. injection Hg as <- <-.
  split; [reflexivity|exact Hf].
Defined.

(** ** Reads that deliver whole messages *)

Lemma crlf_free_tail x l : crlf_free (x :: l) = true -> crlf_free l = true.
Proof.
  destruct l as [|d l]; [reflexivity|]. simpl.
  intros H. now apply andb_true_iff in H as [_ H].
Qed.

Lemma split_crlf_frame f : forall cur l,
  crlf_free f = true ->
  split_crlf cur (f ++ CR :: LF :: l)
  = let '(frames, rem) := split_crlf [] l in ((cur ++ f) :: frames, rem).
Proof.
  induction f as [|c f IH]; intros cur l Hfree.
  - simpl app. rewrite split_crlf_cons2, app_nil_r. reflexivity.
  - destruct f as [|d f].
    + simpl app. rewrite split_crlf_cons2.
      replace (Ascii.eqb c CR && Ascii.eqb CR LF) with false
        by (now rewrite andb_false_r).
      rewrite split_crlf_cons2. cbn [Ascii.eqb CR LF Bool.eqb andb].
      reflexivity.
    + simpl app. rewrite split_crlf_cons2.
      simpl crlf_free in Hfree. apply andb_true_iff in Hfree as [H1 H2].
      apply negb_true_iff in H1. rewrite H1.
      change (d :: f ++ CR :: LF :: l) with ((d :: f) ++ CR :: LF :: l).
      rewrite IH by exact H2. rewrite <- app_assoc. reflexivity.
Qed.

Lemma split_crlf_join_frames frames :
  Forall (fun frame => crlf_free frame = true) frames ->
  split_crlf [] (join_crlf frames) = (frames, []).
Proof.
  induction 1 as [|f frames Hf _ IH]; [reflexivity|].
  simpl join_crlf. rewrite split_crlf_frame by assumption. now rewrite IH.
Qed.

Lemma whole_messages_split frames :
  whole_messages frames ->
  exists x l, join_crlf frames = x :: l /\ split_crlf [x] l = (frames, []).
Proof.
  intros (Hne & Hhd & Hfree & _).
  destruct frames as [|[|x f1] frames];
    [congruence|exfalso; now apply Hhd|].
  inversion Hfree as [|f fs Hf1 Hfs]; subst.
  exists x, (f1 ++ CR :: LF :: join_crlf frames). split; [reflexivity|].
  rewrite split_crlf_frame by (eapply crlf_free_tail; eauto).
  now rewrite split_crlf_join_frames.
Qed.

Lemma aligned_reads_loop chunks : forall fuel buffer seen,
  Forall whole_messages chunks -> len buffer = buffer_size ->
  (length chunks <= fuel)%nat ->
  exists buffer',
    client_loop record_frame fuel buffer 0 seen
      (map (fun frames => Data (join_crlf frames)) chunks)
    = ([], Ok (buffer', 0, seen ++ concat chunks, []))
    /\ len buffer' = buffer_size.
Proof.
  induction chunks as [|frames chunks IH]; intros fuel buffer seen Hw Hl Hfuel.
  - exists buffer. split; [|assumption]. simpl. rewrite app_nil_r.
    destruct fuel; reflexivity.
  - inversion Hw as [|f fs Hframes Hrest]; subst.
    destruct fuel as [|fuel]; [simpl in Hfuel; lia|].
    destruct (whole_messages_split _ Hframes) as (x & l & Hj & Hs).
    destruct Hframes as (Hne & _ & _ & Hhalf).
    pose proof (client_loop_one_read record_frame fuel [] buffer
                  (join_crlf frames) x l
                  (map (fun frames => Data (join_crlf frames)) chunks) seen
                  record_frame_reads_frame_only Hl) as Hit.
    pose proof (len_nonneg (join_crlf frames)) as Hj0.
    specialize (Hit ltac:(unfold buffer_size in *; lia) Hj).
    rewrite Hs in Hit. cbv zeta in Hit.
    destruct Hit as (buffer1 & He & Hl1 & _).
    { congruence. }
    { change (len []) with 0. rewrite <- Hj. lia. }
    change ([] ++ buffer) with buffer in He. change (len []) with 0 in He.
    simpl map. rewrite He, handle_frames_record, bind_ret_l.
    destruct (IH fuel buffer1 (seen ++ frames) Hrest Hl1
                ltac:(simpl in Hfuel; lia)) as (buffer2 & He2 & Hl2).
    exists buffer2. split; [|assumption].
    rewrite He2. simpl concat. now rewrite app_assoc.
Qed.

Lemma enough_fuel_length sock : (length sock <= enough_fuel sock)%nat.
Proof. induction sock as [|[bs|] sock IH]; simpl; lia. Qed.

(** X19: reads that deliver whole messages.  When every read
    delivers one or more complete CR LF terminated messages, no more than
    half a buffer of them, the first one not empty, every message is
    dispatched, in the order of arrival, and nothing else is. *)
Theorem aligned_reads_dispatch_all (chunks : list (list (list ascii))) :
  Forall whole_messages chunks ->
  frames_dispatched (map (fun frames => Data (join_crlf frames)) chunks)
  = Ok (concat chunks).
Proof.
  intros Hw. unfold frames_dispatched, frames_of_reads.
  destruct (aligned_reads_loop chunks
              (enough_fuel (map (fun frames => Data (join_crlf frames)) chunks))
              (malloc buffer_size) [] Hw eq_refl) as (buffer' & He & _).
  { rewrite <- (length_map (fun frames => Data (join_crlf frames)) chunks).
    apply enough_fuel_length. }
  rewrite He. reflexivity.
Qed.

Lemma aligned_reads_dispatch_all_witness :
  Forall whole_messages [[bytes "NICK a"; bytes "USER b c d :e"]; [bytes "PING"]]
  /\ frames_dispatched
       [Data (bytes "NICK a" ++ crlf ++ bytes "USER b c d :e" ++ crlf);
        Data (bytes "PING" ++ crlf)]
     = Ok [bytes "NICK a"; bytes "USER b c d :e"; bytes "PING"].
Proof.
  assert (H : Forall whole_messages
                [[bytes "NICK a"; bytes "USER b c d :e"]; [bytes "PING"]]).
  { repeat constructor; try discriminate; vm_compute; discriminate. }
  split; [exact H|].
  exact (aligned_reads_dispatch_all _ H).
Defined.

(** ** No boundary is missed after the first byte *)

Lemma split_crlf_scanned n : forall l cur,
  (length l <= n)%nat ->
  let '(frames, rem) := split_crlf cur l in
  (frames = [] -> crlf_free l = true /\ rem = cur ++ l)
  /\ (forall f fs, frames = f :: fs ->
        exists f1 l', f = cur ++ f1 /\ l = f1 ++ CR :: LF :: l'
          /\ crlf_free f1 = true
          /\ Forall (fun frame => crlf_free frame = true) fs
          /\ crlf_free rem = true).
Proof.
  induction n as [n IH] using lt_wf_ind. intros l cur Hn.
  destruct l as [|c [|d l2]].
  - simpl. rewrite app_nil_r. split; [auto|discriminate].
  - simpl. split; [auto|discriminate].
  - rewrite split_crlf_cons2.
    destruct (Ascii.eqb c CR && Ascii.eqb d LF) eqn:E.
    + apply andb_true_iff in E as [E1 E2].
      apply Ascii.eqb_eq in E1, E2. subst c d.
      specialize (IH (length l2) ltac:(simpl in Hn; lia) l2 [] (Nat.le_refl _)).
      destruct (split_crlf [] l2) as [frames rem].
      destruct IH as [Hnil Hcons]. split; [discriminate|].
      intros f fs [= <- <-]. exists [], l2.
      split; [now rewrite app_nil_r|]. split; [reflexivity|].
      split; [reflexivity|].
      destruct frames as [|g gs].
      * destruct (Hnil eq_refl) as [Hfree ->]. split; [constructor|exact Hfree].
      * destruct (Hcons g gs eq_refl) as (f1 & l' & -> & Hl & Hf1 & Hfs & Hrem).
        split; [|exact Hrem]. constructor; assumption.
    + specialize (IH (length (d :: l2)) ltac:(simpl in Hn |- *; lia)
                     (d :: l2) (cur ++ [c]) (Nat.le_refl _)).
      destruct (split_crlf (cur ++ [c]) (d :: l2)) as [frames rem].
      destruct IH as [Hnil Hcons]. split.
      * intros Hf. destruct (Hnil Hf) as [Hfree ->]. rewrite <- app_assoc.
        split; [|reflexivity]. simpl. rewrite E. simpl. exact Hfree.
      * intros f fs Hf.
        destruct (Hcons f fs Hf) as (f1 & l' & -> & Hl & Hf1 & Hfs & Hrem).
        exists (c :: f1), l'. rewrite <- app_assoc.
        split; [reflexivity|]. split; [simpl; now rewrite Hl|].
        split; [|auto].
        destruct f1 as [|d' f1]; [reflexivity|].
        simpl in Hl. injection Hl as <- _.
        simpl. rewrite E. simpl. exact Hf1.
Qed.

(** What [dispatched] returns, by [split_crlf]. *)
Lemma dispatched_inv (x : ascii) (l stale : list ascii) (consumed : Z)
    (frames : list (list ascii)) :
  dispatched ((x :: l) ++ stale) buffer_size (len (x :: l))
  = Ok (consumed, frames) ->
  exists rem,
    split_crlf [x] l = (frames, rem)
    /\ consumed
       = if match frames with [] => true | _ :: _ => false end
            && (len (x :: l) =? buffer_size)
         then buffer_size else len (x :: l) - len rem.
Proof.
  pose proof (splitter_frames record_frame x l stale
                buffer_size [] record_frame_reads_frame_only) as H1.
  unfold dispatched. rewrite H1.
  destruct (split_crlf [x] l) as [frames' rem].
  rewrite handle_frames_record, bind_ret_l. cbn [app].
  intros H. exists rem.
  destruct (match frames' with [] => true | _ :: _ => false end
            && (len (x :: l) =? buffer_size)) eqn:E;
    injection H as <- <-; rewrite E; auto.
Qed.

Lemma split_crlf_rem (x : ascii) (l : list ascii) frames rem :
  split_crlf [x] l = (frames, rem) ->
  x :: l = join_crlf frames ++ rem
  /\ len (x :: l) - len rem = len (join_crlf frames)
  /\ (frames = [] -> rem = x :: l).
Proof.
  intros H. pose proof (split_crlf_app l [x]) as Hj. rewrite H in Hj.
  destruct Hj as (Hj & Hnil & _). simpl in Hj, Hnil.
  split; [exact Hj|]. split; [|exact Hnil].
  rewrite Hj at 1. rewrite len_app. lia.
Qed.

(** X6: the splitter loses and invents nothing.  Unless the buffer is
    dropped as full, the frames it dispatches, each with its CR LF, are
    the first [consumed] bytes of the buffer, [consumed] being the offset
    it returns: the bytes from there on are what is left for later, and
    nothing is consumed when nothing is dispatched. *)
Theorem dispatched_frames_are_the_bytes (x : ascii) (l stale : list ascii)
    (consumed : Z) (frames : list (list ascii)) :
  dispatched ((x :: l) ++ stale) buffer_size (len (x :: l))
  = Ok (consumed, frames) ->
  frames <> [] \/ len (x :: l) < buffer_size ->
  0 <= consumed <= len (x :: l)
  /\ take (Z.to_nat consumed) (x :: l) = join_crlf frames
  /\ (frames = [] -> consumed = 0)
  /\ (frames <> [] -> 2 <= consumed).
Proof.
  intros H Hfit. apply dispatched_inv in H as (rem & Hs & Hc).
  destruct (split_crlf_rem x l frames rem Hs) as (Hj & Hlen & Hnil).
  assert (Hc' : consumed = len (join_crlf frames)).
  { rewrite Hc, <- Hlen.
    destruct frames; [|reflexivity].
    destruct (len (x :: l) =? buffer_size) eqn:E; [|reflexivity].
    apply Z.eqb_eq in E. destruct Hfit; [congruence|lia]. }
  pose proof (len_nonneg rem). pose proof (len_nonneg (join_crlf frames)).
  split; [lia|]. split; [|split].
  - rewrite Hc', Hj. unfold len. rewrite Nat2Z.id. apply take_app_length.
  - intros ->. rewrite Hc'. reflexivity.
  - intros Hne. rewrite Hc'. destruct frames as [|f fs]; [congruence|].
    simpl. rewrite len_app, !len_cons. pose proof (len_nonneg f).
    pose proof (len_nonneg (join_crlf fs)). lia.
Qed.

Lemma dispatched_frames_are_the_bytes_witness :
  dispatched (("N"%char :: bytes "ICK a" ++ crlf ++ crlf ++ bytes "US")
              ++ bytes "stale") buffer_size 12
  = Ok (10, [bytes "NICK a"; []])
  /\ 0 <= 10 <= 12
  /\ take 10 (bytes "NICK a" ++ crlf ++ crlf ++ bytes "US")
     = join_crlf [bytes "NICK a"; []].
Proof.
  assert (H : dispatched
                (("N"%char :: bytes "ICK a" ++ crlf ++ crlf ++ bytes "US")
                 ++ bytes "stale") buffer_size
                (len ("N"%char :: bytes "ICK a" ++ crlf ++ crlf ++ bytes "US"))
              = Ok (10, [bytes "NICK a"; []])) by (vm_compute; reflexivity).
  split; [exact H|].
  assert (Hfit : [bytes "NICK a"; []] <> []
                 \/ len ("N"%char :: bytes "ICK a" ++ crlf ++ crlf ++ bytes "US")
                    < buffer_size) by (left; discriminate).
  destruct (dispatched_frames_are_the_bytes _ _ _ _ _ H Hfit)
    as (H1 & H2 & _).
  split; [exact H1|exact H2].
Defined.

(** X20: no boundary after the first byte is missed.  Every CR LF that
    begins at index 1 or later of the valid bytes ends a frame: the
    frames dispatched hold no CR LF, the first one from its second byte
    on, and, unless the buffer is dropped as full, neither do the bytes
    left over (from their second byte on when nothing was dispatched). *)
Theorem dispatched_misses_no_boundary (x : ascii) (l stale : list ascii)
    (consumed : Z) (frames : list (list ascii)) :
  dispatched ((x :: l) ++ stale) buffer_size (len (x :: l))
  = Ok (consumed, frames) ->
  Forall (fun frame => crlf_free (drop 1 frame) = true) (take 1 frames)
  /\ Forall (fun frame => crlf_free frame = true) (drop 1 frames)
  /\ (frames <> [] \/ len (x :: l) < buffer_size ->
      crlf_free (drop (if frames is [] then 1 else 0)
                   (drop (Z.to_nat consumed) (x :: l))) = true).
Proof.
  intros H. apply dispatched_inv in H as (rem & Hs & Hc).
  destruct (split_crlf_rem x l frames rem Hs) as (Hj & Hlen & Hnil).
  pose proof (split_crlf_scanned (length l) l [x] (Nat.le_refl _)) as Hsc.
  rewrite Hs in Hsc. destruct Hsc as [Hnone Hcons].
  assert (Hrem : frames <> [] \/ len (x :: l) < buffer_size ->
                 drop (Z.to_nat consumed) (x :: l) = rem).
  { intros Hfit.
    assert (Hc' : consumed = len (join_crlf frames)).
    { rewrite Hc, <- Hlen.
      destruct frames; [|reflexivity].
    destruct (len (x :: l) =? buffer_size) eqn:E; [|reflexivity].
      apply Z.eqb_eq in E. destruct Hfit; [congruence|lia]. }
    rewrite Hc', Hj. unfold len. rewrite Nat2Z.id. apply drop_app_length. }
  destruct frames as [|f fs].
  - destruct (Hnone eq_refl) as [Hfree ->].
    repeat split; try constructor. intros Hfit. rewrite (Hrem Hfit).
    exact Hfree.
  - destruct (Hcons f fs eq_refl) as (f1 & l' & -> & _ & Hf1 & Hfs & Hfr).
    split; [repeat constructor; exact Hf1|]. split; [exact Hfs|].
    intros Hfit. rewrite (Hrem Hfit). exact Hfr.
Qed.

Lemma dispatched_misses_no_boundary_witness :
  dispatched ((CR :: LF :: bytes "NICK a" ++ crlf ++ bytes "US")
              ++ bytes "stale") buffer_size 12
  = Ok (10, [CR :: LF :: bytes "NICK a"])
  /\ crlf_free (bytes "US") = true.
Proof.
  assert (H : dispatched
                ((CR :: LF :: bytes "NICK a" ++ crlf ++ bytes "US")
                 ++ bytes "stale") buffer_size
                (len (CR :: LF :: bytes "NICK a" ++ crlf ++ bytes "US"))
              = Ok (10, [CR :: LF :: bytes "NICK a"]))
    by (vm_compute; reflexivity).
  split; [exact H|].
  destruct (dispatched_misses_no_boundary _ _ _ _ _ H) as (_ & _ & H3).
  apply H3. left. discriminate.
Defined.

(** ** Leaving through [exit] *)

Lemma bind_not_Exited {A B} (m : M A) (k : A -> M B) z :
  result_of m <> Exited z -> (forall a, result_of (k a) <> Exited z) ->
  result_of (bind m k) <> Exited z.
Proof.
  destruct m as [t [a| |z1]]; simpl; intros Hm Hk; try discriminate.
  - specialize (Hk a). destruct (k a). exact Hk.
  - intros [= ->]. now apply Hm.
Qed.

Lemma get_arg_never_exits m i z : get_arg m i <> Exited z.
Proof.
  unfold get_arg. destruct (i <? 0); [discriminate|].
  destruct (args m !! Z.to_nat i); discriminate.
Qed.

Lemma send_data_never_exits c d z : result_of (send_data c d) <> Exited z.
Proof. destruct d; discriminate. Qed.

Ltac never_exits :=
  repeat first
    [ apply get_arg_never_exits
    | apply send_data_never_exits
    | discriminate
    | apply bind_not_Exited; [|intros ?]
    | match goal with
      | |- context [let '(_, _) := ?p in _] => destruct p
      end ].

Lemma process_message_never_exits RPL s n c z :
  result_of (process_message RPL s n c) <> Exited z.
Proof.
  unfold process_message.
  apply bind_not_Exited; [apply parse_message_never_exits|]. intros m.
  apply bind_not_Exited; [destruct (command m); discriminate|]. intros cmd.
  apply bind_not_Exited.
  - destruct (strcmp_eq cmd (bytes "NICK"));
      [|destruct (strcmp_eq cmd (bytes "USER"))]; unfold lift; never_exits.
  - intros [m' c']. cbv zeta.
    destruct (_ && _); [|discriminate].
    unfold send_welcome_message. never_exits.
Qed.

Section ExitFacts.

Context {St : Type}.
Variable handle : list ascii -> Z -> St -> M St.
Hypothesis handle_never_exits :
  forall s n c z, result_of (handle s n c) <> Exited z.

Lemma scan_buffer_never_exits fuel buffer off : forall i mso c z,
  result_of (scan_buffer handle fuel buffer off i mso c) <> Exited z.
Proof.
  induction fuel as [|fuel IH]; intros i mso c z; simpl; [discriminate|].
  destruct (i <? off - 1); [|discriminate].
  destruct (_ && _); [|apply IH].
  apply bind_not_Exited; [apply handle_never_exits|]. intros a. apply IH.
Qed.

Lemma process_buffered_messages_never_exits buffer size off c z :
  result_of (process_buffered_messages_with handle buffer size off c)
  <> Exited z.
Proof.
  unfold process_buffered_messages_with.
  apply bind_not_Exited; [apply scan_buffer_never_exits|].
  intros [mso c']. destruct (_ && _); discriminate.
Qed.

Lemma read_ReadError sock count r data sock1 :
  read sock count = Some (r, data, sock1) ->
  (In ReadError sock1 -> In ReadError sock)
  /\ (0 <= count -> r = -1 -> In ReadError sock).
Proof.
  destruct sock as [|[bs|] sock]; simpl; [discriminate| |].
  - pose proof (len_nonneg bs).
    destruct (len bs <=? count) eqn:E; intros [= <- <- <-].
    + split; [now right|lia].
    + split; [|lia]. intros [Hd|Hd]; [discriminate|now right].
  - intros [= <- <- <-]. split; [now right|now left].
Qed.

Lemma client_loop_exit fuel : forall buffer off c sock t z,
  0 <= off < buffer_size ->
  client_loop handle fuel buffer off c sock = (t, Exited z) ->
  z = 1 /\ In ReadError sock /\ exists t', t = t' ++ [read_failure].
Proof.
  induction fuel as [|fuel IH]; intros buffer off c sock t z Ho H;
    [discriminate|].
  rewrite client_loop_step in H.
  destruct (read sock (buffer_size - off)) as [[[r data] sock1]|] eqn:Er;
    [|discriminate].
  destruct (read_ReadError _ _ _ _ _ Er) as [Hin Hr].
  destruct (r =? -1) eqn:E1.
  - injection H as <- <-. apply Z.eqb_eq in E1.
    split; [reflexivity|]. split; [apply Hr; lia|now exists []].
  - cbv zeta in H. apply Z.eqb_neq in E1.
    apply read_bounds in Er; [|lia]. destruct Er as [Er|[Er Hd]]; [lia|].
    destruct (process_buffered_messages_with _ _ _ _ _)
      as [t1 [[consumed c1]| |z1]] eqn:Ep; try discriminate.
    + apply process_buffered_messages_bounds in Ep; [|lia|reflexivity].
      destruct (memcpy _ _ consumed) as [buffer2| |z2] eqn:Em;
        try discriminate.
      * destruct (client_loop handle fuel buffer2 _ c1 sock1) as [t2 r2] eqn:El.
        simpl in H. injection H as <- ->.
        apply IH in El; [|lia]. destruct El as (Hz & Hs & t' & ->).
        split; [exact Hz|]. split; [auto|].
        exists (t1 ++ t'). now rewrite app_assoc.
      * unfold memcpy in Em. destruct (_ || _); discriminate.
    + exfalso. eapply process_buffered_messages_never_exits.
      unfold result_of. rewrite Ep. reflexivity.
Qed.

End ExitFacts.

(** X21: the only way out through [exit].  Whatever arrives on the
    socket, the connection loop ends the process only with status 1, only
    when a [read] has reported an error, and the last thing it does
    before is to log that failure at ERROR: no message, however
    malformed, makes the handlers call [exit]. *)
Theorem connection_exits_only_on_read_error (RPL_WELCOME : list ascii)
    (c : client) (sock : list arrival) (t : list event) (z : Z) :
  process_client_messages RPL_WELCOME c sock = (t, Exited z) ->
  z = 1 /\ In ReadError sock
  /\ exists t',
       t = t' ++ [Chilog ERROR "Failed to read from client connection" []].
Proof.
  unfold process_client_messages. apply client_loop_exit.
  - intros s n c0 z0. apply process_message_never_exits.
  - unfold buffer_size. lia.
Qed.

Lemma connection_exits_only_on_read_error_witness :
  1 = 1
  /\ In ReadError [Data (bytes "NICK a" ++ crlf); ReadError; Data (bytes "USER")]
  /\ exists t',
       trace_of (process_client_messages (bytes "001") (new_client 4)
                   [Data (bytes "NICK a" ++ crlf); ReadError;
                    Data (bytes "USER")])
       = t' ++ [Chilog ERROR "Failed to read from client connection" []].
Proof.
  apply (connection_exits_only_on_read_error (bytes "001") (new_client 4)
           [Data (bytes "NICK a" ++ crlf); ReadError; Data (bytes "USER")]).
  vm_compute. reflexivity.
Defined.

(** ** The command as a C string *)

Lemma process_NICK_token RPL c (cmd v : list ascii) :
  plain cmd -> strcmp_eq cmd (bytes "NICK") = true -> plain v -> v <> [] ->
  result_of (process_message RPL (cmd ++ SP :: v) (len (cmd ++ SP :: v)) c)
  = result_of (maybe_welcome RPL (set_nick c (Some v))).
Proof.
  intros Hc Hs Hv Hne.
  assert (Hp : parse_frame (cmd ++ SP :: v)
               = Ok (msg_of_tokens ([cmd] ++ [v]))).
  { rewrite parse_message_lex.
    replace (cmd ++ SP :: v) with (spaced [cmd] ++ v)
      by (simpl; now rewrite <- app_assoc).
    apply (parse_spec_no_colon [cmd] v); auto. }
  unfold parse_frame in Hp. apply result_of_eq in Hp.
  rewrite (process_message_NICK _ _ _ _ _ _ cmd Hp eq_refl Hs).
  reflexivity.
Qed.

(** X22: the command is compared as a C string.  In a frame
    [NICK<NUL>junk v] the bytes between the NUL and the space are part of
    the command token, and [strcmp] does not see them: the frame is
    processed as [NICK v] is, with the same session or the same error as
    result. *)
Theorem command_cut_at_nul (RPL_WELCOME : list ascii) (c : client)
    (junk v : list ascii) :
  plain junk -> plain v -> v <> [] ->
  result_of (process_message RPL_WELCOME
               (bytes "NICK" ++ NUL :: junk ++ SP :: v)
               (len (bytes "NICK" ++ NUL :: junk ++ SP :: v)) c)
  = result_of (process_message RPL_WELCOME (bytes "NICK " ++ v)
                 (len (bytes "NICK " ++ v)) c).
Proof.
  intros Hj Hv Hne.
  change (bytes "NICK" ++ NUL :: junk ++ SP :: v)
    with ((bytes "NICK" ++ NUL :: junk) ++ SP :: v).
  change (bytes "NICK " ++ v) with (bytes "NICK" ++ SP :: v).
  rewrite (process_NICK_token RPL_WELCOME c (bytes "NICK" ++ NUL :: junk) v);
    auto.
  - rewrite (process_NICK_token RPL_WELCOME c (bytes "NICK") v); auto.
    plain_tokens.
  - apply Forall_app. split; [plain_tokens|].
    constructor; [split; discriminate|exact Hj].
Qed.

Lemma command_cut_at_nul_witness :
  plain (bytes "xyz") /\ plain (bytes "alice") /\ bytes "alice" <> []
  /\ result_of (process_message (bytes "001")
                  (bytes "NICK" ++ NUL :: bytes "xyz" ++ SP :: bytes "alice")
                  14 (new_client 4))
     = result_of (process_message (bytes "001") (bytes "NICK alice") 10
                    (new_client 4)).
Proof.
  assert (H1 : plain (bytes "xyz")) by plain_tokens.
  assert (H2 : plain (bytes "alice")) by plain_tokens.
  assert (H3 : bytes "alice" <> []) by discriminate.
  split; [exact H1|]. split; [exact H2|]. split; [exact H3|].
  exact (command_cut_at_nul (bytes "001") (new_client 4) (bytes "xyz")
           (bytes "alice") H1 H2 H3).
Defined.
